(** * Memvid RAG agent: a shallow embedding of the orchestration core

    The development follows the Python sources:
    - [memvid_rag/utils/tools.py]  (path extraction, validation, intent),
    - [memvid_rag/utils/nodes.py]  (the pipeline nodes),
    - [memvid_rag/agent.py]        (the graph and the [query] entry point),
    - [memvid_rag/config.py]       (the provider keys).

    Text is a list of 8-bit characters.  The character classes that the
    sources use ([\w], whitespace, case folding) are given on the ASCII
    range; text outside ASCII only occurs inside message constants.
    The knowledge store, the generative model, [pathlib]/[os] and the
    clock are external collaborators: they enter as oracles of an
    environment record, and a call that may raise returns a [result].
    A relevance score is a Python float: a rational, an infinity or
    NaN, compared the way Python compares floats.
    List objects that are shared between the sessions and a request
    live in a heap, so that an in-place [append] is seen by both. *)

From Stdlib Require Import Ascii String DecimalString.
From Stdlib Require Import Bool Arith PeanoNat ZArith QArith List.
From Stdlib Require Import Lia Permutation Sorted.
Import ListNotations.
Local Open Scope nat_scope.
Local Open Scope bool_scope.
Local Open Scope list_scope.

(* ================================================================= *)
(** ** Python strings *)

Module Str.

Definition str := list ascii.

(** A literal. *)
Definition lit (s : string) : str := list_ascii_of_string s.

Definition str_eq_dec : forall a b : str, {a = b} + {a <> b} :=
  list_eq_dec ascii_dec.

Definition str_eqb (a b : str) : bool :=
  if str_eq_dec a b then true else false.

Definition chr (n : nat) : ascii := ascii_of_nat n.
Definition ord (c : ascii) : nat := nat_of_ascii c.

Definition dquote : ascii := chr 34.
Definition squote : ascii := chr 39.
Definition backslash : ascii := chr 92.
Definition newline : ascii := chr 10.

Definition in_range (lo hi : nat) (c : ascii) : bool :=
  (lo <=? ord c) && (ord c <=? hi).

Definition is_upper (c : ascii) : bool := in_range 65 90 c.
Definition is_lower (c : ascii) : bool := in_range 97 122 c.
Definition is_digit (c : ascii) : bool := in_range 48 57 c.
(** [[a-zA-Z]] *)
Definition is_letter (c : ascii) : bool := is_upper c || is_lower c.
(** [\w] *)
Definition is_word (c : ascii) : bool :=
  is_letter c || is_digit c || Ascii.eqb c "_".
(** The characters that [str.strip()] removes. *)
Definition is_space (c : ascii) : bool :=
  in_range 9 13 c || in_range 28 32 c.

Definition lower_char (c : ascii) : ascii :=
  if is_upper c then chr (ord c + 32) else c.

(** [s.lower()] *)
Definition lower (s : str) : str := map lower_char s.

(** [s.startswith(p)] *)
Fixpoint startswith (p s : str) : bool :=
  match p, s with
  | [], _ => true
  | a :: p', b :: s' => Ascii.eqb a b && startswith p' s'
  | _ :: _, [] => false
  end.

(** [needle in hay] *)
Fixpoint contains (needle hay : str) : bool :=
  startswith needle hay ||
  match hay with
  | [] => false
  | _ :: t => contains needle t
  end.

Fixpoint lstrip_by (p : ascii -> bool) (s : str) : str :=
  match s with
  | c :: t => if p c then lstrip_by p t else s
  | [] => []
  end.

Definition rstrip_by (p : ascii -> bool) (s : str) : str :=
  rev (lstrip_by p (rev s)).

Definition strip_by (p : ascii -> bool) (s : str) : str :=
  rstrip_by p (lstrip_by p s).

(** [s.strip()] *)
Definition strip (s : str) : str := strip_by is_space s.

(** [sep.join(xs)] *)
Fixpoint join (sep : str) (xs : list str) : str :=
  match xs with
  | [] => []
  | [x] => x
  | x :: t => x ++ sep ++ join sep t
  end.

(** [str(n)] for a non-negative integer. *)
Definition str_of_nat (n : nat) : str :=
  lit (NilEmpty.string_of_uint (Nat.to_uint n)).

(** [s.split(sep)[0]] for a one-character separator. *)
Fixpoint split_head (sep : ascii) (s : str) : str :=
  match s with
  | [] => []
  | c :: t => if Ascii.eqb c sep then [] else c :: split_head sep t
  end.

(** [list(set(xs))]: the distinct elements; a Python set iterates in an
    unspecified order, so only membership of the result is meaningful. *)
Definition list_set (xs : list str) : list str := nodup str_eq_dec xs.

(** Truthiness of a list or a string. *)
Definition truthy {A} (l : list A) : bool :=
  match l with [] => false | _ :: _ => true end.

End Str.
Export Str.

(* ================================================================= *)
(** ** The fragment of [re] that the sources use

    A backtracking matcher in continuation-passing style with Python's
    priorities: a repetition is greedy, an alternation tries its left
    branch first, and the first complete match wins. *)

Module Re.

Inductive regex : Type :=
| Eps
| Cls (p : ascii -> bool) (lo : nat) (hi : option nat)
      (** a character class repeated [{lo,hi}], greedy *)
| Seq (r1 r2 : regex)
| Alt (r1 r2 : regex)
| Grp (i : nat) (r : regex)     (** capturing group number [i] *)
| Ref (i : nat)                 (** back-reference [\i] *)
| Bnd.                          (** [\b] *)

(** A position in the subject: what was consumed (latest first), what
    is left, and the groups captured so far (latest first). *)
Record mstate : Type := MState {
  consumed : str;
  rest : str;
  caps : list (nat * str)
}.

Fixpoint group (i : nat) (cs : list (nat * str)) : option str :=
  match cs with
  | [] => None
  | (j, g) :: t => if Nat.eqb i j then Some g else group i t
  end.

Definition below (n : nat) (hi : option nat) : bool :=
  match hi with
  | None => true
  | Some h => n <? h
  end.

(** Greedy repetition of a class: [n] characters are already taken. *)
Fixpoint rep (p : ascii -> bool) (lo : nat) (hi : option nat)
    (k : mstate -> option mstate)
    (n : nat) (seen : str) (cs : list (nat * str)) (s : str)
    : option mstate :=
  let stop := if lo <=? n then k (MState seen s cs) else None in
  match s with
  | c :: t =>
      if p c && below n hi then
        match rep p lo hi k (S n) (c :: seen) cs t with
        | Some r => Some r
        | None => stop
        end
      else stop
  | [] => stop
  end.

Definition word_before (st : mstate) : bool :=
  match consumed st with c :: _ => is_word c | [] => false end.

Definition word_after (st : mstate) : bool :=
  match rest st with c :: _ => is_word c | [] => false end.

Definition captured (st0 st1 : mstate) : str :=
  rev (firstn (length (consumed st1) - length (consumed st0)) (consumed st1)).

Fixpoint advance (g : str) (st : mstate) : mstate :=
  match g with
  | [] => st
  | c :: g' =>
      advance g' (MState (c :: consumed st) (tl (rest st)) (caps st))
  end.

Fixpoint rmatch (r : regex) (k : mstate -> option mstate) (st : mstate)
    : option mstate :=
  match r with
  | Eps => k st
  | Cls p lo hi => rep p lo hi k 0 (consumed st) (caps st) (rest st)
  | Seq r1 r2 => rmatch r1 (rmatch r2 k) st
  | Alt r1 r2 =>
      match rmatch r1 k st with
      | Some x => Some x
      | None => rmatch r2 k st
      end
  | Grp i r1 =>
      rmatch r1
        (fun st1 =>
           k (MState (consumed st1) (rest st1)
                     ((i, captured st st1) :: caps st1)))
        st
  | Ref i =>
      match group i (caps st) with
      | Some g => if startswith g (rest st) then k (advance g st) else None
      | None => None
      end
  | Bnd => if xorb (word_before st) (word_after st) then k st else None
  end.

(** One anchored attempt at the current position. *)
Definition match_at (r : regex) (seen s : str) : option mstate :=
  rmatch r Some (MState seen s []).

(** The left-to-right scan shared by [re.search] and [re.findall]:
    after a match of [n] characters the next attempt starts [n]
    characters later (one later after an empty match). *)
Fixpoint scan (r : regex) (skip : nat) (seen s : str) : list mstate :=
  match skip with
  | S j =>
      match s with
      | c :: t => scan r j (c :: seen) t
      | [] => []
      end
  | 0 =>
      match match_at r seen s with
      | Some m =>
          m :: match s with
               | c :: t =>
                   scan r (length (consumed m) - length seen - 1) (c :: seen) t
               | [] => []
               end
      | None =>
          match s with
          | c :: t => scan r 0 (c :: seen) t
          | [] => []
          end
      end
  end.

Definition group_text (i : nat) (m : mstate) : str :=
  match group i (caps m) with Some g => g | None => [] end.

(** [re.findall(r, s)] for a pattern with exactly one group. *)
Definition findall (r : regex) (s : str) : list str :=
  map (group_text 1) (scan r 0 [] s).

(** [re.search(r, s)] *)
Definition search (r : regex) (s : str) : option mstate :=
  hd_error (scan r 0 [] s).

(** Pattern syntax. *)
Definition one (c : ascii) : regex := Cls (Ascii.eqb c) 1 (Some 1).
Definition any_of (cs : str) (c : ascii) : bool :=
  existsb (Ascii.eqb c) cs.
Definition none_of (cs : str) (c : ascii) : bool := negb (any_of cs c).
Definition plus (p : ascii -> bool) : regex := Cls p 1 None.
Definition star (p : ascii -> bool) : regex := Cls p 0 None.
Definition opt (p : ascii -> bool) : regex := Cls p 0 (Some 1).
Definition cat (rs : list regex) : regex := fold_right Seq Eps rs.
Definition word (s : string) : regex := cat (map one (lit s)).

End Re.
Export Re.

(* ================================================================= *)
(** ** External collaborators *)

Module Ext.

(** The outcome of a call that may raise; [Raise e] carries [str(e)]. *)
Inductive result (A : Type) : Type :=
| Ok (a : A)
| Raise (e : str).
Arguments Ok {A} a.
Arguments Raise {A} e.

Definition bind {A B} (r : result A) (f : A -> result B) : result B :=
  match r with
  | Ok a => f a
  | Raise e => Raise e
  end.

Notation "x <- r ;; k" := (bind r (fun x => k))
  (at level 61, r at next level, right associativity).

(** A Python float: a finite value, which is a rational, an infinity,
    or NaN. *)
Inductive pyfloat : Type :=
| NegInf
| Finite (q : Q)
| PosInf
| NaN.

(** [MemvidRetriever.search(query, top_k)]: an ordered list of
    (text, score) pairs; [float(score)] is any float, NaN included. *)
Definition retriever := str -> nat -> result (list (str * pyfloat)).

(** [langchain_core.messages]: the two roles the sources build. *)
Inductive message : Type :=
| HumanMessage (content : str)
| AIMessage (content : str).

(** [pathlib], [os], the clock, the encoder of the knowledge store and
    the generative model. *)
Record Env : Type := {
  path_str : str -> str;            (** [str(Path(p))] *)
  path_suffix : str -> str;         (** [Path(p).suffix] *)
  path_stem : str -> str;           (** [Path(p).stem] *)
  path_name : str -> str;           (** [Path(p).name] *)
  path_join : str -> str -> str;    (** [str(Path(d) / name)] *)
  path_exists : str -> bool;        (** [Path(p).exists()], [os.path.exists] *)
  path_is_dir : str -> bool;
  path_is_file : str -> bool;
  iterdir : str -> result (list str);
  glob_mp4 : str -> result (list str);   (** the [.mp4] files of [Path(d)] *)
  mkdir : str -> result unit;
  stat_size_mb : str -> result Q;   (** [p.stat().st_size / (1024*1024)] *)
  read_text : str -> result str;    (** [open(p).read()] *)
  now_stamp : str;                  (** [datetime.now()], formatted *)
  fmt_float : nat -> Q -> str;      (** a float with [N] decimals *)
  encoder_new : result unit;        (** [MemvidEncoder()] *)
  add_pdf : str -> result (list str);    (** the chunks a PDF adds *)
  add_epub : str -> result (list str);   (** the chunks an EPUB adds *)
  add_text : str -> str -> result (list str);
                                    (** the chunks a text adds *)
  build_video : str -> str -> list str -> result unit;
  load_retriever : str -> str -> result retriever;
                                    (** [MemvidRetriever(video, index)] *)
  llm_ainvoke : list message -> result str
                                    (** [(await llm.ainvoke(ms)).content] *)
}.

End Ext.
Export Ext.

(* ================================================================= *)
(** ** [utils/tools.py] *)

Module Tools.

(** [[^q]] *)
Definition not_chr (q : ascii) (c : ascii) : bool := negb (Ascii.eqb c q).

(** [[\w\-_./\\]] *)
Definition path_char (c : ascii) : bool :=
  is_word c || any_of ("-"%char :: "_"%char :: "."%char :: "/"%char
                        :: backslash :: nil) c.

(** [[/\\]] *)
Definition slash (c : ascii) : bool :=
  any_of ("/"%char :: backslash :: nil) c.

(** [[a-zA-Z]{2,4}] *)
Definition extension : regex := Cls is_letter 2 (Some 4).

(** [q([^q]+\.[a-zA-Z]{2,4})q] *)
Definition quoted_pattern (q : ascii) : regex :=
  cat [one q;
       Grp 1 (cat [plus (not_chr q); one "."; extension]);
       one q].

Definition quoted_patterns : list regex :=
  [quoted_pattern dquote; quoted_pattern squote].

(** [(\b[\w\-_./\\]+\.[a-zA-Z]{2,4})\b] and
    [([/\\]?[\w\-_./\\]+\.[a-zA-Z]{2,4})] *)
Definition unquoted_patterns : list regex :=
  [cat [Grp 1 (cat [Bnd; plus path_char; one "."; extension]); Bnd];
   Grp 1 (cat [opt slash; plus path_char; one "."; extension])].

Definition false_positives : list str :=
  map lit ["www."; "http"; ".com"; ".org"]%string.

Definition extract_document_paths (query : str) : list str :=
  let paths := flat_map (fun pattern => findall pattern query) quoted_patterns in
  let paths :=
    if truthy paths then paths
    else
      flat_map
        (fun pattern =>
           filter
             (fun m =>
                negb (existsb (fun fp => contains fp (lower m)) false_positives))
             (findall pattern query))
        unquoted_patterns in
  let cleaned_paths :=
    filter (fun cleaned_path =>
              truthy cleaned_path && (1 <? length cleaned_path))
           (map strip paths) in
  list_set cleaned_paths.

Definition supported_extensions : list str :=
  map lit [".pdf"; ".txt"; ".epub"; ".md"; ".docx"]%string.

Definition mem_str (x : str) (l : list str) : bool :=
  existsb (str_eqb x) l.

Record validation : Type := {
  valid : list str;
  invalid : list str;
  shown_extensions : list str
}.

Definition unsupported_tag : str := lit " (unsupported format)".
Definition not_found_tag : str := lit " (file not found)".

(** The loop body of [validate_file_paths]. *)
Definition validate_step (E : Env) (acc : list str * list str) (path : str)
    : list str * list str :=
  let '(valid_paths, invalid_paths) := acc in
  if path_exists E path then
    if mem_str (lower (path_suffix E path)) supported_extensions then
      (valid_paths ++ [path_str E path], invalid_paths)
    else
      (valid_paths, invalid_paths ++ [path ++ unsupported_tag])
  else
    (valid_paths, invalid_paths ++ [path ++ not_found_tag]).

Definition validate_file_paths (E : Env) (paths : list str) : validation :=
  let '(valid_paths, invalid_paths) :=
    fold_left (validate_step E) paths ([], []) in
  {| valid := valid_paths;
     invalid := invalid_paths;
     shown_extensions := supported_extensions |}.

(** The class of [re.sub(r'[...]', '_', name)]: the characters
    < > : / \ | ? * and the double quote. *)
Definition unsafe_char (c : ascii) : bool :=
  any_of ("<"%char :: ">"%char :: ":"%char :: dquote :: "/"%char
           :: backslash :: "|"%char :: "?"%char :: "*"%char :: nil) c.

Definition replace_unsafe (name : str) : str :=
  map (fun c => if unsafe_char c then "_"%char else c) name.

(** [re.sub(r'_+', '_', s)]; [run] tells that the previous character
    was an underscore. *)
Fixpoint collapse_underscores (run : bool) (s : str) : str :=
  match s with
  | c :: t =>
      if Ascii.eqb c "_" then
        if run then collapse_underscores true t
        else "_"%char :: collapse_underscores true t
      else c :: collapse_underscores false t
  | [] => []
  end.

Definition sanitize_memory_name (name : str) : str :=
  let sanitized := replace_unsafe name in
  let sanitized := collapse_underscores false sanitized in
  let sanitized := strip_by (Ascii.eqb "_") sanitized in
  let sanitized :=
    if 50 <? length sanitized then firstn 50 sanitized else sanitized in
  if truthy sanitized then sanitized else lit "memory".

Definition generate_memory_name (E : Env) (documents : list str) : str :=
  let timestamp := now_stamp E in
  match documents with
  | [doc] => sanitize_memory_name (path_stem E doc ++ lit "_" ++ timestamp)
  | _ :: _ :: _ => lit "documents_" ++ timestamp
  | [] => lit "memory_" ++ timestamp
  end.

(** [[\w\-_.]] *)
Definition dir_char (c : ascii) : bool :=
  is_word c || any_of ("-"%char :: "_"%char :: "."%char :: nil) c.

(** [q([^q]+/)q] for either quote [q], and [([/\\]?[\w\-_.]+[/\\])] *)
Definition directory_patterns : list regex :=
  [cat [one dquote; Grp 1 (cat [plus (not_chr dquote); one "/"]); one dquote];
   cat [one squote; Grp 1 (cat [plus (not_chr squote); one "/"]); one squote];
   Grp 1 (cat [opt slash; plus dir_char; Cls slash 1 (Some 1)])].

(** The first pattern with a match decides; its first match is returned. *)
Fixpoint first_match (patterns : list regex) (query : str) : option str :=
  match patterns with
  | [] => None
  | pattern :: more =>
      match findall pattern query with
      | m :: _ => Some m
      | [] => first_match more query
      end
  end.

Definition extract_directory_from_query (query : str) : option str :=
  first_match directory_patterns query.

(** A failure of the directory listing is logged and swallowed. *)
Definition scan_directory_for_documents (E : Env) (directory : str)
    : list str :=
  if path_exists E directory && path_is_dir E directory then
    match iterdir E directory with
    | Ok entries =>
        map (path_str E)
          (filter
             (fun file_path =>
                path_is_file E file_path &&
                mem_str (lower (path_suffix E file_path)) supported_extensions)
             entries)
    | Raise _ => []
    end
  else [].

Definition ingestion_patterns : list str :=
  map lit ["ingest"; "add"; "load"; "import"; "process"; "index";
           "upload"; "include"; "incorporate"]%string.

Definition search_patterns : list str :=
  map lit ["search"; "find"; "what"; "how"; "when"; "where"; "why";
           "explain"; "describe"; "tell me"; "show me"]%string.

Definition management_patterns : list str :=
  map lit ["list"; "show"; "stats"; "statistics"; "status";
           "manage"; "delete"; "remove"; "clear"]%string.

(** [any(pattern in text for pattern in patterns)] *)
Definition any_in (patterns : list str) (text : str) : bool :=
  existsb (fun pattern => contains pattern text) patterns.

Definition is_some {A} (o : option A) : bool :=
  match o with Some _ => true | None => false end.

(** Truthiness of an optional string: [None] and the empty string are false. *)
Definition truthy_opt (o : option str) : bool :=
  match o with Some s => truthy s | None => false end.

Record intent_info : Type := {
  ii_intent : str;
  ii_document_paths : list str;
  ii_directory_path : option str;
  ii_original_query : str
}.

Definition parse_query_intent (query : str) : intent_info :=
  let query_lower := lower query in
  let document_paths := extract_document_paths query in
  let directory_path := extract_directory_from_query query in
  let intent :=
    if any_in ingestion_patterns query_lower
       || truthy document_paths || truthy_opt directory_path
    then lit "ingest"
    else if any_in management_patterns query_lower then lit "manage"
    else if any_in search_patterns query_lower then lit "search"
    else lit "chat" in
  {| ii_intent := intent;
     ii_document_paths := document_paths;
     ii_directory_path := directory_path;
     ii_original_query := query |}.

Record ingestion_stats : Type := {
  processed : nat;
  failed : nat;
  total_chunks : nat;
  video_size_mb : Q
}.

Definition nl : str := [newline].

Definition create_ingestion_summary (E : Env) (stats : ingestion_stats)
    (memory_name : str) : str :=
  lit "✅ Successfully created memory '" ++ memory_name ++ lit "'" ++ nl ++ nl
  ++ lit "📊 **Statistics:**" ++ nl
  ++ lit "• Processed files: " ++ str_of_nat (processed stats) ++ nl
  ++ lit "• Failed files: " ++ str_of_nat (failed stats) ++ nl
  ++ lit "• Total text chunks: " ++ str_of_nat (total_chunks stats) ++ nl
  ++ lit "• Video memory size: " ++ fmt_float E 1 (video_size_mb stats)
  ++ lit " MB" ++ nl ++ nl
  ++ lit "🔍 You can now search this memory by asking questions about the content.".

End Tools.
Export Tools.

(* ================================================================= *)
(** ** [utils/state.py] and the process state of the agent *)

Module State.

(** Python lists are objects: the history of a session and the
    [messages] entry of a request may be one and the same list.  A
    list of messages therefore lives in a heap and is named by its
    address. *)
Definition loc := nat.
Definition heap := list (list message).

Definition deref (h : heap) (l : loc) : list message := nth l h [].

Fixpoint store (h : heap) (l : loc) (v : list message) : heap :=
  match h, l with
  | [], _ => []
  | _ :: t, 0 => v :: t
  | x :: t, S l' => x :: store t l' v
  end.

Definition alloc (h : heap) (v : list message) : heap * loc :=
  (h ++ [v], length h).

Record chunk : Type := Chunk {
  text : str;
  score : pyfloat;
  source_memory : str;
  rank : nat
}.

(** The value of [state["memory_paths"]] once an ingestion has set it. *)
Record memory_descr : Type := {
  md_video : str;
  md_index : str;
  md_name : str
}.

Record ConversationState : Type := {
  messages : loc;
  query : str;
  context : list str;
  retrieved_chunks : list chunk;
  response : str;
  intent : str;
  processing_status : str;
  session_id : str;
  memory_paths : option memory_descr;   (** [None] is the empty dict *)
  error_message : option str
}.

Definition set_messages (l : loc) (s : ConversationState) :=
  {| messages := l; query := query s; context := context s;
     retrieved_chunks := retrieved_chunks s; response := response s;
     intent := intent s; processing_status := processing_status s;
     session_id := session_id s; memory_paths := memory_paths s;
     error_message := error_message s |}.

Definition set_context (c : list str) (s : ConversationState) :=
  {| messages := messages s; query := query s; context := c;
     retrieved_chunks := retrieved_chunks s; response := response s;
     intent := intent s; processing_status := processing_status s;
     session_id := session_id s; memory_paths := memory_paths s;
     error_message := error_message s |}.

Definition set_retrieved_chunks (c : list chunk) (s : ConversationState) :=
  {| messages := messages s; query := query s; context := context s;
     retrieved_chunks := c; response := response s;
     intent := intent s; processing_status := processing_status s;
     session_id := session_id s; memory_paths := memory_paths s;
     error_message := error_message s |}.

Definition set_response (r : str) (s : ConversationState) :=
  {| messages := messages s; query := query s; context := context s;
     retrieved_chunks := retrieved_chunks s; response := r;
     intent := intent s; processing_status := processing_status s;
     session_id := session_id s; memory_paths := memory_paths s;
     error_message := error_message s |}.

Definition set_intent (i : str) (s : ConversationState) :=
  {| messages := messages s; query := query s; context := context s;
     retrieved_chunks := retrieved_chunks s; response := response s;
     intent := i; processing_status := processing_status s;
     session_id := session_id s; memory_paths := memory_paths s;
     error_message := error_message s |}.

Definition set_status (p : str) (s : ConversationState) :=
  {| messages := messages s; query := query s; context := context s;
     retrieved_chunks := retrieved_chunks s; response := response s;
     intent := intent s; processing_status := p;
     session_id := session_id s; memory_paths := memory_paths s;
     error_message := error_message s |}.

Definition set_memory_paths (m : memory_descr) (s : ConversationState) :=
  {| messages := messages s; query := query s; context := context s;
     retrieved_chunks := retrieved_chunks s; response := response s;
     intent := intent s; processing_status := processing_status s;
     session_id := session_id s; memory_paths := Some m;
     error_message := error_message s |}.

Definition set_error_message (e : str) (s : ConversationState) :=
  {| messages := messages s; query := query s; context := context s;
     retrieved_chunks := retrieved_chunks s; response := response s;
     intent := intent s; processing_status := processing_status s;
     session_id := session_id s; memory_paths := memory_paths s;
     error_message := Some e |}.

(** A Python dict keeps its keys in insertion order. *)
Definition dict (V : Type) := list (str * V).

Fixpoint dict_get {V} (d : dict V) (key : str) : option V :=
  match d with
  | [] => None
  | (k, v) :: t => if str_eqb key k then Some v else dict_get t key
  end.

(** [d[key] = v]: an existing key keeps its place. *)
Fixpoint dict_set {V} (d : dict V) (key : str) (v : V) : dict V :=
  match d with
  | [] => [(key, v)]
  | (k, w) :: t =>
      if str_eqb key k then (k, v) :: t else (k, w) :: dict_set t key v
  end.

(** What lives as long as the agent does: the list objects, the
    registry of memory handles and the sessions (their [created_at]
    stamp is never read and is left out). *)
Record World : Type := {
  objects : heap;
  active_memories : dict retriever;
  session_data : dict loc
}.

Definition set_objects (h : heap) (w : World) : World :=
  {| objects := h; active_memories := active_memories w;
     session_data := session_data w |}.

Definition set_active_memories (m : dict retriever) (w : World) : World :=
  {| objects := objects w; active_memories := m;
     session_data := session_data w |}.

Definition set_session_data (d : dict loc) (w : World) : World :=
  {| objects := objects w; active_memories := active_memories w;
     session_data := d |}.

(** The conversation history of a session; a session that was never
    seen has none. *)
Definition history (w : World) (sid : str) : list message :=
  match dict_get (session_data w) sid with
  | Some l => deref (objects w) l
  | None => []
  end.

End State.
Export State.

(* ================================================================= *)
(** ** [utils/nodes.py] *)

Module Nodes.

Definition dq : str := [dquote].

(** [parse_query_intent] is total on strings, so the handler of the
    [try] block in [analyze_query_node] is never entered. *)
Definition analyze_query_node (state : ConversationState)
    : ConversationState :=
  let intent_info := parse_query_intent (query state) in
  set_status (lit "analyzed") (set_intent (ii_intent intent_info) state).

Definition routing : dict str :=
  [(lit "ingest", lit "document_ingestor");
   (lit "search", lit "semantic_retriever");
   (lit "chat", lit "semantic_retriever");
   (lit "manage", lit "memory_manager");
   (lit "error", lit "error_handler")].

Definition route_query (state : ConversationState) : str :=
  match dict_get routing (intent state) with
  | Some next => next
  | None => lit "semantic_retriever"
  end.

(** *** Ingestion *)

Definition quote_char (c : ascii) : bool := any_of [dquote; squote] c.
Definition not_quote (c : ascii) : bool := none_of [dquote; squote] c.

(** An optional quote (group 1), then a quote-free stretch around one
    of [documents?], [files?], [folder] (group 2), then group 1 again. *)
Definition directory_mention : regex :=
  cat [Grp 1 (opt quote_char);
       Grp 2 (cat [star not_quote;
                   Alt (cat [word "document"; opt (Ascii.eqb "s")])
                       (Alt (cat [word "file"; opt (Ascii.eqb "s")])
                            (word "folder"));
                   star not_quote]);
       Ref 1].

Definition no_documents_response : str :=
  lit "❌ No valid document paths found in your request. " ++ nl ++ nl
  ++ lit "**To ingest documents, try:**" ++ nl
  ++ lit "• `Ingest " ++ dq ++ lit "document.pdf" ++ dq ++ lit " "
  ++ dq ++ lit "notes.txt" ++ dq ++ lit "`" ++ nl
  ++ lit "• `Process files in " ++ dq ++ lit "documents/" ++ dq
  ++ lit " folder`" ++ nl
  ++ lit "• `Add " ++ dq ++ lit "research_paper.pdf" ++ dq
  ++ lit " to memory`" ++ nl ++ nl
  ++ lit "**Supported formats:** PDF, TXT, EPUB, MD, DOCX".

Definition bullet (path : str) : str := lit "• " ++ path.

Definition invalid_documents_response (v : validation) : str :=
  lit "❌ No valid documents found." ++ nl ++ nl
  ++ lit "**Invalid paths:**" ++ nl
  ++ join nl (map bullet (invalid v)) ++ nl ++ nl
  ++ lit "**Supported formats:** " ++ join (lit ", ") (shown_extensions v).

Definition no_content_response : str :=
  lit "❌ No content could be extracted from the provided documents.".

(** The encoder, seen through its [chunks] list, and the two counters
    of [ingestion_stats]. *)
Record encoding : Type := {
  enc_chunks : list str;
  enc_processed : nat;
  enc_failed : nat
}.

(** One turn of the loop over [valid_paths]; a file that raises counts
    as failed and adds nothing. *)
Definition ingest_file (E : Env) (acc : encoding) (doc_path : str)
    : encoding :=
  let suffix := lower (path_suffix E doc_path) in
  let added :=
    if str_eqb suffix (lit ".pdf") then add_pdf E doc_path
    else if str_eqb suffix (lit ".epub") then add_epub E doc_path
    else content <- read_text E doc_path ;;
         add_text E content (path_name E doc_path) in
  match added with
  | Ok new_chunks =>
      {| enc_chunks := enc_chunks acc ++ new_chunks;
         enc_processed := enc_processed acc + 1;
         enc_failed := enc_failed acc |}
  | Raise _ =>
      {| enc_chunks := enc_chunks acc;
         enc_processed := enc_processed acc;
         enc_failed := enc_failed acc + 1 |}
  end.

(** The paths an ingestion request names: the explicit ones, else the
    documents of a directory the request mentions. *)
Definition requested_paths (E : Env) (query : str) : list str :=
  let document_paths := extract_document_paths query in
  if truthy document_paths then document_paths
  else
    match search directory_mention (lower query) with
    | Some dir_match =>
        let potential_dir := strip (group_text 2 dir_match) in
        if path_exists E potential_dir
        then scan_directory_for_documents E potential_dir
        else document_paths
    | None => document_paths
    end.

(** The body of the [try] block. *)
Definition ingest_documents_body (E : Env) (storage_path : str)
    (state : ConversationState) : result ConversationState :=
  let document_paths := requested_paths E (query state) in
  if negb (truthy document_paths) then
    Ok (set_status (lit "no_documents")
          (set_response no_documents_response state))
  else
    let validation_result := validate_file_paths E document_paths in
    let valid_paths := valid validation_result in
    let invalid_paths := invalid validation_result in
    if negb (truthy valid_paths) then
      Ok (set_status (lit "invalid_documents")
            (set_response (invalid_documents_response validation_result)
               state))
    else
      let memory_name := generate_memory_name E valid_paths in
      _ <- encoder_new E ;;
      let encoder :=
        fold_left (ingest_file E) valid_paths
          {| enc_chunks := []; enc_processed := 0; enc_failed := 0 |} in
      state' <-
        (if truthy (enc_chunks encoder) then
           _ <- mkdir E storage_path ;;
           let video_path :=
             path_join E storage_path (memory_name ++ lit ".mp4") in
           let index_path :=
             path_join E storage_path (memory_name ++ lit "_index.json") in
           _ <- build_video E video_path index_path (enc_chunks encoder) ;;
           size <- stat_size_mb E video_path ;;
           let stats :=
             {| processed := enc_processed encoder;
                failed := enc_failed encoder;
                total_chunks := length (enc_chunks encoder);
                video_size_mb := size |} in
           let summary := create_ingestion_summary E stats memory_name in
           let skipped :=
             if truthy invalid_paths then
               nl ++ nl ++ lit "⚠️ **Skipped files:**" ++ nl
               ++ join nl (map bullet invalid_paths)
             else [] in
           Ok (set_response (summary ++ skipped)
                 (set_memory_paths
                    {| md_video := video_path;
                       md_index := index_path;
                       md_name := memory_name |}
                    state))
         else Ok (set_response no_content_response state)) ;;
      Ok (set_status (lit "ingestion_complete") state').

Definition ingest_documents_node (E : Env) (storage_path : str)
    (state : ConversationState) : ConversationState :=
  match ingest_documents_body E storage_path state with
  | Ok state' => state'
  | Raise e =>
      set_error_message e
        (set_status (lit "ingestion_error")
           (set_response (lit "❌ Error during document ingestion: " ++ e)
              state))
  end.

(** *** Retrieval *)

(** [enumerate(results)]: the chunks of one source, ranked from 1. *)
Fixpoint tag_results (i : nat) (memory_name : str)
    (results : list (str * pyfloat)) : list chunk :=
  match results with
  | [] => []
  | (txt, sc) :: more =>
      {| text := txt; score := sc;
         source_memory := memory_name; rank := i + 1 |}
      :: tag_results (S i) memory_name more
  end.

(** One turn of the loop over [active_memories.items()]: a search that
    raises is logged and the loop goes on. *)
Definition search_memory (query : str) (retrieved_chunks : list chunk)
    (item : str * retriever) : list chunk :=
  let '(memory_name, retriever) := item in
  match retriever query 5 with
  | Ok results => retrieved_chunks ++ tag_results 0 memory_name results
  | Raise _ => retrieved_chunks
  end.

Definition Qlt_bool (a b : Q) : bool := negb (Qle_bool b a).

(** [a < b] on floats: false as soon as one side is NaN. *)
Definition float_lt (a b : pyfloat) : bool :=
  match a with
  | NaN => false
  | NegInf => match b with Finite _ | PosInf => true | _ => false end
  | Finite x =>
      match b with
      | Finite y => Qlt_bool x y
      | PosInf => true
      | _ => false
      end
  | PosInf => false
  end.

(** [list.sort(key=score, reverse=True)]: the list is reversed, sorted
    upwards by a stable sort that only asks [<], and reversed again.
    Here the sort is by insertion: an element is put in front of the
    first one whose score is not greater than its own.  Scores without
    NaN are totally ordered, there is one stable sort of a list, and
    this is it.  With a NaN score [<] is no order any more and the
    result of the interpreter depends on how it looks for runs and for
    the place of an element; on the list of [nan_memories] below, the
    only such list that is looked at, it leaves the list as it is, and
    so does the insertion. *)
Fixpoint insert_desc (x : chunk) (l : list chunk) : list chunk :=
  match l with
  | [] => [x]
  | y :: t =>
      if float_lt (score x) (score y) then y :: insert_desc x t
      else x :: y :: t
  end.

Definition sort_desc (l : list chunk) : list chunk :=
  fold_right insert_desc [] l.

Definition retrieve_context_node (active : dict retriever)
    (state : ConversationState) : ConversationState :=
  if negb (truthy active) then
    set_status (lit "no_memories")
      (set_retrieved_chunks [] (set_context [] state))
  else
    let retrieved_chunks :=
      fold_left (search_memory (query state)) active [] in
    let retrieved_chunks := sort_desc retrieved_chunks in
    let context_texts := map text (firstn 5 retrieved_chunks) in
    set_status (lit "context_retrieved")
      (set_context context_texts
         (set_retrieved_chunks (firstn 10 retrieved_chunks) state)).

(** *** Context assembly *)

(** [f"{score:.3f}"]: NaN and the infinities have texts of their own. *)
Definition fmt_score (E : Env) (decimals : nat) (x : pyfloat) : str :=
  match x with
  | Finite q => fmt_float E decimals q
  | NegInf => lit "-inf"
  | PosInf => lit "inf"
  | NaN => lit "nan"
  end.

Definition context_part (E : Env) (i : nat) (c : chunk) : str :=
  lit "[Context " ++ str_of_nat i ++ lit "] (Relevance: "
  ++ fmt_score E 3 (score c) ++ lit ", Source: " ++ source_memory c
  ++ lit ")" ++ nl ++ text c.

(** [enumerate(chunks, i)] mapped through [f]. *)
Fixpoint map_enumerate {A B} (f : nat -> A -> B) (i : nat) (l : list A)
    : list B :=
  match l with
  | [] => []
  | x :: t => f i x :: map_enumerate f (S i) t
  end.

Definition assemble_context_node (E : Env) (state : ConversationState)
    : ConversationState :=
  let chunks := retrieved_chunks state in
  if negb (truthy chunks) then
    set_status (lit "no_context") (set_context [] state)
  else
    let context_parts := map_enumerate (context_part E) 1 (firstn 5 chunks) in
    let assembled_context := join (nl ++ nl) context_parts in
    set_status (lit "context_assembled")
      (set_context [assembled_context] state).

(** *** Response generation *)

Definition no_context_prompt (query : str) : str :=
  lit "The user asked: " ++ dq ++ query ++ dq ++ nl ++ nl
  ++ lit "However, no relevant context was found in the knowledge base. Please provide a helpful response explaining that no relevant information was found and suggest how they might:"
  ++ nl ++ nl
  ++ lit "1. Add relevant documents to the knowledge base" ++ nl
  ++ lit "2. Refine their query to be more specific" ++ nl
  ++ lit "3. Use different keywords" ++ nl ++ nl
  ++ lit "Be polite and helpful.".

Definition context_prompt (query : str) (context : list str) : str :=
  let context_text := join (nl ++ nl) context in
  lit "Based on the following context from the knowledge base, please answer the user's question comprehensively and accurately."
  ++ nl ++ nl
  ++ lit "**Context:**" ++ nl
  ++ context_text ++ nl ++ nl
  ++ lit "**User Question:** " ++ dq ++ query ++ dq ++ nl ++ nl
  ++ lit "**Instructions:**" ++ nl
  ++ lit "- Provide a comprehensive answer based on the context provided" ++ nl
  ++ lit "- If the context doesn't fully answer the question, acknowledge this limitation" ++ nl
  ++ lit "- Use information only from the provided context" ++ nl
  ++ lit "- Be specific and cite relevant details from the context" ++ nl
  ++ lit "- If multiple sources provide different perspectives, mention this"
  ++ nl ++ nl
  ++ lit "Please provide your response:".

Definition response_prompt (state : ConversationState) : str :=
  if negb (truthy (context state)) then no_context_prompt (query state)
  else context_prompt (query state) (context state).

(** [messages.append(...)] writes into the list object that
    [state["messages"]] names; [messages + [...]] builds a new list. *)
Definition generate_response_node (E : Env) (h : heap)
    (state : ConversationState) : heap * ConversationState :=
  let messages_ref := messages state in
  let h1 :=
    store h messages_ref
      (deref h messages_ref ++ [HumanMessage (response_prompt state)]) in
  match llm_ainvoke E (deref h1 messages_ref) with
  | Ok answer =>
      let '(h2, extended) :=
        alloc h1 (deref h1 messages_ref ++ [AIMessage answer]) in
      (h2,
       set_status (lit "response_generated")
         (set_messages extended (set_response answer state)))
  | Raise e =>
      (h1,
       set_error_message e
         (set_status (lit "generation_error")
            (set_response (lit "❌ Error generating response: " ++ e)
               state)))
  end.

(** *** Memory management *)

(** One turn of the listing loop: an entry whose video file is missing
    is left out, one whose size cannot be read degrades. *)
Definition list_memory (E : Env) (storage_path : str)
    (memory_info : list str) (item : str * retriever) : list str :=
  let name := fst item in
  let video_path := path_join E storage_path (name ++ lit ".mp4") in
  if path_exists E video_path then
    match stat_size_mb E video_path with
    | Ok size_mb =>
        memory_info
        ++ [lit "• **" ++ name ++ lit "**: " ++ fmt_float E 1 size_mb
            ++ lit " MB"]
    | Raise _ =>
        memory_info ++ [lit "• **" ++ name ++ lit "**: (stats unavailable)"]
    end
  else memory_info.

Definition no_stores_response : str :=
  lit "📁 No memory stores currently loaded." ++ nl ++ nl
  ++ lit "💡 To get started:" ++ nl
  ++ lit "• Ingest documents with: `Add " ++ dq ++ lit "document.pdf" ++ dq
  ++ lit " to memory`".

(** The sum over the [.mp4] files of the storage directory. *)
Fixpoint total_size (E : Env) (video_files : list str) (total : Q)
    : result Q :=
  match video_files with
  | [] => Ok total
  | video_file :: more =>
      size <- stat_size_mb E video_file ;;
      total_size E more (total + size)%Q
  end.

Definition statistics_response (E : Env) (storage_path : str)
    (total_memories : nat) (total_size_mb : Q) : str :=
  lit "📊 **Memory Statistics:**" ++ nl ++ nl
  ++ lit "🎯 **Overview:**" ++ nl
  ++ lit "• Total memory stores: " ++ str_of_nat total_memories ++ nl
  ++ lit "• Total storage size: " ++ fmt_float E 1 total_size_mb
  ++ lit " MB" ++ nl
  ++ lit "• Storage location: " ++ storage_path ++ nl ++ nl
  ++ lit "💾 **Storage Efficiency:**" ++ nl
  ++ lit "• Video-based compression provides 10x efficiency vs traditional databases" ++ nl
  ++ lit "• Each memory can store millions of text chunks" ++ nl
  ++ lit "• Offline-first design - no internet required for search".

Definition help_response : str :=
  lit "🛠️ **Memory Management Commands:**" ++ nl ++ nl
  ++ lit "**View Information:**" ++ nl
  ++ lit "• `list memories` - Show active memory stores" ++ nl
  ++ lit "• `show statistics` - Display detailed statistics" ++ nl ++ nl
  ++ lit "**Usage:**" ++ nl
  ++ lit "• Ask questions to search across all loaded memories" ++ nl
  ++ lit "• Add documents with: `ingest " ++ dq ++ lit "file.pdf" ++ dq
  ++ lit "`" ++ nl ++ nl
  ++ lit "**Tips:**" ++ nl
  ++ lit "• Memories persist between sessions" ++ nl
  ++ lit "• Video files can be copied and shared" ++ nl
  ++ lit "• Search works across all loaded memories simultaneously".

(** The body of the [try] block: the response. *)
Definition manage_memory_body (E : Env) (active : dict retriever)
    (storage_path : str) (state : ConversationState) : result str :=
  let query := lower (query state) in
  if contains (lit "list") query || contains (lit "show") query then
    if truthy active then
      let memory_info := fold_left (list_memory E storage_path) active [] in
      Ok (lit "📁 **Active Memory Stores:**" ++ nl ++ join nl memory_info)
    else Ok no_stores_response
  else if contains (lit "stats") query || contains (lit "statistics") query
  then
    if truthy active then
      let total_memories := length active in
      total_size_mb <-
        (if path_exists E storage_path then
           video_files <- glob_mp4 E storage_path ;;
           total_size E video_files 0%Q
         else Ok 0%Q) ;;
      Ok (statistics_response E storage_path total_memories total_size_mb)
    else Ok (lit "📊 No memory statistics available - no memories loaded.")
  else Ok help_response.

Definition manage_memory_node (E : Env) (active : dict retriever)
    (storage_path : str) (state : ConversationState) : ConversationState :=
  match manage_memory_body E active storage_path state with
  | Ok response =>
      set_status (lit "memory_managed") (set_response response state)
  | Raise e =>
      set_error_message e
        (set_status (lit "management_error")
           (set_response (lit "❌ Error in memory management: " ++ e) state))
  end.

(** *** The error handler *)

Definition error_responses : dict str :=
  [(lit "analysis_error",
    lit "❌ I encountered an error analyzing your query. Please try rephrasing your request.");
   (lit "ingestion_error",
    lit "❌ There was an error processing your documents. Please check the file paths and formats.");
   (lit "retrieval_error",
    lit "❌ I couldn't search the knowledge base properly. Please try a different query.");
   (lit "generation_error",
    lit "❌ I encountered an error generating a response. Please try again.");
   (lit "no_memories",
    lit "💡 No memory stores are currently loaded. Please ingest some documents first using: `Add "
    ++ dq ++ lit "document.pdf" ++ dq ++ lit " to memory`");
   (lit "no_context",
    lit "🔍 No relevant information found for your query. Try:" ++ nl
    ++ lit "• Using different keywords" ++ nl
    ++ lit "• Adding relevant documents to memory" ++ nl
    ++ lit "• Being more specific in your question")].

Definition unexpected_error_response : str :=
  lit "❌ An unexpected error occurred. Please try again.".

Definition handle_errors_node (state : ConversationState)
    : ConversationState :=
  let status := processing_status state in
  let base_response :=
    match dict_get error_responses (split_head ":" status) with
    | Some r => r
    | None => unexpected_error_response
    end in
  let response :=
    if truthy_opt (error_message state)
       && contains (lit "debug") (lower (query state))
    then
      base_response ++ nl ++ nl ++ lit "**Debug info:** "
      ++ match error_message state with Some e => e | None => [] end
    else base_response in
  set_status (lit "error_handled") (set_response response state).

End Nodes.
Export Nodes.

(* ================================================================= *)
(** ** [agent.py]: the graph and the entry point *)

Module Agent.

Inductive node : Type :=
| query_analyzer
| document_ingestor
| semantic_retriever
| context_assembler
| response_generator
| memory_manager
| error_handler.

Inductive target : Type :=
| Goto (n : node)
| END.

(** The mapping given to [add_conditional_edges]. *)
Definition conditional_edges : dict node :=
  [(lit "document_ingestor", document_ingestor);
   (lit "semantic_retriever", semantic_retriever);
   (lit "memory_manager", memory_manager);
   (lit "error_handler", error_handler)].

(** The edges of [_build_graph]; a route outside the mapping is an
    error of the graph library. *)
Definition edge (n : node) (state : ConversationState) : result target :=
  match n with
  | query_analyzer =>
      match dict_get conditional_edges (route_query state) with
      | Some m => Ok (Goto m)
      | None => Raise (lit "unknown route: " ++ route_query state)
      end
  | document_ingestor => Ok END
  | semantic_retriever => Ok (Goto context_assembler)
  | context_assembler => Ok (Goto response_generator)
  | response_generator => Ok END
  | memory_manager => Ok END
  | error_handler => Ok END
  end.

(** [_wrap_ingest_documents]: a produced memory is loaded and
    registered; a load failure is logged. *)
Definition wrap_ingest_documents (E : Env) (storage_path : str)
    (w : World) (state : ConversationState) : World * ConversationState :=
  let result := ingest_documents_node E storage_path state in
  match memory_paths result with
  | Some paths =>
      match load_retriever E (md_video paths) (md_index paths) with
      | Ok retriever =>
          (set_active_memories
             (dict_set (active_memories w) (md_name paths) retriever) w,
           result)
      | Raise _ => (w, result)
      end
  | None => (w, result)
  end.

(** The node functions with their dependencies injected. *)
Definition run_node (E : Env) (storage_path : str) (n : node)
    (w : World) (state : ConversationState) : World * ConversationState :=
  match n with
  | query_analyzer => (w, analyze_query_node state)
  | document_ingestor => wrap_ingest_documents E storage_path w state
  | semantic_retriever => (w, retrieve_context_node (active_memories w) state)
  | context_assembler => (w, assemble_context_node E state)
  | response_generator =>
      let '(h, state') := generate_response_node E (objects w) state in
      (set_objects h w, state')
  | memory_manager =>
      (w, manage_memory_node E (active_memories w) storage_path state)
  | error_handler => (w, handle_errors_node state)
  end.

(** What a run leaves behind: the world, the nodes that ran with the
    status each one left, and the final state or the error raised. *)
Record run_result : Type := {
  world_after : World;
  visited : list (node * str);
  outcome : result ConversationState
}.

(** The compiled graph runs one node per step and gives up after
    [limit] steps. *)
Fixpoint run (E : Env) (storage_path : str) (limit : nat) (n : node)
    (w : World) (state : ConversationState) (seen : list (node * str))
    : run_result :=
  match limit with
  | 0 =>
      {| world_after := w; visited := seen;
         outcome := Raise (lit "Recursion limit reached") |}
  | S limit' =>
      let '(w', state') := run_node E storage_path n w state in
      let seen' := seen ++ [(n, processing_status state')] in
      match edge n state' with
      | Ok END =>
          {| world_after := w'; visited := seen'; outcome := Ok state' |}
      | Ok (Goto m) => run E storage_path limit' m w' state' seen'
      | Raise e =>
          {| world_after := w'; visited := seen'; outcome := Raise e |}
      end
  end.

Definition recursion_limit : nat := 25.

(** [self.app.ainvoke(initial_state)] *)
Definition ainvoke (E : Env) (storage_path : str) (w : World)
    (initial_state : ConversationState) : run_result :=
  run E storage_path recursion_limit query_analyzer w initial_state [].

Definition initial_state (messages_ref : loc) (user_input session_id : str)
    : ConversationState :=
  {| messages := messages_ref;
     query := user_input;
     context := [];
     retrieved_chunks := [];
     response := [];
     intent := [];
     processing_status := lit "initialized";
     session_id := session_id;
     memory_paths := None;
     error_message := None |}.

(** The session of [session_id], created on first sight. *)
Definition open_session (w : World) (session_id : str) : World * loc :=
  match dict_get (session_data w) session_id with
  | Some l => (w, l)
  | None =>
      let '(h, l) := alloc (objects w) [] in
      (set_session_data (dict_set (session_data w) session_id l)
         (set_objects h w),
       l)
  end.

(** [MemvidRAGAgent.query]: the world after the call, the run, and the
    text returned. *)
Definition query_run (E : Env) (storage_path : str) (w : World)
    (user_input session_id : str) : World * run_result * str :=
  let '(w1, messages_ref) := open_session w session_id in
  let r :=
    ainvoke E storage_path w1 (initial_state messages_ref user_input session_id) in
  match outcome r with
  | Ok result =>
      (set_session_data
         (dict_set (session_data (world_after r)) session_id (messages result))
         (world_after r),
       r, response result)
  | Raise e =>
      (world_after r, r, lit "❌ Error processing query: " ++ e)
  end.

(** [query] proper (the name [query] is taken by the state field). *)
Definition agent_query (E : Env) (storage_path : str) (w : World)
    (user_input session_id : str) : World * str :=
  let '(w', _, answer) := query_run E storage_path w user_input session_id in
  (w', answer).

(** The request that [ingest_documents] builds from a list of paths. *)
Definition quote_paths (document_paths : list str) : str :=
  join (lit ", ") (map (fun path => dq ++ path ++ dq) document_paths).

Definition ingest_request (document_paths : list str) : str :=
  lit "Please ingest these documents: " ++ quote_paths document_paths.

End Agent.
Export Agent.

(* ================================================================= *)
(** ** A small concrete environment, used to run the model *)

Module Demo.

(** The part of a path after its last [/]. *)
Fixpoint base_name (p : str) (acc : str) : str :=
  match p with
  | [] => acc
  | c :: t => if Ascii.eqb c "/" then base_name t [] else base_name t (acc ++ [c])
  end.

(** The position of the last dot of a name, if any. *)
Fixpoint last_dot (s : str) (i : nat) (found : option nat) : option nat :=
  match s with
  | [] => found
  | c :: t => last_dot t (S i) (if Ascii.eqb c "." then Some i else found)
  end.

Definition suffix_of (p : str) : str :=
  let name := base_name p [] in
  match last_dot name 0 None with
  | Some (S i) => skipn (S i) name
  | _ => []
  end.

Definition stem_of (p : str) : str :=
  let name := base_name p [] in
  match last_dot name 0 None with
  | Some (S i) => firstn (S i) name
  | _ => name
  end.

(** Files with their text; one chunk per non-empty text; a model that
    answers [llm]. *)
Definition env (files : dict str) (llm : list message -> result str) : Env :=
  {| path_str := fun p => p;
     path_suffix := suffix_of;
     path_stem := stem_of;
     path_name := fun p => base_name p [];
     path_join := fun d n => d ++ lit "/" ++ n;
     path_exists := fun p => is_some (dict_get files p);
     path_is_dir := fun _ => false;
     path_is_file := fun p => is_some (dict_get files p);
     iterdir := fun _ => Ok [];
     glob_mp4 := fun _ => Ok [];
     mkdir := fun _ => Ok tt;
     stat_size_mb := fun _ => Ok 1%Q;
     read_text := fun p =>
       match dict_get files p with
       | Some content => Ok content
       | None => Raise (lit "No such file")
       end;
     now_stamp := lit "20240101_000000";
     fmt_float := fun _ _ => lit "1.0";
     encoder_new := Ok tt;
     add_pdf := fun _ => Ok [];
     add_epub := fun _ => Ok [];
     add_text := fun content _ =>
       Ok (if truthy content then [content] else []);
     build_video := fun _ _ _ => Ok tt;
     load_retriever := fun _ _ => Ok (fun _ _ => Ok []);
     llm_ainvoke := llm |}.

Definition empty_world : World :=
  {| objects := []; active_memories := []; session_data := [] |}.

Definition storage : str := lit "memories".

Definition answering (answer : string) : list message -> result str :=
  fun _ => Ok (lit answer).

Definition failing (e : string) : list message -> result str :=
  fun _ => Raise (lit e).

(** A retriever with a fixed answer, and one that always raises. *)
Definition fixed_retriever (results : list (str * pyfloat)) : retriever :=
  fun _ _ => Ok results.

Definition broken_retriever : retriever :=
  fun _ _ => Raise (lit "index unreadable").

End Demo.

(* ================================================================= *)
(** ** The vocabulary of the properties *)

Module Props.

Definition within (n : nat) (hi : option nat) : Prop :=
  match hi with
  | None => True
  | Some h => n <= h
  end.

(** An utterance with a quoted token that ends in a dot and two to
    four letters, the way the specification words it: nothing is asked
    of what stands between the quote and the dot. *)
Definition holds_quoted_token (query : str) : Prop :=
  exists q pre body ext post,
    (q = dquote \/ q = squote) /\
    Forall (fun c => c <> q) body /\
    Forall (fun c => is_letter c = true) ext /\ 2 <= length ext <= 4 /\
    query = pre ++ [q] ++ body ++ lit "." ++ ext ++ [q] ++ post.

(** The shape of what a quoted pattern captures. *)
Definition dotted (g : str) : Prop :=
  exists body ext,
    g = body ++ "."%char :: ext /\ body <> [] /\
    forallb is_letter ext = true /\ 2 <= length ext <= 4.

(** [requote q paths]: every path between two [q], joined by a comma
    and a blank, the way [ingest_documents] writes its request. *)
Definition requote (q : ascii) (paths : list str) : str :=
  join (lit ", ") (map (fun path => [q] ++ path ++ [q]) paths).

(** A path that can be quoted with [q] and found again. *)
Definition quotable (q : ascii) (p : str) : Prop :=
  dotted p /\ forallb (not_chr q) p = true.

(** Re-extraction from the re-quoted output gives the same set. *)
Definition reextract_stable (q : ascii) (query : str) : Prop :=
  forall x,
    In x (extract_document_paths (requote q (extract_document_paths query)))
    <-> In x (extract_document_paths query).

(** A path with a stem, a dot and a two to four letter extension that
    holds no quote character of either style. *)
Definition plain_path (p : str) : Prop :=
  dotted p /\ Forall (fun c => c <> dquote /\ c <> squote) p.

(** An input is accepted when it exists and its extension is supported. *)
Definition is_valid (E : Env) (path : str) : bool :=
  path_exists E path &&
  mem_str (lower (path_suffix E path)) supported_extensions.

(** What a rejected input contributes. *)
Definition invalid_entry (E : Env) (path : str) : str :=
  if path_exists E path then path ++ unsupported_tag
  else path ++ not_found_tag.

(** The partition the way the specification words it: the two output
    lists together hold exactly the inputs, no entry is in both, and
    neither list repeats an entry. *)
Definition exact_partition (paths : list str) (v : validation) : Prop :=
  (forall p, In p paths <-> In p (valid v) \/ In p (invalid v)) /\
  (forall p, ~ (In p (valid v) /\ In p (invalid v))) /\
  NoDup (valid v) /\ NoDup (invalid v).

(** What one registered memory contributes: its results, tagged; a
    search that raises contributes nothing. *)
Definition source_chunks (query : str) (item : str * retriever)
    : list chunk :=
  match snd item query 5 with
  | Ok results => tag_results 0 (fst item) results
  | Raise _ => []
  end.

(** All contributions, in registry order and, within a source, in the
    order of its results. *)
Definition merged_chunks (query : str) (active : dict retriever)
    : list chunk :=
  flat_map (source_chunks query) active.

(** [a == b] and [a <= b] on floats: false as soon as one side is NaN. *)
Definition float_eqb (a b : pyfloat) : bool :=
  match a, b with
  | NegInf, NegInf => true
  | Finite x, Finite y => Qeq_bool x y
  | PosInf, PosInf => true
  | _, _ => false
  end.

Definition float_le (a b : pyfloat) : bool :=
  float_lt a b || float_eqb a b.

Definition is_nan (a : pyfloat) : bool :=
  match a with NaN => true | _ => false end.

Definition has_score (s : pyfloat) (c : chunk) : bool :=
  float_eqb (score c) s.

(** No chunk comes before one of a greater score: every chunk has at
    least the score of each later one. *)
Definition descending : list chunk -> Prop :=
  StronglySorted (fun a b => float_le (score b) (score a) = true).

(** The node stores the first ten chunks of a list that holds the
    merged chunks in descending order of score. *)
Definition stored_descending (query : str) (active : dict retriever)
    (state' : ConversationState) : Prop :=
  exists ranked,
    Permutation (merged_chunks query active) ranked /\
    descending ranked /\
    retrieved_chunks state' = firstn 10 ranked.

(** No result of any source that answers has a NaN score. *)
Definition scores_ordered (query : str) (active : dict retriever) : Prop :=
  forall name r results txt sc,
    In (name, r) active -> r query 5 = Ok results ->
    In (txt, sc) results -> is_nan sc = false.

Definition fresh_encoder : encoding :=
  {| enc_chunks := []; enc_processed := 0; enc_failed := 0 |}.

(** The chunks the encoder holds after the loop over the valid paths
    of a request. *)
Definition request_chunks (E : Env) (state : ConversationState) : list str :=
  enc_chunks
    (fold_left (ingest_file E)
       (valid (validate_file_paths E (requested_paths E (query state))))
       fresh_encoder).

(** The run ends in status [no_memories]. *)
Definition ends_no_memories (r : run_result) : Prop :=
  exists final,
    outcome r = Ok final /\ processing_status final = lit "no_memories".

Definition turnless (n : node) : Prop :=
  n = document_ingestor \/ n = memory_manager \/ n = error_handler.

End Props.
Export Props.

(* ================================================================= *)
(** ** Concrete requests and environments *)

Module Scenarios.

Definition empty_file_env : Env :=
  Demo.env [(lit "a.txt", [])] (Demo.answering "unused").

Definition ingest_empty_file : ConversationState :=
  analyze_query_node
    (initial_state 0 (lit "Ingest " ++ dq ++ lit "a.txt" ++ dq) (lit "default")).

Definition failing_env : Env := Demo.env [] (Demo.failing "boom").

Definition first_question : ConversationState :=
  initial_state 0 (lit "What is machine learning?") (lit "default").

(** Three registered memories, the middle one unreadable. *)
Definition three_memories : dict retriever :=
  [(lit "a", Demo.fixed_retriever [(lit "x", Finite (9 # 10))]);
   (lit "b", Demo.broken_retriever);
   (lit "c", Demo.fixed_retriever [(lit "y", Finite (1 # 2))])].

(** Three memories, the middle one unreadable, with two results of
    the same score (written differently) and an infinite one. *)
Definition tied_memories : dict retriever :=
  [(lit "a",
    Demo.fixed_retriever
      [(lit "x", Finite (1 # 2)); (lit "y", Finite (3 # 4))]);
   (lit "b", Demo.broken_retriever);
   (lit "c",
    Demo.fixed_retriever
      [(lit "w", PosInf); (lit "z", Finite (2 # 4));
       (lit "v", Finite (1 # 4))])].

(** One memory whose second result has a NaN score. *)
Definition nan_memories : dict retriever :=
  [(lit "a",
    Demo.fixed_retriever
      [(lit "x", Finite (1 # 4)); (lit "y", NaN); (lit "z", Finite (3 # 4))])].

End Scenarios.
Export Scenarios.

(* ================================================================= *)
(** ** The rest of [tools.py] *)

Module MoreTools.

Definition size_units : list str := map lit ["B"; "KB"; "MB"; "GB"]%string.

(** The integer nearest to [a / d] for a positive [d]; of two that are
    equally near, the even one. *)
Definition nearest (a d : Z) : Z :=
  let q := (a / d)%Z in
  let r := (a mod d)%Z in
  if (2 * r <? d)%Z then q
  else if (d <? 2 * r)%Z then (q + 1)%Z
  else if Z.even q then q else (q + 1)%Z.

(** A number of tenths in decimal: 15 reads [1.5]. *)
Definition tenths_text (t : Z) : str :=
  str_of_nat (Z.to_nat (t / 10)) ++ lit "."
  ++ str_of_nat (Z.to_nat (t mod 10)).

(** [f"{x:.1f}"] for a float that holds [x] exactly: the sign, then
    the tenth nearest to the value, the even one in a tie. *)
Definition fmt_tenth (x : Q) : str :=
  (if (Qnum x <? 0)%Z then lit "-" else [])
  ++ tenths_text (nearest (10 * Z.abs (Qnum x)) (Z.pos (Qden x))).

(** The loop of [format_file_size] over the units that are left.  A
    size below 2^53 is a float without rounding, and so are its
    quotients by 1024. *)
Fixpoint format_size (units : list str) (size_bytes : Q) : str :=
  match units with
  | unit :: more =>
      if Qlt_bool size_bytes 1024 then
        fmt_tenth size_bytes ++ lit " " ++ unit
      else format_size more (size_bytes / 1024)%Q
  | [] => fmt_tenth size_bytes ++ lit " TB"
  end.

Definition format_file_size (size_bytes : Z) : str :=
  format_size size_units (inject_Z size_bytes).

End MoreTools.
Export MoreTools.

(* ================================================================= *)
(** ** [config.py] and the rest of [agent.py] *)

Module Setup.

(** The settings [Config] reads from the environment that the agent
    uses. *)
Record Config : Type := {
  OPENAI_API_KEY : str;
  ANTHROPIC_API_KEY : str;
  GOOGLE_API_KEY : str;
  MEMVID_STORAGE_PATH : str;
  DEFAULT_LLM_PROVIDER : str;
  DEFAULT_MODEL_NAME : str
}.

Definition validate_api_keys (config : Config) : dict bool :=
  [(lit "openai", truthy (OPENAI_API_KEY config));
   (lit "anthropic", truthy (ANTHROPIC_API_KEY config));
   (lit "google", truthy (GOOGLE_API_KEY config))].

Definition get_available_providers (config : Config) : list str :=
  map fst (filter snd (validate_api_keys config)).

(** [key_mapping.get(provider, "")] in [_get_api_key]. *)
Definition get_api_key (config : Config) (provider : str) : str :=
  match
    dict_get [(lit "openai", OPENAI_API_KEY config);
              (lit "anthropic", ANTHROPIC_API_KEY config);
              (lit "google", GOOGLE_API_KEY config)] provider
  with
  | Some key => key
  | None => []
  end.

(** [x or default] for an optional string argument. *)
Definition or_else (x : option str) (default : str) : str :=
  match x with
  | Some s => if truthy s then s else default
  | None => default
  end.

(** What [__init__] settles before it builds the model client. *)
Record llm_setup : Type := {
  llm_provider : str;
  api_key : str;
  model_name : str
}.

Definition no_keys_message : str :=
  lit "No valid API keys found. Please set API keys in .env file.".

(** The provider, key and model name [__init__] ends up with. *)
Definition choose_llm (config : Config)
    (llm_provider_arg api_key_arg model_name_arg : option str)
    : result llm_setup :=
  let provider := or_else llm_provider_arg (DEFAULT_LLM_PROVIDER config) in
  let key := or_else api_key_arg (get_api_key config provider) in
  let model := or_else model_name_arg (DEFAULT_MODEL_NAME config) in
  if negb (truthy key) then
    match get_available_providers config with
    | first :: _ =>
        Ok {| llm_provider := first;
              api_key := get_api_key config first;
              model_name := model |}
    | [] => Raise no_keys_message
    end
  else Ok {| llm_provider := provider; api_key := key; model_name := model |}.

(** The client [_initialize_llm] asks for: the class and the model. *)
Inductive llm_client : Type :=
| ChatOpenAI (key model : str)
| ChatAnthropic (key model : str)
| ChatGoogleGenerativeAI (key model : str).

Definition initialize_llm (key provider model : str) : result llm_client :=
  if str_eqb provider (lit "openai") then
    Ok (ChatOpenAI key (or_else (Some model) (lit "gpt-4-turbo-preview")))
  else if str_eqb provider (lit "anthropic") then
    Ok (ChatAnthropic key
          (or_else (Some model) (lit "claude-3-sonnet-20240229")))
  else if str_eqb provider (lit "google") then
    Ok (ChatGoogleGenerativeAI key
          (or_else (Some model) (lit "gemini-1.5-pro")))
  else Raise (lit "Unsupported LLM provider: " ++ provider).

(** The model-related part of [__init__]. *)
Definition setup_llm (config : Config)
    (llm_provider_arg api_key_arg model_name_arg : option str)
    : result (llm_setup * llm_client) :=
  setup <- choose_llm config llm_provider_arg api_key_arg model_name_arg ;;
  client <- initialize_llm (api_key setup) (llm_provider setup)
              (model_name setup) ;;
  Ok (setup, client).

(** One turn of the loop of [_load_existing_memories].  The video
    files come from a listing of the storage directory, so the index
    file next to a video file is a file of the storage directory. *)
Definition load_memory (E : Env) (storage_path : str)
    (acc : dict retriever * dict str) (video_file : str)
    : dict retriever * dict str :=
  let '(active, loaded_memories) := acc in
  let memory_name := path_stem E video_file in
  let index_file :=
    path_join E storage_path (memory_name ++ lit "_index.json") in
  if path_exists E index_file then
    match load_retriever E video_file index_file with
    | Ok retriever =>
        (dict_set active memory_name retriever,
         dict_set loaded_memories memory_name video_file)
    | Raise _ => acc
    end
  else acc.

(** [_load_existing_memories]: a failure of the listing is logged. *)
Definition load_existing_memories (E : Env) (storage_path : str) (w : World)
    : World * dict str :=
  match glob_mp4 E storage_path with
  | Ok video_files =>
      let '(active, loaded_memories) :=
        fold_left (load_memory E storage_path) video_files
          (active_memories w, []) in
      (set_active_memories active w, loaded_memories)
  | Raise _ => (w, [])
  end.

Definition reload_memories (E : Env) (storage_path : str) (w : World)
    : World * dict str :=
  load_existing_memories E storage_path (set_active_memories [] w).

Definition list_memories (w : World) : list str :=
  map fst (active_memories w).

End Setup.
Export Setup.

(* ================================================================= *)
(** ** More vocabulary *)

Module MoreProps.

(** A file name with an extension: anything, a dot, two to four
    letters. *)
Definition has_extension (p : str) : Prop :=
  exists stem ext,
    p = stem ++ "."%char :: ext /\
    forallb is_letter ext = true /\ 2 <= length ext <= 4.

(** [any(fp in p.lower() for fp in false_positives)] *)
Definition url_like (p : str) : bool :=
  existsb (fun fp => contains fp (lower p)) false_positives.

(** The captures of the two quoted patterns. *)
Definition quoted_captures (query : str) : list str :=
  flat_map (fun pattern => findall pattern query) quoted_patterns.

(** The shape of what an unquoted pattern captures: path characters,
    a dot, two to four letters. *)
Definition bare (g : str) : Prop :=
  exists stem ext,
    g = stem ++ "."%char :: ext /\ stem <> [] /\
    forallb path_char stem = true /\
    forallb is_letter ext = true /\ 2 <= length ext <= 4.

(** Two underscores in a row somewhere in [s]. *)
Fixpoint doubled (s : str) : bool :=
  match s with
  | c1 :: t =>
      match t with
      | c2 :: _ => (Ascii.eqb c1 "_" && Ascii.eqb c2 "_") || doubled t
      | [] => false
      end
  | [] => false
  end.

(** [s] begins with an underscore. *)
Definition leading_underscore (s : str) : bool :=
  match s with
  | c :: _ => Ascii.eqb c "_"
  | [] => false
  end.

(** A name that is safe for a file: not empty, at most fifty
    characters, none of them reserved, no underscore in front and no
    two underscores in a row. *)
Definition legal_name (s : str) : Prop :=
  s <> [] /\ length s <= 50 /\
  forallb (fun c => negb (unsafe_char c)) s = true /\
  leading_underscore s = false /\ doubled s = false.

(** What one document adds to the encoder, or the failure of reading
    or adding it. *)
Definition added_chunks (E : Env) (doc_path : str) : result (list str) :=
  let suffix := lower (path_suffix E doc_path) in
  if str_eqb suffix (lit ".pdf") then add_pdf E doc_path
  else if str_eqb suffix (lit ".epub") then add_epub E doc_path
  else content <- read_text E doc_path ;;
       add_text E content (path_name E doc_path).

Definition raises {A} (r : result A) : bool :=
  match r with Ok _ => false | Raise _ => true end.

Definition chunks_or_none (r : result (list str)) : list str :=
  match r with Ok cs => cs | Raise _ => [] end.

(** The valid paths of the request of a state. *)
Definition request_valid_paths (E : Env) (state : ConversationState)
    : list str :=
  valid (validate_file_paths E (requested_paths E (query state))).

(** The descriptor an ingestion under [storage_path] produces. *)
Definition produced_memory (E : Env) (storage_path : str)
    (state : ConversationState) : memory_descr :=
  let memory_name := generate_memory_name E (request_valid_paths E state) in
  {| md_video := path_join E storage_path (memory_name ++ lit ".mp4");
     md_index := path_join E storage_path (memory_name ++ lit "_index.json");
     md_name := memory_name |}.

(** The blocks the assembler renders for a ranked list of chunks. *)
Definition context_blocks (E : Env) (ranked : list chunk) : list str :=
  map_enumerate (context_part E) 1 (firstn 5 ranked).

(** Every session refers to a list object that exists, and no two
    sessions share one. *)
Definition sessions_sound (w : World) : Prop :=
  (forall sid l,
      dict_get (session_data w) sid = Some l -> l < length (objects w)) /\
  (forall sid1 sid2 l,
      dict_get (session_data w) sid1 = Some l ->
      dict_get (session_data w) sid2 = Some l -> sid1 = sid2).

(** The prompt a question gets, given the registered memories. *)
Definition turn_prompt (E : Env) (w : World) (user_input : str) : str :=
  response_prompt
    (assemble_context_node E
       (retrieve_context_node (active_memories w)
          (analyze_query_node (initial_state 0 user_input [])))).

(** The video file of a registered memory is in the storage directory. *)
Definition video_exists (E : Env) (storage_path : str)
    (item : str * retriever) : bool :=
  path_exists E (path_join E storage_path (fst item ++ lit ".mp4")).

(** The line of the listing for a registered memory: its name with the
    size of its video file, or with the note that the size cannot be
    read. *)
Definition listing_line (E : Env) (storage_path : str)
    (item : str * retriever) : str :=
  lit "• **" ++ fst item ++ lit "**: "
  ++ match
       stat_size_mb E (path_join E storage_path (fst item ++ lit ".mp4"))
     with
     | Ok size_mb => fmt_float E 1 size_mb ++ lit " MB"
     | Raise _ => lit "(stats unavailable)"
     end.

(** The request asks for a listing. *)
Definition asks_listing (state : ConversationState) : bool :=
  contains (lit "list") (lower (query state))
  || contains (lit "show") (lower (query state)).

(** The fixed explanations of the error handler. *)
Definition error_explanations : list str :=
  map snd error_responses ++ [unexpected_error_response].

(** A video file of the storage directory whose index file exists and
    whose retriever loads. *)
Definition loads (E : Env) (storage_path : str) (video_file : str) : bool :=
  let index_file :=
    path_join E storage_path (path_stem E video_file ++ lit "_index.json") in
  path_exists E index_file
  && negb (raises (load_retriever E video_file index_file)).

(** [name] is the stem of a listed video file that loads. *)
Definition discovered (E : Env) (storage_path : str)
    (video_files : list str) (name : str) : Prop :=
  exists video_file,
    In video_file video_files /\ loads E storage_path video_file = true /\
    path_stem E video_file = name.

(** The providers [_initialize_llm] knows. *)
Definition supported_providers : list str :=
  [lit "openai"; lit "anthropic"; lit "google"].

(** The request asks for statistics. *)
Definition asks_statistics (state : ConversationState) : bool :=
  contains (lit "stats") (lower (query state))
  || contains (lit "statistics") (lower (query state)).

(** The storage directory exists and its listing, or the size of one
    of the listed video files, cannot be read. *)
Definition sizes_fail (E : Env) (storage_path : str) : bool :=
  path_exists E storage_path
  && match glob_mp4 E storage_path with
     | Ok video_files =>
         existsb (fun video_file => raises (stat_size_mb E video_file))
           video_files
     | Raise _ => true
     end.

End MoreProps.
Export MoreProps.

(* ================================================================= *)
(** ** More concrete requests and environments *)

Module MoreScenarios.

(** A request that quotes a file that does not exist. *)
Definition missing_file_request : ConversationState :=
  analyze_query_node
    (initial_state 0 (lit "Ingest " ++ dq ++ lit "missing.pdf" ++ dq)
       (lit "default")).

(** A storage with one readable text file. *)
Definition text_file_env : Env :=
  Demo.env [(lit "a.txt", lit "hello")] (Demo.answering "unused").

Definition ingest_text_file : ConversationState :=
  analyze_query_node
    (initial_state 0 (lit "Ingest " ++ dq ++ lit "a.txt" ++ dq) (lit "default")).

(** The same storage, with a store that refuses to build the video. *)
Definition refusing_store_env : Env :=
  let E := text_file_env in
  {| path_str := path_str E; path_suffix := path_suffix E;
     path_stem := path_stem E; path_name := path_name E;
     path_join := path_join E; path_exists := path_exists E;
     path_is_dir := path_is_dir E; path_is_file := path_is_file E;
     iterdir := iterdir E; glob_mp4 := glob_mp4 E; mkdir := mkdir E;
     stat_size_mb := stat_size_mb E; read_text := read_text E;
     now_stamp := now_stamp E; fmt_float := fmt_float E;
     encoder_new := encoder_new E; add_pdf := add_pdf E;
     add_epub := add_epub E; add_text := add_text E;
     build_video := fun _ _ _ => Raise (lit "disk full");
     load_retriever := load_retriever E; llm_ainvoke := llm_ainvoke E |}.

(** A storage that holds the video files of the memories [a] and [b]
    but not of [c]; the size of the second file cannot be read. *)
Definition listing_env : Env :=
  let E :=
    Demo.env [(lit "memories/a.mp4", []); (lit "memories/b.mp4", [])]
      (Demo.answering "unused") in
  {| path_str := path_str E; path_suffix := path_suffix E;
     path_stem := path_stem E; path_name := path_name E;
     path_join := path_join E; path_exists := path_exists E;
     path_is_dir := path_is_dir E; path_is_file := path_is_file E;
     iterdir := iterdir E; glob_mp4 := glob_mp4 E; mkdir := mkdir E;
     stat_size_mb := fun p =>
       if str_eqb p (lit "memories/b.mp4")
       then Raise (lit "Permission denied")
       else Ok (3 # 2);
     read_text := read_text E;
     now_stamp := now_stamp E; fmt_float := fun _ _ => lit "1.5";
     encoder_new := encoder_new E; add_pdf := add_pdf E;
     add_epub := add_epub E; add_text := add_text E;
     build_video := build_video E;
     load_retriever := load_retriever E; llm_ainvoke := llm_ainvoke E |}.

Definition list_request : ConversationState :=
  analyze_query_node (initial_state 0 (lit "list memories") (lit "default")).

End MoreScenarios.
Export MoreScenarios.

(* ================================================================= *)
(** ** Facts about the matcher *)

Module ReFacts.

(** A successful repetition took some prefix of class characters and
    handed the remainder to its continuation. *)
Lemma rep_sound (p : ascii -> bool) lo hi k :
  forall s n seen cs r,
    rep p lo hi k n seen cs s = Some r ->
    exists s1 s2,
      s = s1 ++ s2 /\ forallb p s1 = true /\ lo <= n + length s1 /\
      k (MState (rev s1 ++ seen) s2 cs) = Some r.
Proof.
  induction s as [|c t IH]; simpl; intros n seen cs r H.
  - destruct (lo <=? n) eqn:Hlo; [|discriminate].
    exists [], []. apply Nat.leb_le in Hlo. simpl. repeat split; auto; lia.
  - destruct (p c && below n hi) eqn:Hc.
    + destruct (rep p lo hi k (S n) (c :: seen) cs t) eqn:Hr.
      * injection H as <-. apply IH in Hr.
        destruct Hr as (s1 & s2 & -> & Hp & Hn & Hk).
        exists (c :: s1), s2. apply andb_prop in Hc. simpl.
        rewrite <- app_assoc. simpl. repeat split; auto.
        -- now rewrite (proj1 Hc).
        -- lia.
      * destruct (lo <=? n) eqn:Hlo; [|discriminate].
        exists [], (c :: t). apply Nat.leb_le in Hlo. simpl.
        repeat split; auto; lia.
    + destruct (lo <=? n) eqn:Hlo; [|discriminate].
      exists [], (c :: t). apply Nat.leb_le in Hlo. simpl.
      repeat split; auto; lia.
Qed.

Lemma below_within n m hi : within (n + S m) hi -> below n hi = true.
Proof.
  destruct hi as [h|]; simpl; auto. intros H. apply Nat.ltb_lt. lia.
Qed.

(** Backtracking is complete: if some admissible split lets the
    continuation succeed, the repetition succeeds. *)
Lemma rep_complete (p : ascii -> bool) lo hi k :
  forall s1 s2 n seen cs,
    forallb p s1 = true -> lo <= n + length s1 -> within (n + length s1) hi ->
    k (MState (rev s1 ++ seen) s2 cs) <> None ->
    rep p lo hi k n seen cs (s1 ++ s2) <> None.
Proof.
  induction s1 as [|a s1 IH]; simpl; intros s2 n seen cs Hp Hlo Hhi Hk.
  - assert (Hn : (lo <=? n) = true) by (apply Nat.leb_le; lia).
    destruct s2 as [|c t]; simpl; rewrite Hn; auto.
    destruct (p c && below n hi); auto.
    destruct (rep p lo hi k (S n) (c :: seen) cs t); auto. discriminate.
  - apply andb_prop in Hp. destruct Hp as [Ha Hp].
    rewrite Ha, (below_within n (length s1) hi Hhi). simpl.
    specialize (IH s2 (S n) (a :: seen) cs Hp).
    rewrite <- app_assoc in Hk. simpl in Hk.
    destruct (rep p lo hi k (S n) (a :: seen) cs (s1 ++ s2)).
    + discriminate.
    + exfalso. apply IH; auto; try lia.
      destruct hi; simpl in *; auto; lia.
Qed.

(** When the continuation fails after every non-empty run of class
    characters, the repetition stops where it stands. *)
Lemma rep_stop (p : ascii -> bool) lo hi k :
  forall s n seen cs,
    (forall d s', d <> [] -> s = d ++ s' -> forallb p d = true ->
                  k (MState (rev d ++ seen) s' cs) = None) ->
    rep p lo hi k n seen cs s =
    if lo <=? n then k (MState seen s cs) else None.
Proof.
  induction s as [|c t IH]; simpl; intros n seen cs H; auto.
  destruct (p c && below n hi) eqn:Hc; auto.
  apply andb_prop in Hc. destruct Hc as [Hc _].
  rewrite IH.
  - assert (Hk : k (MState (c :: seen) t cs) = None).
    { apply (H [c] t); simpl; auto; try discriminate. now rewrite Hc. }
    rewrite Hk. now destruct (lo <=? S n).
  - intros d s' Hd -> Hp.
    specialize (H (c :: d) s'). simpl in H. rewrite <- app_assoc in H.
    apply H; auto; try discriminate. now rewrite Hc.
Qed.

(** The greedy choice: the longest admissible split whose continuation
    succeeds decides the result. *)
Lemma rep_first (p : ascii -> bool) lo hi k :
  forall s1 s2 n seen cs r,
    forallb p s1 = true -> lo <= n + length s1 -> within (n + length s1) hi ->
    k (MState (rev s1 ++ seen) s2 cs) = Some r ->
    (forall d s', d <> [] -> s2 = d ++ s' -> forallb p d = true ->
                  k (MState (rev d ++ rev s1 ++ seen) s' cs) = None) ->
    rep p lo hi k n seen cs (s1 ++ s2) = Some r.
Proof.
  induction s1 as [|a s1 IH]; simpl; intros s2 n seen cs r Hp Hlo Hhi Hk Hno.
  - rewrite rep_stop; auto.
    assert (Hn : (lo <=? n) = true) by (apply Nat.leb_le; lia).
    now rewrite Hn.
  - apply andb_prop in Hp. destruct Hp as [Ha Hp].
    rewrite Ha, (below_within n (length s1) hi Hhi). simpl.
    rewrite <- app_assoc in Hk. simpl in Hk.
    rewrite (IH s2 (S n) (a :: seen) cs r); auto; try lia.
    + destruct hi; simpl in *; auto; lia.
    + intros d s' Hd Hs Hpd. specialize (Hno d s' Hd Hs Hpd).
      now rewrite <- app_assoc in Hno.
Qed.

(** A single literal character. *)
Lemma rmatch_one c k st :
  rmatch (one c) k st =
  match rest st with
  | x :: t =>
      if Ascii.eqb c x then k (MState (x :: consumed st) t (caps st))
      else None
  | [] => None
  end.
Proof.
  unfold one. simpl. destruct (rest st) as [|x t]; simpl; auto.
  destruct (Ascii.eqb c x); simpl; auto.
  destruct t as [|y t]; simpl.
  - now destruct (k _).
  - rewrite andb_false_r. now destruct (k _).
Qed.

Lemma firstn_length_app {A} (g l : list A) : firstn (length g) (g ++ l) = g.
Proof. induction g; simpl; congruence. Qed.

(** The text of a group is what was consumed inside it. *)
Lemma captured_app seen0 r0 c0 g r1 c1 :
  captured (MState seen0 r0 c0) (MState (g ++ seen0) r1 c1) = rev g.
Proof.
  unfold captured. simpl. rewrite length_app, Nat.add_sub.
  now rewrite firstn_length_app.
Qed.

(** The scan only reports anchored matches. *)
Lemma scan_In r : forall s skip seen m,
  In m (scan r skip seen s) ->
  exists seen' s', match_at r seen' s' = Some m.
Proof.
  induction s as [|c t IH]; intros skip seen m H; destruct skip; simpl in H.
  - destruct (match_at r seen []) eqn:Hm; simpl in H; [|tauto].
    destruct H as [<-|[]]. eauto.
  - tauto.
  - destruct (match_at r seen (c :: t)) eqn:Hm.
    + destruct H as [<-|H]; eauto.
    + eauto.
  - eauto.
Qed.

(** A position where the pattern matches makes the scan non-empty,
    whatever was matched before it. *)
Lemma scan_hit r : forall pre seen s,
  match_at r (rev pre ++ seen) s <> None ->
  scan r 0 seen (pre ++ s) <> [].
Proof.
  induction pre as [|c pre IH]; simpl; intros seen s H.
  - destruct s; simpl; destruct (match_at r seen _); try discriminate;
      now elim H.
  - destruct (match_at r seen (c :: pre ++ s)); [discriminate|].
    apply IH. now rewrite <- app_assoc in H.
Qed.

Lemma scan_skip r : forall a seen s,
  scan r (length a) seen (a ++ s) = scan r 0 (rev a ++ seen) s.
Proof.
  induction a as [|c a IH]; simpl; intros seen s; auto.
  rewrite IH. now rewrite <- app_assoc.
Qed.

Lemma scan_miss r seen c t :
  match_at r seen (c :: t) = None ->
  scan r 0 seen (c :: t) = scan r 0 (c :: seen) t.
Proof. intros H. simpl. now rewrite H. Qed.

End ReFacts.

(* ================================================================= *)
(** ** Facts about [utils/tools.py] *)

Module ToolsFacts.
Import ReFacts.

Ltac by_cases_on_char c :=
  destruct c as [[] [] [] [] [] [] [] []]; vm_compute; intuition congruence.

Lemma letter_not_space c : is_letter c = true -> is_space c = false.
Proof. by_cases_on_char c. Qed.

Lemma letter_not_dot c : is_letter c = true -> Ascii.eqb "." c = false.
Proof. by_cases_on_char c. Qed.

Lemma letter_not_quote c :
  is_letter c = true -> c <> dquote /\ c <> squote.
Proof. by_cases_on_char c. Qed.

Lemma dot_not_space : is_space "." = false.
Proof. reflexivity. Qed.

Lemma not_chr_true q c : not_chr q c = true <-> c <> q.
Proof.
  unfold not_chr. rewrite negb_true_iff. split.
  - intros H ->. now rewrite Ascii.eqb_refl in H.
  - intros H. now apply Ascii.eqb_neq.
Qed.

Lemma rep_sound_bounded (p : ascii -> bool) lo h k :
  forall s n seen cs r,
    rep p lo (Some h) k n seen cs s = Some r -> n <= h ->
    exists s1 s2,
      s = s1 ++ s2 /\ forallb p s1 = true /\
      lo <= n + length s1 <= h /\
      k (MState (rev s1 ++ seen) s2 cs) = Some r.
Proof.
  induction s as [|c t IH]; simpl; intros n seen cs r H Hn.
  - destruct (lo <=? n) eqn:Hlo; [|discriminate].
    exists [], []. apply Nat.leb_le in Hlo. simpl. repeat split; auto; lia.
  - destruct (p c && (n <? h)) eqn:Hc.
    + apply andb_prop in Hc. destruct Hc as [Hc Hb]. apply Nat.ltb_lt in Hb.
      destruct (rep p lo (Some h) k (S n) (c :: seen) cs t) eqn:Hr.
      * injection H as <-. apply IH in Hr; [|lia].
        destruct Hr as (s1 & s2 & -> & Hp & Hb' & Hk).
        exists (c :: s1), s2. simpl. rewrite <- app_assoc. simpl.
        rewrite Hc. repeat split; auto; lia.
      * destruct (lo <=? n) eqn:Hlo; [|discriminate].
        exists [], (c :: t). apply Nat.leb_le in Hlo. simpl.
        repeat split; auto; lia.
    + destruct (lo <=? n) eqn:Hlo; [|discriminate].
      exists [], (c :: t). apply Nat.leb_le in Hlo. simpl.
      repeat split; auto; lia.
Qed.

(** Every match of a quoted pattern is a quote, a non-empty quote-free
    body, a dot, two to four letters and the quote again. *)
Lemma quoted_match_sound q seen s m :
  match_at (quoted_pattern q) seen s = Some m ->
  exists body ext post,
    s = q :: body ++ "."%char :: ext ++ q :: post /\
    body <> [] /\ forallb (not_chr q) body = true /\
    forallb is_letter ext = true /\ 2 <= length ext <= 4 /\
    m = MState (q :: rev ext ++ "."%char :: rev body ++ q :: seen) post
               [(1, body ++ "."%char :: ext)].
Proof.
  unfold match_at, quoted_pattern. cbn [cat fold_right rmatch].
  rewrite rmatch_one. cbn [rest consumed caps].
  destruct s as [|x t]; [discriminate|].
  destruct (Ascii.eqb q x) eqn:Hq; [|discriminate].
  apply Ascii.eqb_eq in Hq. subst x.
  unfold plus at 1. cbn [rmatch rest consumed caps]. intros H.
  apply rep_sound in H. destruct H as (body & s2 & -> & Hbody & Hlen & H).
  rewrite rmatch_one in H. cbn [rest consumed caps] in H.
  destruct s2 as [|x s2]; [discriminate|].
  destruct (Ascii.eqb "." x) eqn:Hdot; [|discriminate].
  apply Ascii.eqb_eq in Hdot. subst x.
  unfold extension in H. cbn [rmatch rest consumed caps] in H.
  apply rep_sound_bounded in H; [|lia].
  destruct H as (ext & s3 & -> & Hext & Hlen' & H).
  cbn [rmatch rest consumed caps] in H.
  rewrite rmatch_one in H. cbn [rest consumed caps] in H.
  destruct s3 as [|x post]; [discriminate|].
  destruct (Ascii.eqb q x) eqn:Hq; [|discriminate].
  apply Ascii.eqb_eq in Hq. subst x.
  injection H as <-.
  exists body, ext, post. repeat split; auto; try lia.
  - intros ->. simpl in Hlen. lia.
  - f_equal. f_equal. f_equal.
    replace (rev ext ++ "."%char :: rev body ++ q :: seen)
      with ((rev ext ++ "."%char :: rev body) ++ q :: seen)
      by (rewrite <- app_assoc; reflexivity).
    rewrite captured_app, rev_app_distr. simpl.
    now rewrite !rev_involutive, <- app_assoc.
Qed.

(** In [ext ++ q :: post], a character reached through characters
    other than [q] is [q] itself or belongs to [ext]. *)
Lemma next_after_run q : forall ext post d x t,
  ext ++ q :: post = d ++ x :: t ->
  forallb (not_chr q) d = true ->
  x = q \/ In x ext.
Proof.
  induction ext as [|e ext IH]; simpl; intros post d x t H Hd.
  - destruct d as [|y d]; simpl in *.
    + left. congruence.
    + injection H as <- _. apply andb_prop in Hd. destruct Hd as [Hy _].
      apply not_chr_true in Hy. congruence.
  - destruct d as [|y d]; simpl in *.
    + right. left. congruence.
    + injection H as _ H. apply andb_prop in Hd. destruct Hd as [_ Hd].
      destruct (IH _ _ _ _ H Hd); auto.
Qed.

(** At a quote that opens a well-formed token the quoted pattern
    matches, and it captures exactly the token. *)
Lemma quoted_match_exact q seen body ext post :
  is_letter q = false -> q <> "."%char ->
  body <> [] -> forallb (not_chr q) body = true ->
  forallb is_letter ext = true -> 2 <= length ext <= 4 ->
  match_at (quoted_pattern q) seen (q :: body ++ "."%char :: ext ++ q :: post)
  = Some (MState (q :: rev ext ++ "."%char :: rev body ++ q :: seen) post
                 [(1, body ++ "."%char :: ext)]).
Proof.
  intros Hq Hqdot Hne Hbody Hext Hlen.
  unfold match_at, quoted_pattern. cbn [cat fold_right rmatch].
  rewrite rmatch_one. cbn [rest consumed caps]. rewrite Ascii.eqb_refl.
  unfold plus at 1. cbn [rmatch rest consumed caps].
  apply rep_first; auto.
  - destruct body; [congruence|simpl; lia].
  - exact I.
  - rewrite rmatch_one. cbn [rest consumed caps]. rewrite Ascii.eqb_refl.
    unfold extension. cbn [rmatch rest consumed caps].
    apply rep_first; auto; try (simpl; lia).
    + cbn [rmatch rest consumed caps]. rewrite rmatch_one.
      cbn [rest consumed caps]. rewrite Ascii.eqb_refl. cbn [rmatch].
      f_equal. f_equal. f_equal.
      replace (rev ext ++ "."%char :: rev body ++ q :: seen)
        with ((rev ext ++ "."%char :: rev body) ++ q :: seen)
        by (rewrite <- app_assoc; reflexivity).
      rewrite captured_app, rev_app_distr. simpl.
      now rewrite !rev_involutive, <- app_assoc.
    + intros d s' Hd Hs Hp. destruct d as [|y d]; [congruence|].
      simpl in Hs, Hp. injection Hs as <- _.
      apply andb_prop in Hp. destruct Hp as [Hy _]. congruence.
  - intros d s' Hd Hs Hp. rewrite rmatch_one. cbn [rest consumed caps].
    destruct s' as [|x t]; auto.
    destruct d as [|y d]; [congruence|]. simpl in Hs, Hp.
    injection Hs as _ Hs. apply andb_prop in Hp. destruct Hp as [_ Hp].
    destruct (next_after_run q ext post d x t Hs Hp) as [->|Hin].
    + apply Ascii.eqb_neq in Hqdot. rewrite Ascii.eqb_sym. now rewrite Hqdot.
    + rewrite forallb_forall in Hext. now rewrite letter_not_dot; auto.
Qed.

(** *** Stripping *)

Lemma lstrip_app_stop p : forall body rest_,
  (exists c t, rest_ = c :: t /\ p c = false) ->
  exists body', lstrip_by p (body ++ rest_) = body' ++ rest_.
Proof.
  induction body as [|b body IH]; simpl; intros rest_ H.
  - destruct H as (c & t & -> & Hc). simpl. rewrite Hc. now exists [].
  - destruct (p b).
    + apply IH; auto.
    + now exists (b :: body).
Qed.

Lemma lstrip_head_stop p c t : p c = false -> lstrip_by p (c :: t) = c :: t.
Proof. intros H. simpl. now rewrite H. Qed.

Lemma rstrip_last_stop p s c : p c = false -> rstrip_by p (s ++ [c]) = s ++ [c].
Proof.
  intros H. unfold rstrip_by. rewrite rev_app_distr. simpl. rewrite H.
  change (c :: rev s) with (rev [c] ++ rev s).
  now rewrite <- rev_app_distr, rev_involutive.
Qed.

(** Stripping a dotted capture leaves at least the dot and the
    extension. *)
Lemma strip_dotted g :
  dotted g -> exists stem ext, strip g = stem ++ "."%char :: ext /\
                               forallb is_letter ext = true /\
                               2 <= length ext <= 4.
Proof.
  intros (body & ext & -> & _ & Hext & Hlen).
  destruct (lstrip_app_stop is_space body ("."%char :: ext)) as [stem Hs].
  { exists "."%char, ext. split; auto. }
  exists stem, ext. split; auto.
  unfold strip, strip_by. rewrite Hs.
  destruct (exists_last (l := ext)) as (ext' & z & ->).
  { intros ->. simpl in Hlen. lia. }
  replace (stem ++ "."%char :: ext' ++ [z])
    with ((stem ++ "."%char :: ext') ++ [z])
    by (rewrite <- app_assoc; reflexivity).
  apply rstrip_last_stop. apply letter_not_space.
  rewrite forallb_forall in Hext. apply Hext, in_or_app. right. now left.
Qed.

Lemma strip_dotted_kept g :
  dotted g ->
  truthy (strip g) && (1 <? length (strip g)) = true.
Proof.
  intros H. destruct (strip_dotted g H) as (stem & ext & -> & _ & Hlen).
  assert (Hl : 1 < length (stem ++ "."%char :: ext)).
  { rewrite length_app. simpl. lia. }
  apply Nat.ltb_lt in Hl. rewrite Hl.
  destruct stem; reflexivity.
Qed.

End ToolsFacts.

(* ================================================================= *)
(** ** Intent classification *)

Module IntentFacts.
Import ReFacts ToolsFacts.

Lemma findall_quoted_dotted q s g :
  In g (findall (quoted_pattern q) s) -> dotted g.
Proof.
  unfold findall. rewrite in_map_iff. intros (m & <- & Hm).
  apply scan_In in Hm. destruct Hm as (seen' & s' & Hm).
  apply quoted_match_sound in Hm.
  destruct Hm as (body & ext & post & _ & Hne & _ & Hext & Hlen & ->).
  exists body, ext. unfold group_text. simpl. auto.
Qed.

Lemma findall_quoted_hit q pre body ext post :
  is_letter q = false -> q <> "."%char ->
  body <> [] -> forallb (not_chr q) body = true ->
  forallb is_letter ext = true -> 2 <= length ext <= 4 ->
  findall (quoted_pattern q) (pre ++ q :: body ++ "."%char :: ext ++ q :: post)
  <> [].
Proof.
  intros Hq Hdot Hne Hbody Hext Hlen. unfold findall. intros H.
  apply map_eq_nil in H. revert H. apply scan_hit.
  now rewrite quoted_match_exact.
Qed.

Lemma quoted_paths_dotted query g :
  In g (flat_map (fun pattern => findall pattern query) quoted_patterns) ->
  dotted g.
Proof.
  unfold quoted_patterns. simpl. rewrite app_nil_r, in_app_iff.
  intros [H|H]; eapply findall_quoted_dotted; eauto.
Qed.

(** Cleaning keeps every capture of a quoted pattern. *)
Lemma clean_dotted paths :
  (forall g, In g paths -> dotted g) ->
  filter (fun cleaned_path =>
            truthy cleaned_path && (1 <? length cleaned_path))
         (map strip paths)
  = map strip paths.
Proof.
  induction paths as [|g paths IH]; simpl; intros H; auto.
  rewrite strip_dotted_kept by (apply H; now left).
  f_equal. apply IH. intros g' Hg'. apply H. now right.
Qed.

Lemma truthy_true {A} (l : list A) : l <> [] -> truthy l = true.
Proof. destruct l; simpl; congruence. Qed.

Lemma list_set_nonempty l : l <> [] -> list_set l <> [].
Proof.
  destruct l as [|x l]; [congruence|]. intros _ H.
  assert (Hin : In x (list_set (x :: l))) by (apply nodup_In; now left).
  rewrite H in Hin. exact Hin.
Qed.

(** A quoted, extension-suffixed token always yields a document path. *)
Lemma quoted_token_extracted q pre body ext post :
  q = dquote \/ q = squote ->
  body <> [] -> Forall (fun c => c <> q) body ->
  Forall (fun c => is_letter c = true) ext -> 2 <= length ext <= 4 ->
  extract_document_paths
    (pre ++ [q] ++ body ++ lit "." ++ ext ++ [q] ++ post) <> [].
Proof.
  intros Hq Hne Hbody Hext Hlen.
  assert (Hq1 : is_letter q = false) by (destruct Hq; subst; reflexivity).
  assert (Hq2 : q <> "."%char) by (destruct Hq; subst; discriminate).
  assert (Hbody' : forallb (not_chr q) body = true).
  { apply forallb_forall. intros c Hc. apply not_chr_true.
    rewrite Forall_forall in Hbody. auto. }
  assert (Hext' : forallb is_letter ext = true).
  { apply forallb_forall. rewrite Forall_forall in Hext. auto. }
  set (query := pre ++ [q] ++ body ++ lit "." ++ ext ++ [q] ++ post).
  assert (Hhit : flat_map (fun pattern => findall pattern query)
                   quoted_patterns <> []).
  { unfold quoted_patterns. simpl. rewrite app_nil_r. intros H.
    apply app_eq_nil in H. destruct H as [H1 H2].
    pose proof (findall_quoted_hit q pre body ext post Hq1 Hq2 Hne
                  Hbody' Hext' Hlen) as Hf.
    destruct Hq; subst q; auto. }
  unfold extract_document_paths. fold query.
  rewrite (truthy_true _ Hhit).
  rewrite clean_dotted by (apply quoted_paths_dotted).
  apply list_set_nonempty. intros H. apply map_eq_nil in H. auto.
Qed.

(** C7, amended.  An utterance that contains a quoted token made of a
    non-empty stem, a dot and a two to four letter extension is
    classified as [ingest], whatever else the utterance says: the path
    signal wins over management and search keywords. *)
Theorem quoted_path_means_ingest q pre body ext post :
  q = dquote \/ q = squote ->
  body <> [] -> Forall (fun c => c <> q) body ->
  Forall (fun c => is_letter c = true) ext -> 2 <= length ext <= 4 ->
  ii_intent (parse_query_intent
               (pre ++ [q] ++ body ++ lit "." ++ ext ++ [q] ++ post))
  = lit "ingest".
Proof.
  intros Hq Hne Hbody Hext Hlen.
  pose proof (quoted_token_extracted q pre body ext post Hq Hne Hbody
                Hext Hlen) as Hpaths.
  unfold parse_query_intent. cbn [ii_intent].
  rewrite (truthy_true _ Hpaths).
  now rewrite orb_true_r.
Qed.

Lemma quoted_path_means_ingest_witness :
  ii_intent (parse_query_intent
               (lit "list and show " ++ [dquote] ++ lit "a" ++ lit "."
                ++ lit "pdf" ++ [dquote] ++ lit " stats"))
  = lit "ingest".
Proof.
  apply (quoted_path_means_ingest dquote (lit "list and show ") (lit "a")
           (lit "pdf") (lit " stats")).
  - now left.
  - discriminate.
  - repeat constructor; discriminate.
  - repeat constructor.
  - simpl; lia.
Defined.

(** C7 as stated fails: the quoted patterns ask for a character
    between the quote and the dot, so a quoted bare extension is no
    path, and the management keyword decides. *)
Lemma bare_extension_not_ingest :
  let query := lit "list " ++ dq ++ lit ".txt" ++ dq in
  holds_quoted_token query /\
  extract_document_paths query = [] /\
  ii_intent (parse_query_intent query) = lit "manage".
Proof.
  split; [|split; vm_compute; reflexivity].
  exists dquote, (lit "list "), [], (lit "txt"), [].
  split; [now left|]. split; [constructor|].
  split; [repeat constructor|]. split; [simpl; lia|reflexivity].
Qed.

End IntentFacts.

(* ================================================================= *)
(** ** Re-extraction from re-quoted paths *)

Module RequoteFacts.
Import ReFacts ToolsFacts IntentFacts.

(** *** Stripping is idempotent *)

Lemma lstrip_stopped p s :
  lstrip_by p s = [] \/ exists c t, lstrip_by p s = c :: t /\ p c = false.
Proof.
  induction s as [|c t IH]; simpl; auto.
  destruct (p c) eqn:Hc; auto. right. eauto.
Qed.

Lemma lstrip_suffix p s : exists w, s = w ++ lstrip_by p s.
Proof.
  induction s as [|c t [w IH]]; simpl.
  - now exists [].
  - destruct (p c).
    + exists (c :: w). simpl. now f_equal.
    + now exists [].
Qed.

Lemma lstrip_fixed p s :
  (s = [] \/ exists c t, s = c :: t /\ p c = false) -> lstrip_by p s = s.
Proof.
  intros [->|(c & t & -> & Hc)]; simpl; auto. now rewrite Hc.
Qed.

Lemma strip_by_idempotent p s : strip_by p (strip_by p s) = strip_by p s.
Proof.
  unfold strip_by. set (u := lstrip_by p s). set (v := rstrip_by p u).
  assert (Hrev : rev v = lstrip_by p (rev u)).
  { unfold v, rstrip_by. now rewrite rev_involutive. }
  assert (Hl : lstrip_by p v = v).
  { apply lstrip_fixed. destruct v as [|c v'] eqn:Hv; auto. right.
    exists c, v'. split; auto.
    destruct (lstrip_suffix p (rev u)) as [w Hw].
    rewrite <- Hrev in Hw. apply (f_equal (@rev ascii)) in Hw.
    rewrite rev_involutive, rev_app_distr, rev_involutive in Hw.
    simpl in Hw.
    destruct (lstrip_stopped p s) as [H|(c' & t' & H & Hc')];
      fold u in H; rewrite H in Hw.
    - discriminate.
    - injection Hw as -> _. exact Hc'. }
  rewrite Hl. unfold rstrip_by at 1. rewrite Hrev.
  rewrite lstrip_fixed.
  - rewrite <- Hrev. apply rev_involutive.
  - destruct (lstrip_stopped p (rev u)) as [H|H]; auto.
Qed.

Lemma extracted_stripped query p :
  In p (extract_document_paths query) -> strip p = p.
Proof.
  unfold extract_document_paths, list_set. rewrite nodup_In, filter_In.
  intros [H _]. apply in_map_iff in H. destruct H as (g & <- & _).
  apply strip_by_idempotent.
Qed.

(** *** Scanning a list of quoted tokens *)

Lemma requote_dquote paths : requote dquote paths = quote_paths paths.
Proof. reflexivity. Qed.

Lemma quoted_miss q seen c t :
  c <> q -> match_at (quoted_pattern q) seen (c :: t) = None.
Proof.
  intros H. unfold match_at, quoted_pattern. cbn [cat fold_right rmatch].
  rewrite rmatch_one. cbn [rest]. apply Ascii.eqb_neq in H.
  rewrite Ascii.eqb_sym. now rewrite H.
Qed.

Lemma quoted_miss_nil q seen : match_at (quoted_pattern q) seen [] = None.
Proof.
  unfold match_at, quoted_pattern. cbn [cat fold_right rmatch].
  now rewrite rmatch_one.
Qed.

(** Without the quote character there is nothing to find. *)
Lemma scan_quoted_none q : forall s seen,
  forallb (not_chr q) s = true -> scan (quoted_pattern q) 0 seen s = [].
Proof.
  induction s as [|c t IH]; intros seen H.
  - cbn [scan]. now rewrite quoted_miss_nil.
  - simpl in H. apply andb_prop in H. destruct H as [Hc Ht].
    rewrite scan_miss by (apply quoted_miss; now apply not_chr_true).
    now apply IH.
Qed.

(** One quoted token at the head of the subject is found as it is, and
    the scan goes on behind its closing quote. *)
Lemma scan_quoted_token q seen p post :
  is_letter q = false -> q <> "."%char -> quotable q p ->
  exists m,
    group_text 1 m = p /\
    scan (quoted_pattern q) 0 seen (q :: p ++ q :: post)
    = m :: scan (quoted_pattern q) 0 (q :: rev p ++ q :: seen) post.
Proof.
  intros Hq Hdot [(body & ext & -> & Hne & Hext & Hlen) Hp].
  rewrite forallb_app in Hp. apply andb_prop in Hp. destruct Hp as [Hb _].
  eexists. split; cycle 1.
  - rewrite <- app_assoc. cbn [app scan].
    rewrite quoted_match_exact by auto.
    cbn [consumed]. f_equal.
    replace (length (q :: rev ext ++ "."%char :: rev body ++ q :: seen)
             - length seen - 1)
      with (length ((body ++ "."%char :: ext) ++ [q])).
    + replace (body ++ "."%char :: ext ++ q :: post)
        with (((body ++ "."%char :: ext) ++ [q]) ++ post)
        by (rewrite <- !app_assoc; reflexivity).
      rewrite scan_skip. f_equal.
      rewrite rev_app_distr. reflexivity.
    + cbn [length]. repeat (rewrite ?length_app, ?length_rev; cbn [length]).
      lia.
  - reflexivity.
Qed.

Lemma requote_one q p : requote q [p] = q :: p ++ [q].
Proof. reflexivity. Qed.

Lemma requote_more q p p' paths :
  requote q (p :: p' :: paths)
  = q :: p ++ q :: ","%char :: " "%char :: requote q (p' :: paths).
Proof.
  unfold requote. cbn [map join]. cbn [app]. f_equal.
  now rewrite <- app_assoc.
Qed.

Lemma findall_requote q :
  is_letter q = false -> q <> "."%char -> q <> ","%char -> q <> " "%char ->
  forall paths seen,
    Forall (quotable q) paths ->
    map (group_text 1) (scan (quoted_pattern q) 0 seen (requote q paths))
    = paths.
Proof.
  intros Hq Hdot Hcomma Hblank.
  induction paths as [|p paths IH]; intros seen H.
  - unfold requote. cbn [map join scan]. now rewrite quoted_miss_nil.
  - inversion H as [|? ? Hp Hrest]; subst.
    destruct paths as [|p' paths].
    + rewrite requote_one.
      destruct (scan_quoted_token q seen p [] Hq Hdot Hp) as (m & Hm & Hs).
      rewrite Hs. cbn [map scan].
      now rewrite Hm, quoted_miss_nil.
    + rewrite requote_more.
      destruct (scan_quoted_token q seen p
                  (","%char :: " "%char :: requote q (p' :: paths))
                  Hq Hdot Hp) as (m & Hm & Hs).
      rewrite Hs. cbn [map]. rewrite Hm. f_equal.
      rewrite scan_miss by (apply quoted_miss; congruence).
      rewrite scan_miss by (apply quoted_miss; congruence).
      apply (IH _ Hrest).
Qed.

End RequoteFacts.

Module RequoteTheorems.
Import ReFacts ToolsFacts IntentFacts RequoteFacts.

Lemma forallb_requote (f : ascii -> bool) q :
  f q = true -> f ","%char = true -> f " "%char = true ->
  forall paths,
    Forall (fun p => forallb f p = true) paths ->
    forallb f (requote q paths) = true.
Proof.
  intros Hq Hc Hb. induction paths as [|p paths IH]; intros H; auto.
  inversion H as [|? ? Hp Hrest]; subst.
  destruct paths as [|p' paths].
  - rewrite requote_one. cbn [forallb]. rewrite Hq, forallb_app, Hp.
    simpl. now rewrite Hq.
  - rewrite requote_more. cbn [forallb]. rewrite Hq, forallb_app, Hp.
    cbn [forallb andb]. rewrite Hq, Hc, Hb. cbn [andb]. now apply IH.
Qed.

Lemma plain_quotable q p :
  q = dquote \/ q = squote -> plain_path p -> quotable q p.
Proof.
  intros Hq [Hd Hp]. split; auto. apply forallb_forall. intros c Hc.
  apply not_chr_true. rewrite Forall_forall in Hp.
  destruct (Hp c Hc), Hq; congruence.
Qed.

Lemma plain_avoids q p :
  q = dquote \/ q = squote -> plain_path p -> forallb (not_chr q) p = true.
Proof. intros Hq Hp. now apply plain_quotable. Qed.

(** What the two quoted patterns find in a re-quoted list. *)
Lemma quoted_findall_requote q paths :
  q = dquote \/ q = squote -> Forall plain_path paths ->
  forall x,
    In x (flat_map (fun pattern => findall pattern (requote q paths))
            quoted_patterns)
    <-> In x paths.
Proof.
  intros Hq Hp x.
  assert (Hsame : findall (quoted_pattern q) (requote q paths) = paths).
  { apply findall_requote; try (destruct Hq; subst; (reflexivity || discriminate)).
    eapply Forall_impl; [|exact Hp]. intros p. now apply plain_quotable. }
  assert (Hother : forall q', (q' = dquote \/ q' = squote) -> q' <> q ->
                     findall (quoted_pattern q') (requote q paths) = []).
  { intros q' Hq' Hneq. unfold findall. rewrite scan_quoted_none; auto.
    apply forallb_requote.
    - apply not_chr_true. congruence.
    - destruct Hq'; subst; reflexivity.
    - destruct Hq'; subst; reflexivity.
    - eapply Forall_impl; [|exact Hp]. intros p. now apply plain_avoids. }
  unfold quoted_patterns. cbn [flat_map]. rewrite app_nil_r, in_app_iff.
  destruct Hq; subst q.
  - rewrite Hsame, (Hother squote); [simpl; tauto| now right | discriminate].
  - rewrite Hsame, (Hother dquote); [simpl; tauto| now left | discriminate].
Qed.

(** C9, amended.  When every extracted path is plain (a non-empty stem,
    a dot, a two to four letter extension, and no quote character),
    re-quoting the extracted paths with either quote and extracting
    again returns the same set of paths. *)
Theorem reextract_plain_paths q query :
  q = dquote \/ q = squote ->
  Forall plain_path (extract_document_paths query) ->
  reextract_stable q query.
Proof.
  intros Hq Hplain x.
  set (paths := extract_document_paths query) in *.
  assert (Hstrip : forall p, In p paths -> strip p = p)
    by (intros p Hp; now apply (extracted_stripped query)).
  clearbody paths.
  destruct paths as [|p0 paths0].
  { destruct Hq; subst q; vm_compute; tauto. }
  remember (p0 :: paths0) as paths eqn:Hshape.
  assert (Hne : paths <> []) by (subst paths; discriminate).
  clear Hshape.
  pose proof (quoted_findall_requote q paths Hq Hplain) as Hfind.
  unfold extract_document_paths.
  set (found := flat_map (fun pattern => findall pattern (requote q paths))
                  quoted_patterns) in *.
  assert (Hfound : found <> []).
  { destruct paths as [|p paths']; [congruence|].
    intros H. destruct (Hfind p) as [_ Hin]. rewrite H in Hin.
    apply Hin. now left. }
  rewrite (truthy_true _ Hfound).
  assert (Hdotted : forall g, In g found -> dotted g).
  { intros g Hg. apply Hfind in Hg. rewrite Forall_forall in Hplain.
    now destruct (Hplain g Hg). }
  rewrite clean_dotted by exact Hdotted.
  unfold list_set. rewrite nodup_In, in_map_iff. split.
  - intros (g & <- & Hg). apply Hfind in Hg. now rewrite Hstrip.
  - intros Hx. exists x. split; [now apply Hstrip | now apply Hfind].
Qed.

Lemma reextract_plain_paths_witness :
  reextract_stable dquote
    (lit "Ingest " ++ dq ++ lit "document.pdf" ++ dq ++ lit " and "
     ++ dq ++ lit "notes.txt" ++ dq).
Proof.
  apply reextract_plain_paths.
  - now left.
  - assert (E : extract_document_paths
                  (lit "Ingest " ++ dq ++ lit "document.pdf" ++ dq
                   ++ lit " and " ++ dq ++ lit "notes.txt" ++ dq)
                = [lit "document.pdf"; lit "notes.txt"])
      by (vm_compute; reflexivity).
    rewrite E. repeat constructor; try discriminate.
    + exists (lit "document"), (lit "pdf"). repeat split; simpl; try lia.
      discriminate.
    + exists (lit "notes"), (lit "txt"). repeat split; simpl; try lia.
      discriminate.
Defined.

(** C9 as stated fails: a single-quoted token may hold a double quote
    (and the other way round); once re-quoted, the inner quote ends the
    token early and another path comes back. *)
Lemma reextract_not_stable :
  ~ reextract_stable dquote ([squote] ++ lit "a" ++ dq ++ lit "b.txt" ++ [squote])
  /\ ~ reextract_stable squote (dq ++ lit "a" ++ [squote] ++ lit "b.txt" ++ dq).
Proof.
  split; intros H; specialize (H (lit "b.txt")); vm_compute in H;
    destruct H as [H _];
    destruct (H (or_introl eq_refl)) as [Heq|[]]; discriminate.
Qed.

(** A blank stem is the other way to lose a path: the stripped path is
    the bare extension, which no pattern matches. *)
Lemma reextract_blank_stem :
  ~ reextract_stable dquote (dq ++ lit " .txt" ++ dq).
Proof.
  intros H. specialize (H (lit ".txt")). vm_compute in H.
  destruct H as [_ H]. destruct (H (or_introl eq_refl)).
Qed.

End RequoteTheorems.

(* ================================================================= *)
(** ** Validation of paths *)

Module ValidateFacts.

Lemma validate_fold E : forall paths valid_paths invalid_paths,
  fold_left (validate_step E) paths (valid_paths, invalid_paths)
  = (valid_paths ++ map (path_str E) (filter (is_valid E) paths),
     invalid_paths
     ++ map (invalid_entry E) (filter (fun p => negb (is_valid E p)) paths)).
Proof.
  induction paths as [|p paths IH]; intros v i.
  - simpl. now rewrite !app_nil_r.
  - assert (Hstep : validate_step E (v, i) p
                    = if is_valid E p then (v ++ [path_str E p], i)
                      else (v, i ++ [invalid_entry E p])).
    { unfold validate_step, is_valid, invalid_entry.
      destruct (path_exists E p); simpl; auto. }
    cbn [fold_left filter]. rewrite Hstep.
    destruct (is_valid E p); cbn [negb map]; rewrite IH, <- app_assoc;
      reflexivity.
Qed.

Lemma tags_differ p p' : p ++ unsupported_tag <> p' ++ not_found_tag.
Proof.
  intros H. apply (f_equal (@rev ascii)) in H.
  rewrite !rev_app_distr in H. discriminate.
Qed.

Lemma invalid_entry_injective E p p' :
  invalid_entry E p = invalid_entry E p' -> p = p'.
Proof.
  unfold invalid_entry.
  destruct (path_exists E p), (path_exists E p'); intros H.
  - now apply app_inv_tail in H.
  - now apply tags_differ in H.
  - symmetry in H. now apply tags_differ in H.
  - now apply app_inv_tail in H.
Qed.

Lemma filter_split_length {A} (f : A -> bool) l :
  length (filter f l) + length (filter (fun x => negb (f x)) l) = length l.
Proof.
  induction l as [|x l IH]; simpl; auto.
  destruct (f x); simpl; lia.
Qed.

(** C8, amended.  [validate_file_paths] sends every input, in input
    order, to exactly one of the two lists: an input that exists with a
    supported extension contributes its normalised path to [valid], any
    other input contributes itself followed by the reason to [invalid].
    The two lists together have as many entries as the input, and
    distinct inputs give distinct [invalid] entries. *)
Theorem validate_partitions (E : Env) (paths : list str) :
  let v := validate_file_paths E paths in
  valid v = map (path_str E) (filter (is_valid E) paths) /\
  invalid v
  = map (invalid_entry E) (filter (fun p => negb (is_valid E p)) paths) /\
  length (valid v) + length (invalid v) = length paths /\
  (NoDup paths -> NoDup (invalid v)).
Proof.
  unfold validate_file_paths. rewrite validate_fold. simpl.
  repeat split.
  - rewrite !length_map. apply filter_split_length.
  - intros H. apply Finite.Injective_map_NoDup.
    + intros p p'. apply invalid_entry_injective.
    + now apply NoDup_filter.
Qed.

(** C8 as stated fails: a missing file is reported with a reason
    attached, so the input itself is in neither list, and an input
    given twice is reported twice. *)
Lemma validate_not_exact_partition :
  let E := Demo.env [] (Demo.answering "") in
  let paths := [lit "x.txt"; lit "x.txt"] in
  ~ exact_partition paths (validate_file_paths E paths).
Proof.
  intros E paths (_ & _ & _ & H). vm_compute in H.
  inversion H as [|? ? Hin _]. apply Hin. now left.
Qed.

End ValidateFacts.

(* ================================================================= *)
(** ** Retrieval: fan-out, merge and ranking *)

Module RetrievalFacts.

Lemma fan_out_fold query : forall active acc,
  fold_left (search_memory query) active acc
  = acc ++ merged_chunks query active.
Proof.
  induction active as [|[name r] active IH]; intros acc; simpl.
  - now rewrite app_nil_r.
  - rewrite IH. unfold source_chunks. simpl.
    destruct (r query 5); simpl; now rewrite <- ?app_assoc.
Qed.

(** *** The order of floats *)

Lemma Qlt_bool_true a b : Qlt_bool a b = true -> (a < b)%Q.
Proof.
  unfold Qlt_bool. rewrite negb_true_iff. intros H.
  apply Qnot_le_lt. intros Hle. apply Qle_bool_iff in Hle. congruence.
Qed.

Lemma Qlt_bool_false a b : Qlt_bool a b = false -> (b <= a)%Q.
Proof.
  unfold Qlt_bool. rewrite negb_false_iff. apply Qle_bool_iff.
Qed.

Lemma finite_le x y :
  float_le (Finite x) (Finite y) = true <-> (x <= y)%Q.
Proof.
  unfold float_le. cbn [float_lt float_eqb]. rewrite orb_true_iff. split.
  - intros [H|H].
    + apply Qlt_le_weak. now apply Qlt_bool_true.
    + apply Qeq_bool_iff in H. rewrite H. apply Qle_refl.
  - intros H. destruct (Qlt_bool x y) eqn:Hlt; auto. right.
    apply Qlt_bool_false in Hlt. apply Qeq_bool_iff. now apply Qle_antisym.
Qed.

Lemma float_lt_le a b : float_lt a b = true -> float_le a b = true.
Proof. unfold float_le. now intros ->. Qed.

(** Without NaN the order is total. *)
Lemma float_not_lt a b :
  is_nan a = false -> is_nan b = false ->
  float_lt a b = false -> float_le b a = true.
Proof.
  destruct a as [|x| |], b as [|y| |]; try discriminate; try reflexivity.
  intros _ _ H. apply finite_le. now apply Qlt_bool_false.
Qed.

Lemma float_le_trans a b c :
  float_le a b = true -> float_le b c = true -> float_le a c = true.
Proof.
  destruct a as [|x| |], b as [|y| |], c as [|z| |];
    try discriminate; try reflexivity.
  rewrite !finite_le. apply Qle_trans.
Qed.

(** Two floats that equal a third one are not apart. *)
Lemma float_lt_eqb a b s :
  float_lt a b = true -> float_eqb a s = true -> float_eqb b s = true ->
  False.
Proof.
  destruct a as [|x| |], b as [|y| |], s as [|z| |]; try discriminate.
  cbn [float_lt float_eqb]. intros Hlt Hx Hy.
  apply Qeq_bool_iff in Hx, Hy. apply Qlt_bool_true in Hlt.
  rewrite Hx, Hy in Hlt. now apply Qlt_irrefl in Hlt.
Qed.

(** *** The sort *)

Lemma insert_desc_perm x : forall l, Permutation (x :: l) (insert_desc x l).
Proof.
  induction l as [|y t IH]; simpl; auto.
  destruct (float_lt (score x) (score y)); auto.
  rewrite perm_swap. now constructor.
Qed.

Lemma sort_desc_perm : forall l, Permutation l (sort_desc l).
Proof.
  induction l as [|x l IH]; simpl; auto.
  rewrite <- insert_desc_perm. now constructor.
Qed.

Lemma insert_desc_descending x : forall l,
  is_nan (score x) = false ->
  Forall (fun c => is_nan (score c) = false) l ->
  descending l -> descending (insert_desc x l).
Proof.
  unfold descending.
  induction l as [|y t IH]; simpl; intros Hx Hl H.
  - repeat constructor.
  - inversion H as [|? ? Ht Hy]; subst.
    inversion Hl as [|? ? Hny Hnt]; subst.
    destruct (float_lt (score x) (score y)) eqn:Hlt.
    + constructor; auto.
      apply (Permutation_Forall (insert_desc_perm x t)).
      constructor; auto. now apply float_lt_le.
    + apply float_not_lt in Hlt; auto. constructor; auto.
      constructor; auto.
      eapply Forall_impl; [|exact Hy]. intros b Hb. simpl in Hb.
      now apply float_le_trans with (score y).
Qed.

Lemma sort_desc_descending : forall l,
  Forall (fun c => is_nan (score c) = false) l -> descending (sort_desc l).
Proof.
  induction l as [|x l IH]; simpl; intros H.
  - constructor.
  - inversion H; subst. apply insert_desc_descending; auto.
    now apply (Permutation_Forall (sort_desc_perm l)).
Qed.

(** Stability: the chunks of one score keep their relative order. *)
Lemma insert_desc_stable s x : forall l,
  filter (has_score s) (insert_desc x l) = filter (has_score s) (x :: l).
Proof.
  induction l as [|y t IH]; auto.
  cbn [insert_desc].
  destruct (float_lt (score x) (score y)) eqn:Hlt; auto.
  cbn [filter] in *. rewrite IH.
  destruct (has_score s x) eqn:Hx, (has_score s y) eqn:Hy; auto.
  exfalso. unfold has_score in *. exact (float_lt_eqb _ _ _ Hlt Hx Hy).
Qed.

Lemma sort_desc_stable s : forall l,
  filter (has_score s) (sort_desc l) = filter (has_score s) l.
Proof.
  induction l as [|x l IH]; auto.
  cbn [sort_desc fold_right]. fold (sort_desc l).
  rewrite insert_desc_stable. cbn [filter]. now rewrite IH.
Qed.

(** The tags: source name and rank, counted from one. *)
Lemma tag_results_In name c : forall results i,
  In c (tag_results i name results) <->
  exists j txt sc,
    nth_error results j = Some (txt, sc) /\ c = Chunk txt sc name (i + j + 1).
Proof.
  induction results as [|[t s] results IH]; intros i; simpl.
  - split; [tauto|]. intros (j & txt & sc & H & _). now destruct j.
  - rewrite IH. split.
    + intros [<-|(j & txt & sc & Hj & ->)].
      * exists 0, t, s. split; auto; try (f_equal; lia).
      * exists (S j), txt, sc. split; auto; try (f_equal; lia).
    + intros (j & txt & sc & Hj & ->). destruct j as [|j]; simpl in Hj.
      * left. injection Hj as -> ->. f_equal. lia.
      * right. exists j, txt, sc. split; auto; try (f_equal; lia).
Qed.

Lemma merged_chunks_In query active c :
  In c (merged_chunks query active) <->
  exists name r results j txt sc,
    In (name, r) active /\ r query 5 = Ok results /\
    nth_error results j = Some (txt, sc) /\ c = Chunk txt sc name (j + 1).
Proof.
  unfold merged_chunks. rewrite in_flat_map. split.
  - intros ([name r] & Hin & Hc). unfold source_chunks in Hc. simpl in Hc.
    destruct (r query 5) as [results|] eqn:Hr; [|destruct Hc].
    apply tag_results_In in Hc. destruct Hc as (j & txt & sc & Hj & ->).
    exists name, r, results, j, txt, sc. auto.
  - intros (name & r & results & j & txt & sc & Hin & Hr & Hj & ->).
    exists (name, r). split; auto. unfold source_chunks. simpl. rewrite Hr.
    apply tag_results_In. exists j, txt, sc. auto.
Qed.

Lemma merged_chunks_ordered query active :
  scores_ordered query active ->
  Forall (fun c => is_nan (score c) = false) (merged_chunks query active).
Proof.
  intros Hord. apply Forall_forall. intros c Hc.
  apply merged_chunks_In in Hc.
  destruct Hc as (name & r & results & j & txt & sc & Hin & Hr & Hj & ->).
  cbn [score]. apply (Hord name r results txt sc Hin Hr).
  now apply nth_error_In with j.
Qed.

Lemma retrieve_context_registered active state :
  active <> [] ->
  retrieve_context_node active state
  = set_status (lit "context_retrieved")
      (set_context
         (map text (firstn 5 (sort_desc (merged_chunks (query state) active))))
         (set_retrieved_chunks
            (firstn 10 (sort_desc (merged_chunks (query state) active)))
            state)).
Proof.
  intros H. unfold retrieve_context_node.
  destruct active; [congruence|]. cbn [truthy negb].
  now rewrite fan_out_fold.
Qed.

(** C5, amended.  When no source returns a NaN score, the chunks are
    tagged with their source and their rank in it (from one), the
    merged list is sorted by descending score with ties in their
    original order, at most ten chunks are kept, and the context is
    made of the first five. *)
Theorem retrieval_merge_ranked (active : dict retriever)
    (state : ConversationState) :
  scores_ordered (query state) active ->
  let all := merged_chunks (query state) active in
  let state' := retrieve_context_node active state in
  exists ranked,
    Permutation all ranked /\ descending ranked /\
    (forall s, filter (has_score s) ranked = filter (has_score s) all) /\
    retrieved_chunks state' = firstn 10 ranked /\
    length (retrieved_chunks state') <= 10 /\
    context state' = map text (firstn 5 ranked) /\
    length (context state') <= 5 /\
    firstn 5 (retrieved_chunks state') = firstn 5 ranked /\
    (forall c,
        In c all <->
        exists name r results j txt sc,
          In (name, r) active /\ r (query state) 5 = Ok results /\
          nth_error results j = Some (txt, sc) /\
          c = Chunk txt sc name (j + 1)).
Proof.
  intros Hord all state'.
  exists (sort_desc all).
  assert (Hst : retrieved_chunks state' = firstn 10 (sort_desc all) /\
                context state' = map text (firstn 5 (sort_desc all))).
  { unfold state'. destruct active as [|item active'] eqn:Ha.
    - now split.
    - rewrite retrieve_context_registered by discriminate. now split. }
  destruct Hst as [Hchunks Hcontext].
  split; [apply sort_desc_perm|].
  split; [apply sort_desc_descending; now apply merged_chunks_ordered|].
  split; [intros s; apply sort_desc_stable|].
  split; [exact Hchunks|].
  split; [rewrite Hchunks; apply firstn_le_length|].
  split; [exact Hcontext|].
  split; [rewrite Hcontext, length_map; apply firstn_le_length|].
  split; [rewrite Hchunks, firstn_firstn; reflexivity|].
  intros c. apply merged_chunks_In.
Qed.

Lemma retrieval_merge_ranked_witness :
  let all := merged_chunks (query first_question) tied_memories in
  let state' := retrieve_context_node tied_memories first_question in
  exists ranked,
    Permutation all ranked /\ descending ranked /\
    (forall s, filter (has_score s) ranked = filter (has_score s) all) /\
    retrieved_chunks state' = firstn 10 ranked /\
    length (retrieved_chunks state') <= 10 /\
    context state' = map text (firstn 5 ranked) /\
    length (context state') <= 5 /\
    firstn 5 (retrieved_chunks state') = firstn 5 ranked /\
    (forall c,
        In c all <->
        exists name r results j txt sc,
          In (name, r) tied_memories /\
          r (query first_question) 5 = Ok results /\
          nth_error results j = Some (txt, sc) /\
          c = Chunk txt sc name (j + 1)).
Proof.
  apply (retrieval_merge_ranked tied_memories first_question).
  intros name r results txt sc Hin Hr Hres.
  destruct Hin as [H|[H|[H|[]]]]; injection H as <- <-;
    try discriminate; injection Hr as <-;
    repeat (destruct Hres as [Hres|Hres];
            [injection Hres as <- <-; reflexivity|]);
    destruct Hres.
Defined.

(** What the node stores for the scenario: the two chunks of score
    one half keep the order of their sources, and the infinite score
    comes first. *)
Lemma tied_memories_ranking :
  retrieved_chunks (retrieve_context_node tied_memories first_question)
  = [Chunk (lit "w") PosInf (lit "c") 1;
     Chunk (lit "y") (Finite (3 # 4)) (lit "a") 2;
     Chunk (lit "x") (Finite (1 # 2)) (lit "a") 1;
     Chunk (lit "z") (Finite (2 # 4)) (lit "c") 2;
     Chunk (lit "v") (Finite (1 # 4)) (lit "c") 3].
Proof. vm_compute. reflexivity. Qed.

(** C5 as stated fails: a NaN score compares false with every score,
    the sort leaves the three chunks as they came, and the chunk of
    score one quarter stays in front of the one of score three
    quarters. *)
Lemma nan_score_breaks_ranking :
  let state' := retrieve_context_node nan_memories first_question in
  map score (retrieved_chunks state')
  = [Finite (1 # 4); NaN; Finite (3 # 4)] /\
  float_lt (Finite (1 # 4)) (Finite (3 # 4)) = true /\
  ~ stored_descending (query first_question) nan_memories state'.
Proof.
  split; [vm_compute; reflexivity|]. split; [reflexivity|].
  intros (ranked & Hperm & Hdesc & Hstored).
  assert (Hlen : length ranked = 3).
  { rewrite <- (Permutation_length Hperm). reflexivity. }
  rewrite firstn_all2 in Hstored by lia. subst ranked.
  vm_compute in Hdesc.
  inversion Hdesc as [|? ? _ Hlater]; subst.
  inversion Hlater as [|? ? _ Hlast]; subst.
  inversion Hlast as [|? ? Hz _]; subst.
  discriminate Hz.
Qed.



(** The scenario of the claim: of three memories the middle one
    raises, and the chunks of the other two are stored. *)
Lemma three_memories_stored :
  retrieved_chunks (retrieve_context_node three_memories first_question)
  = [Chunk (lit "x") (Finite (9 # 10)) (lit "a") 1;
     Chunk (lit "y") (Finite (1 # 2)) (lit "c") 1].
Proof. vm_compute. reflexivity. Qed.

End RetrievalFacts.

(* ================================================================= *)
(** ** The graph: which nodes run *)

Module GraphFacts.

Lemma intent_cases query :
  ii_intent (parse_query_intent query) = lit "ingest" \/
  ii_intent (parse_query_intent query) = lit "manage" \/
  ii_intent (parse_query_intent query) = lit "search" \/
  ii_intent (parse_query_intent query) = lit "chat".
Proof.
  unfold parse_query_intent. cbn [ii_intent].
  destruct (_ || _ || _); auto.
  destruct (any_in management_patterns _); auto.
  destruct (any_in search_patterns _); auto.
Qed.

Lemma analyzed_intent state :
  intent (analyze_query_node state)
  = ii_intent (parse_query_intent (query state)).
Proof. reflexivity. Qed.

(** The classifier never answers [error], so the router has three
    destinations. *)
Lemma route_cases state :
  let state' := analyze_query_node state in
  (intent state' = lit "ingest" /\
   route_query state' = lit "document_ingestor") \/
  (intent state' = lit "manage" /\
   route_query state' = lit "memory_manager") \/
  ((intent state' = lit "search" \/ intent state' = lit "chat") /\
   route_query state' = lit "semantic_retriever").
Proof.
  intros state'. unfold route_query.
  assert (Hi : intent state' = ii_intent (parse_query_intent (query state)))
    by reflexivity.
  rewrite Hi.
  destruct (intent_cases (query state)) as [H|[H|[H|H]]];
    rewrite H; vm_compute; auto.
Qed.

(** The three shapes of a run. *)
Lemma ainvoke_ingest E storage w state :
  route_query (analyze_query_node state) = lit "document_ingestor" ->
  let result :=
    wrap_ingest_documents E storage w (analyze_query_node state) in
  ainvoke E storage w state
  = {| world_after := fst result;
       visited := [(query_analyzer, lit "analyzed");
                   (document_ingestor, processing_status (snd result))];
       outcome := Ok (snd result) |}.
Proof.
  intros Hroute result. unfold ainvoke, recursion_limit.
  cbn [run run_node edge]. rewrite Hroute.
  change (dict_get conditional_edges (lit "document_ingestor"))
    with (Some document_ingestor).
  cbn [run run_node edge]. fold result. now destruct result.
Qed.

Lemma ainvoke_manage E storage w state :
  route_query (analyze_query_node state) = lit "memory_manager" ->
  let result :=
    manage_memory_node E (active_memories w) storage
      (analyze_query_node state) in
  ainvoke E storage w state
  = {| world_after := w;
       visited := [(query_analyzer, lit "analyzed");
                   (memory_manager, processing_status result)];
       outcome := Ok result |}.
Proof.
  intros Hroute result. unfold ainvoke, recursion_limit.
  cbn [run run_node edge]. rewrite Hroute.
  change (dict_get conditional_edges (lit "memory_manager"))
    with (Some memory_manager).
  reflexivity.
Qed.

Lemma ainvoke_retrieve E storage w state :
  route_query (analyze_query_node state) = lit "semantic_retriever" ->
  let retrieved :=
    retrieve_context_node (active_memories w) (analyze_query_node state) in
  let assembled := assemble_context_node E retrieved in
  let generated := generate_response_node E (objects w) assembled in
  ainvoke E storage w state
  = {| world_after := set_objects (fst generated) w;
       visited := [(query_analyzer, lit "analyzed");
                   (semantic_retriever, processing_status retrieved);
                   (context_assembler, processing_status assembled);
                   (response_generator, processing_status (snd generated))];
       outcome := Ok (snd generated) |}.
Proof.
  intros Hroute retrieved assembled generated.
  unfold ainvoke, recursion_limit.
  cbn [run run_node edge]. rewrite Hroute.
  change (dict_get conditional_edges (lit "semantic_retriever"))
    with (Some semantic_retriever).
  cbn [run run_node edge]. fold retrieved. fold assembled. fold generated.
  now destruct generated.
Qed.

(** Every run ends with a final state: the step limit is never hit. *)
Lemma ainvoke_returns E storage w state :
  exists final, outcome (ainvoke E storage w state) = Ok final.
Proof.
  destruct (route_cases state) as [[_ H]|[[_ H]|[_ H]]].
  - rewrite (ainvoke_ingest _ _ _ _ H). eexists. reflexivity.
  - rewrite (ainvoke_manage _ _ _ _ H). eexists. reflexivity.
  - rewrite (ainvoke_retrieve _ _ _ _ H). eexists. reflexivity.
Qed.

(** No run ever enters the error handler: the only edge into it is
    the route for intent [error], which the classifier never produces,
    and the ingestion, retrieval, assembly, generation and management
    nodes have no edge to it, whatever status they leave. *)
Lemma error_handler_never_runs E storage w state :
  ~ In error_handler (map fst (visited (ainvoke E storage w state))).
Proof.
  destruct (route_cases state) as [[_ H]|[[_ H]|[_ H]]].
  - rewrite (ainvoke_ingest _ _ _ _ H). simpl. intuition discriminate.
  - rewrite (ainvoke_manage _ _ _ _ H). simpl. intuition discriminate.
  - rewrite (ainvoke_retrieve _ _ _ _ H). simpl. intuition discriminate.
Qed.

(** C1 (what the graph does).  The error handler is not on the path of
    any run, also when a node leaves an error-tagged or no-result
    status: a question asked while no memory is registered and the
    model is down passes [no_memories], [no_context] and
    [generation_error] and ends without the handler. *)
Theorem error_statuses_skip_handler :
  (forall E storage w state,
      ~ In error_handler (map fst (visited (ainvoke E storage w state)))) /\
  (let '(_, r, _) :=
     query_run failing_env Demo.storage Demo.empty_world
       (lit "What is machine learning?") (lit "default") in
   visited r
   = [(query_analyzer, lit "analyzed");
      (semantic_retriever, lit "no_memories");
      (context_assembler, lit "no_context");
      (response_generator, lit "generation_error")]).
Proof.
  split.
  - intros E storage w state. apply error_handler_never_runs.
  - vm_compute. reflexivity.
Qed.

End GraphFacts.

(* ================================================================= *)
(** ** Ingestion without content *)

Module IngestFacts.
Import IntentFacts ValidateFacts.

Lemma valid_needs_paths E paths :
  valid (validate_file_paths E paths) <> [] -> paths <> [].
Proof.
  intros H ->. apply H. reflexivity.
Qed.

(** C4 (what the code does).  When the validated paths of a request
    yield no content unit, the node answers that no content could be
    extracted and produces no memory, but it tags the request
    [ingestion_complete], the status of a successful ingestion. *)
Theorem empty_ingestion_tagged_complete E storage state :
  valid (validate_file_paths E (requested_paths E (query state))) <> [] ->
  encoder_new E = Ok tt ->
  request_chunks E state = [] ->
  let state' := ingest_documents_node E storage state in
  response state' = no_content_response /\
  processing_status state' = lit "ingestion_complete" /\
  memory_paths state' = memory_paths state /\
  forall w,
    memory_paths state = None ->
    fst (wrap_ingest_documents E storage w state) = w.
Proof.
  intros Hvalid Henc Hchunks.
  assert (Hnode : ingest_documents_node E storage state
                  = set_status (lit "ingestion_complete")
                      (set_response no_content_response state)).
  { unfold ingest_documents_node, ingest_documents_body.
    rewrite (truthy_true _ (valid_needs_paths _ _ Hvalid)).
    rewrite (truthy_true _ Hvalid). cbn [negb].
    rewrite Henc. cbn [bind].
    unfold request_chunks, fresh_encoder in Hchunks. rewrite Hchunks.
    reflexivity. }
  intros state'. unfold state'. rewrite Hnode.
  repeat split.
  intros w Hnone. unfold wrap_ingest_documents. rewrite Hnode.
  cbn [memory_paths set_status set_response]. now rewrite Hnone.
Qed.

Lemma empty_ingestion_tagged_complete_witness :
  let state' :=
    ingest_documents_node empty_file_env Demo.storage ingest_empty_file in
  response state' = no_content_response /\
  processing_status state' = lit "ingestion_complete" /\
  memory_paths state' = memory_paths ingest_empty_file /\
  forall w,
    memory_paths ingest_empty_file = None ->
    fst (wrap_ingest_documents empty_file_env Demo.storage w ingest_empty_file)
    = w.
Proof.
  apply (empty_ingestion_tagged_complete empty_file_env Demo.storage
           ingest_empty_file).
  - vm_compute. discriminate.
  - reflexivity.
  - vm_compute. reflexivity.
Defined.

End IngestFacts.

(* ================================================================= *)
(** ** Response generation and the conversation history *)

Module HistoryFacts.
Import GraphFacts.

Lemma deref_store_same : forall h l v,
  l < length h -> deref (store h l v) l = v.
Proof.
  unfold deref. induction h as [|x h IH]; intros l v Hl; simpl in Hl.
  - lia.
  - destruct l as [|l]; simpl; auto. apply IH. lia.
Qed.

Lemma deref_alloc_empty h l : deref (fst (alloc h [])) l = deref h l.
Proof.
  unfold deref, alloc. simpl.
  destruct (Nat.lt_ge_cases l (length h)) as [H|H].
  - now rewrite app_nth1.
  - rewrite app_nth2 by exact H. rewrite (nth_overflow h) by exact H.
    destruct (l - length h) as [|[|n]]; reflexivity.
Qed.

Lemma dict_get_set {V} (d : dict V) key v key' :
  dict_get (dict_set d key v) key'
  = if str_eqb key' key then Some v else dict_get d key'.
Proof.
  induction d as [|[k w] d IH]; simpl.
  - reflexivity.
  - destruct (str_eqb key k) eqn:Hk; simpl.
    + unfold str_eqb in Hk. destruct (str_eq_dec key k); [subst|discriminate].
      now destruct (str_eqb key' k).
    + rewrite IH. destruct (str_eqb key' k) eqn:Hk'; auto.
      destruct (str_eqb key' key) eqn:Hkk; auto.
      unfold str_eqb in *.
      destruct (str_eq_dec key' k), (str_eq_dec key' key),
        (str_eq_dec key k); congruence.
Qed.

Lemma str_eqb_refl s : str_eqb s s = true.
Proof. unfold str_eqb. now destruct (str_eq_dec s s). Qed.

(** C3 (what the code does).  When the model call raises, the node
    turns the failure into a user-facing message and an error status,
    but the prompt it had appended to the shared messages list before
    the call stays there: the history is one turn longer. *)
Theorem failed_generation_keeps_prompt E h state e :
  messages state < length h ->
  llm_ainvoke E
    (deref h (messages state) ++ [HumanMessage (response_prompt state)])
  = Raise e ->
  let h' := fst (generate_response_node E h state) in
  let state' := snd (generate_response_node E h state) in
  response state' = lit "❌ Error generating response: " ++ e /\
  processing_status state' = lit "generation_error" /\
  error_message state' = Some e /\
  messages state' = messages state /\
  deref h' (messages state')
  = deref h (messages state) ++ [HumanMessage (response_prompt state)].
Proof.
  intros Hl Hraise. unfold generate_response_node.
  rewrite (deref_store_same _ _ _ Hl), Hraise.
  cbn [fst snd response processing_status error_message messages
       set_error_message set_status set_response].
  repeat split; auto. now apply deref_store_same.
Qed.

Lemma failed_generation_keeps_prompt_witness :
  let h' := fst (generate_response_node failing_env [[]] first_question) in
  let state' := snd (generate_response_node failing_env [[]] first_question) in
  response state' = lit "❌ Error generating response: " ++ lit "boom" /\
  processing_status state' = lit "generation_error" /\
  error_message state' = Some (lit "boom") /\
  messages state' = messages first_question /\
  deref h' (messages state')
  = deref [[]] (messages first_question)
    ++ [HumanMessage (response_prompt first_question)].
Proof.
  apply (failed_generation_keeps_prompt failing_env [[]] first_question
           (lit "boom")).
  - simpl. lia.
  - reflexivity.
Defined.

(** The same through [query]: a fresh session ends up with one turn
    although the request failed. *)
Lemma failed_query_leaves_turn :
  let '(w, answer) :=
    agent_query failing_env Demo.storage Demo.empty_world
      (lit "What is machine learning?") (lit "default") in
  answer = lit "❌ Error generating response: boom" /\
  history Demo.empty_world (lit "default") = [] /\
  history w (lit "default")
  = [HumanMessage (no_context_prompt (lit "What is machine learning?"))].
Proof. vm_compute. auto. Qed.

End HistoryFacts.

(* ================================================================= *)
(** ** Requests without registered memories; branches without turns *)

Module SessionFacts.
Import GraphFacts HistoryFacts.

(** C2, amended.  With no memory registered, a search or chat request
    reaches the retrieval node, and that node leaves it in the status
    [no_memories], which is not the status of a failed search, with an
    empty context and no retrieved chunk. *)
Theorem no_memories_at_retrieval E storage w state :
  active_memories w = [] ->
  intent (analyze_query_node state) = lit "search" \/
  intent (analyze_query_node state) = lit "chat" ->
  let retrieved :=
    retrieve_context_node (active_memories w) (analyze_query_node state) in
  processing_status retrieved = lit "no_memories" /\
  processing_status retrieved <> lit "retrieval_error" /\
  context retrieved = [] /\ retrieved_chunks retrieved = [] /\
  In (semantic_retriever, lit "no_memories")
     (visited (ainvoke E storage w state)).
Proof.
  intros Hnone Hintent retrieved.
  assert (Hroute : route_query (analyze_query_node state)
                   = lit "semantic_retriever").
  { destruct (route_cases state) as [[H _]|[[H _]|[_ H]]]; auto;
      destruct Hintent as [H'|H']; rewrite H' in H; discriminate. }
  assert (Hst : retrieved
                = set_status (lit "no_memories")
                    (set_retrieved_chunks []
                       (set_context [] (analyze_query_node state)))).
  { unfold retrieved. now rewrite Hnone. }
  repeat split; try (rewrite Hst; reflexivity).
  - rewrite Hst. discriminate.
  - rewrite (ainvoke_retrieve _ _ _ _ Hroute). fold retrieved.
    rewrite Hst. right. left. reflexivity.
Qed.

Lemma no_memories_at_retrieval_witness :
  let E := Demo.env [] (Demo.answering "42") in
  let retrieved :=
    retrieve_context_node (active_memories Demo.empty_world)
      (analyze_query_node first_question) in
  processing_status retrieved = lit "no_memories" /\
  processing_status retrieved <> lit "retrieval_error" /\
  context retrieved = [] /\ retrieved_chunks retrieved = [] /\
  In (semantic_retriever, lit "no_memories")
     (visited (ainvoke E Demo.storage Demo.empty_world first_question)).
Proof.
  intros E.
  apply (no_memories_at_retrieval E Demo.storage Demo.empty_world
           first_question).
  - reflexivity.
  - left. vm_compute. reflexivity.
Defined.

(** C2 as stated fails: the run goes on after the retrieval node, the
    assembler and the generator overwrite the status, and the answer
    is whatever the model says. *)
Lemma no_memories_not_final :
  let '(_, r, answer) :=
    query_run (Demo.env [] (Demo.answering "42")) Demo.storage
      Demo.empty_world (lit "What is machine learning?") (lit "default") in
  ~ ends_no_memories r /\ answer = lit "42".
Proof.
  vm_compute. split; auto.
  intros (final & Hfinal & Hstatus). injection Hfinal as <-.
  discriminate.
Qed.

(** *** The branches that add no turn *)

Lemma ingest_body_keeps_messages E storage state state' :
  ingest_documents_body E storage state = Ok state' ->
  messages state' = messages state.
Proof.
  unfold ingest_documents_body, bind. intros H.
  repeat match type of H with
         | context [match ?x with _ => _ end] =>
             lazymatch x with
             | context [match _ with _ => _ end] => fail
             | _ => destruct x
             end
         end;
    try discriminate; injection H as <-; reflexivity.
Qed.

Lemma ingest_keeps_messages E storage state :
  messages (ingest_documents_node E storage state) = messages state.
Proof.
  unfold ingest_documents_node.
  destruct (ingest_documents_body E storage state) eqn:H; auto.
  now apply ingest_body_keeps_messages in H.
Qed.

Lemma manage_keeps_messages E active storage state :
  messages (manage_memory_node E active storage state) = messages state.
Proof.
  unfold manage_memory_node.
  now destruct (manage_memory_body E active storage state).
Qed.

(** A node of these branches leaves the list objects, the sessions and
    the [messages] entry of the request alone. *)
Lemma turnless_node_frame E storage n w state :
  turnless n ->
  let result := run_node E storage n w state in
  objects (fst result) = objects w /\
  session_data (fst result) = session_data w /\
  messages (snd result) = messages state.
Proof.
  intros [-> | [-> | ->]]; cbn [run_node].
  - unfold wrap_ingest_documents.
    pose proof (ingest_keeps_messages E storage state) as Hm.
    destruct (memory_paths (ingest_documents_node E storage state));
      [destruct (load_retriever E _ _)|]; simpl; auto.
  - simpl. repeat split. apply manage_keeps_messages.
  - simpl. auto.
Qed.

Lemma history_alloc_empty w sid sid' :
  history
    (set_session_data
       (dict_set (session_data w) sid (snd (alloc (objects w) [])))
       (set_objects (fst (alloc (objects w) [])) w)) sid'
  = if str_eqb sid' sid then [] else history w sid'.
Proof.
  unfold history. cbn [session_data objects set_session_data set_objects].
  rewrite dict_get_set. destruct (str_eqb sid' sid).
  - unfold deref, alloc. simpl. rewrite app_nth2 by lia.
    now rewrite Nat.sub_diag.
  - destruct (dict_get (session_data w) sid'); auto.
    apply deref_alloc_empty.
Qed.

(** Opening a session changes no history. *)
Lemma open_session_history w sid :
  let opened := open_session w sid in
  dict_get (session_data (fst opened)) sid = Some (snd opened) /\
  active_memories (fst opened) = active_memories w /\
  forall sid', history (fst opened) sid' = history w sid'.
Proof.
  unfold open_session.
  destruct (dict_get (session_data w) sid) as [l|] eqn:Hget.
  - simpl. auto.
  - destruct (alloc (objects w) []) as [h l] eqn:Halloc.
    cbn [fst snd session_data set_session_data active_memories set_objects].
    rewrite dict_get_set, str_eqb_refl. repeat split.
    intros sid'.
    pose proof (history_alloc_empty w sid sid') as H.
    rewrite Halloc in H. cbn [fst snd] in H. rewrite H.
    destruct (str_eqb sid' sid) eqn:He; auto.
    unfold str_eqb in He. destruct (str_eq_dec sid' sid); [subst|discriminate].
    unfold history. now rewrite Hget.
Qed.

(** Writing back the reference a session already has changes nothing. *)
Lemma history_write_back w wa sid l :
  dict_get (session_data w) sid = Some l ->
  objects wa = objects w -> session_data wa = session_data w ->
  forall sid',
    history (set_session_data (dict_set (session_data wa) sid l) wa) sid'
    = history w sid'.
Proof.
  intros Hget Hobj Hsd sid'. unfold history.
  cbn [session_data objects set_session_data]. rewrite Hobj, Hsd, dict_get_set.
  destruct (str_eqb sid' sid) eqn:He; auto.
  unfold str_eqb in He. destruct (str_eq_dec sid' sid); [subst|discriminate].
  now rewrite Hget.
Qed.

(** C10.  A request classified as ingestion or memory management (the
    error intent never occurs) leaves the history of every session as
    it was before [query] was called; and each node of the ingestion,
    management and error-handler branches leaves the messages alone. *)
Theorem other_branches_keep_history E storage w user_input sid :
  ii_intent (parse_query_intent user_input) = lit "ingest" \/
  ii_intent (parse_query_intent user_input) = lit "manage" \/
  ii_intent (parse_query_intent user_input) = lit "error" ->
  (forall sid',
      history (fst (agent_query E storage w user_input sid)) sid'
      = history w sid') /\
  (forall n w0 state,
      turnless n ->
      objects (fst (run_node E storage n w0 state)) = objects w0 /\
      session_data (fst (run_node E storage n w0 state)) = session_data w0 /\
      messages (snd (run_node E storage n w0 state)) = messages state).
Proof.
  intros Hintent. split; [|intros n w0 state; apply turnless_node_frame].
  intros sid'. unfold agent_query, query_run.
  pose proof (open_session_history w sid) as Hopen.
  destruct (open_session w sid) as [w1 l]. cbn [fst snd] in Hopen.
  destruct Hopen as (Hget & _ & Hhist).
  set (state := initial_state l user_input sid).
  assert (Hi : intent (analyze_query_node state)
               = ii_intent (parse_query_intent user_input)) by reflexivity.
  rewrite <- Hhist.
  destruct (route_cases state) as [[_ H]|[[_ H]|[[H|H] _]]].
  - rewrite (ainvoke_ingest _ _ _ _ H). cbn [outcome world_after fst snd].
    destruct (turnless_node_frame E storage document_ingestor w1
                (analyze_query_node state)) as (Ho & Hs & Hm);
      [left; reflexivity|].
    cbn [run_node] in Ho, Hs, Hm. rewrite Hm.
    now apply history_write_back.
  - rewrite (ainvoke_manage _ _ _ _ H). cbn [outcome world_after fst snd].
    rewrite manage_keeps_messages.
    now apply history_write_back.
  - rewrite Hi in H. destruct Hintent as [H'|[H'|H']];
      rewrite H' in H; discriminate.
  - rewrite Hi in H. destruct Hintent as [H'|[H'|H']];
      rewrite H' in H; discriminate.
Qed.

Lemma other_branches_keep_history_witness :
  let E := Demo.env [] (Demo.failing "boom") in
  (forall sid',
      history (fst (agent_query E Demo.storage Demo.empty_world
                      (lit "list memories") (lit "default"))) sid'
      = history Demo.empty_world sid') /\
  (forall n w0 state,
      turnless n ->
      objects (fst (run_node E Demo.storage n w0 state)) = objects w0 /\
      session_data (fst (run_node E Demo.storage n w0 state))
      = session_data w0 /\
      messages (snd (run_node E Demo.storage n w0 state)) = messages state).
Proof.
  intros E.
  apply (other_branches_keep_history E Demo.storage Demo.empty_world
           (lit "list memories") (lit "default")).
  right. left. vm_compute. reflexivity.
Defined.

End SessionFacts.

(* ================================================================= *)
(** ** What path extraction returns *)

Module ExtractFacts.
Import ReFacts ToolsFacts IntentFacts RequoteFacts.

Lemma path_char_not_space c : path_char c = true -> is_space c = false.
Proof. by_cases_on_char c. Qed.

Lemma letter_path_char c : is_letter c = true -> path_char c = true.
Proof. by_cases_on_char c. Qed.

Lemma slash_path_char c : slash c = true -> path_char c = true.
Proof. by_cases_on_char c. Qed.

Lemma bare_dotted g : bare g -> dotted g.
Proof.
  intros (stem & ext & -> & Hne & _ & Hext & Hlen). now exists stem, ext.
Qed.

Lemma bare_no_space g : bare g -> forallb (fun c => negb (is_space c)) g = true.
Proof.
  intros (stem & ext & -> & _ & Hstem & Hext & _).
  rewrite forallb_app. cbn [forallb]. rewrite !forallb_forall in *.
  apply andb_true_intro. split; [|apply andb_true_intro; split; auto].
  - apply forallb_forall. intros c Hc.
    now rewrite path_char_not_space by auto.
  - apply forallb_forall. intros c Hc.
    now rewrite letter_not_space by auto.
Qed.

Lemma unquoted_word_sound seen s m :
  match_at (cat [Grp 1 (cat [Bnd; plus path_char; one "."; extension]); Bnd])
    seen s = Some m ->
  bare (group_text 1 m).
Proof.
  unfold match_at. cbn [cat fold_right rmatch].
  destruct (xorb _ _); [|discriminate].
  unfold plus at 1. cbn [rmatch rest consumed caps]. intros H.
  apply rep_sound in H. destruct H as (stem & s2 & -> & Hstem & Hlen & H).
  rewrite rmatch_one in H. cbn [rest consumed caps] in H.
  destruct s2 as [|x s2]; [discriminate|].
  destruct (Ascii.eqb "." x) eqn:Hdot; [|discriminate].
  apply Ascii.eqb_eq in Hdot. subst x.
  unfold extension in H. cbn [rmatch rest consumed caps] in H.
  apply rep_sound_bounded in H; [|lia].
  destruct H as (ext & s3 & -> & Hext & Hlen' & H).
  cbn [rmatch rest consumed caps] in H.
  destruct (xorb _ _); [|discriminate].
  injection H as <-. unfold group_text. cbn [caps group Nat.eqb].
  exists stem, ext. repeat split; auto; try lia.
  - replace (rev ext ++ "."%char :: rev stem ++ seen)
      with ((rev ext ++ "."%char :: rev stem) ++ seen)
      by (rewrite <- app_assoc; reflexivity).
    rewrite captured_app, rev_app_distr. simpl.
    now rewrite !rev_involutive, <- app_assoc.
  - intros ->. simpl in Hlen. lia.
Qed.

Lemma unquoted_path_sound seen s m :
  match_at (Grp 1 (cat [opt slash; plus path_char; one "."; extension]))
    seen s = Some m ->
  bare (group_text 1 m).
Proof.
  unfold match_at. cbn [cat fold_right rmatch].
  unfold opt at 1. cbn [rmatch rest consumed caps]. intros H.
  apply rep_sound in H. destruct H as (lead & s1 & -> & Hlead & _ & H).
  unfold plus at 1 in H. cbn [rmatch rest consumed caps] in H.
  apply rep_sound in H. destruct H as (stem & s2 & -> & Hstem & Hlen & H).
  rewrite rmatch_one in H. cbn [rest consumed caps] in H.
  destruct s2 as [|x s2]; [discriminate|].
  destruct (Ascii.eqb "." x) eqn:Hdot; [|discriminate].
  apply Ascii.eqb_eq in Hdot. subst x.
  unfold extension in H. cbn [rmatch rest consumed caps] in H.
  apply rep_sound_bounded in H; [|lia].
  destruct H as (ext & s3 & -> & Hext & Hlen' & H).
  cbn [rmatch rest consumed caps] in H.
  injection H as <-. unfold group_text. cbn [caps group Nat.eqb].
  exists (lead ++ stem), ext. repeat split; auto; try lia.
  - replace (rev ext ++ "."%char :: rev stem ++ rev lead ++ seen)
      with ((rev ext ++ "."%char :: rev stem ++ rev lead) ++ seen)
      by (rewrite <- !app_assoc; simpl; rewrite <- !app_assoc; reflexivity).
    rewrite captured_app, rev_app_distr. simpl.
    rewrite rev_app_distr, !rev_involutive, <- !app_assoc. reflexivity.
  - intros H0. apply app_eq_nil in H0. destruct H0 as [_ ->].
    simpl in Hlen. lia.
  - rewrite forallb_app, Hstem, andb_true_r.
    apply forallb_forall. intros c Hc. rewrite forallb_forall in Hlead.
    apply slash_path_char; auto.
Qed.

Lemma findall_unquoted_bare query pattern g :
  In pattern unquoted_patterns -> In g (findall pattern query) -> bare g.
Proof.
  unfold findall. rewrite in_map_iff. intros Hp (m & <- & Hm).
  apply scan_In in Hm. destruct Hm as (seen' & s' & Hm).
  destruct Hp as [<-|[<-|[]]].
  - eapply unquoted_word_sound; eauto.
  - eapply unquoted_path_sound; eauto.
Qed.

Lemma strip_no_space s :
  forallb (fun c => negb (is_space c)) s = true -> strip s = s.
Proof.
  intros H. unfold strip, strip_by.
  assert (Hl : forall t, forallb (fun c => negb (is_space c)) t = true ->
                         lstrip_by is_space t = t).
  { intros t Ht. destruct t as [|c t]; auto. simpl in *.
    apply andb_prop in Ht. destruct Ht as [Hc _].
    apply negb_true_iff in Hc. now rewrite Hc. }
  rewrite Hl by exact H. unfold rstrip_by. rewrite Hl.
  - apply rev_involutive.
  - rewrite forallb_forall in *. intros c Hc. apply H. now apply in_rev.
Qed.

(** The paths before cleaning: the quoted captures, else the bare
    tokens that do not look like a URL. *)
Lemma extracted_origin query p :
  In p (extract_document_paths query) ->
  (exists g, In g (quoted_captures query) /\ p = strip g) \/
  (quoted_captures query = [] /\ bare p /\ url_like p = false).
Proof.
  unfold extract_document_paths, list_set. fold (quoted_captures query).
  rewrite nodup_In, filter_In. intros [H _].
  apply in_map_iff in H. destruct H as (g & <- & Hg).
  destruct (quoted_captures query) as [|g0 captures] eqn:Hq.
  - right. cbn [truthy] in Hg. apply in_flat_map in Hg.
    destruct Hg as (pattern & Hp & Hg). apply filter_In in Hg.
    destruct Hg as [Hg Hurl].
    pose proof (findall_unquoted_bare query pattern g Hp Hg) as Hbare.
    rewrite (strip_no_space g (bare_no_space g Hbare)).
    repeat split; auto. now apply negb_true_iff in Hurl.
  - left. cbn [truthy] in Hg. eauto.
Qed.

(** X1.  Every extracted path is a file name with an extension of two
    to four letters, has no blank at either end, and is listed once. *)
Theorem extracted_paths_shape query :
  NoDup (extract_document_paths query) /\
  forall p,
    In p (extract_document_paths query) ->
    has_extension p /\ strip p = p /\ 3 <= length p.
Proof.
  split; [apply NoDup_nodup|].
  intros p Hp.
  assert (Hext : has_extension p).
  { destruct (extracted_origin query p Hp) as [(g & Hg & ->)|(_ & Hb & _)].
    - apply quoted_paths_dotted in Hg.
      destruct (strip_dotted g Hg) as (stem & ext & -> & He & Hl).
      now exists stem, ext.
    - destruct Hb as (stem & ext & -> & _ & _ & He & Hl). now exists stem, ext. }
  split; [exact Hext|]. split; [now apply (extracted_stripped query)|].
  destruct Hext as (stem & ext & -> & _ & Hl).
  rewrite length_app. simpl. lia.
Qed.

(** X2.  When the query quotes no path, no bare token that looks like
    a URL (one that holds [www.], [http], [.com] or [.org], in any
    letter case) is returned, and the returned tokens are made of path
    characters only. *)
Theorem bare_paths_exclude_urls query p :
  quoted_captures query = [] ->
  In p (extract_document_paths query) ->
  url_like p = false /\ forallb path_char p = true.
Proof.
  intros Hnone Hp.
  destruct (extracted_origin query p Hp) as [(g & Hg & _)|(_ & Hb & Hurl)].
  - rewrite Hnone in Hg. destruct Hg.
  - split; auto. destruct Hb as (stem & ext & -> & _ & Hs & He & _).
    rewrite forallb_app, Hs. cbn [forallb andb].
    apply forallb_forall. intros c Hc. rewrite forallb_forall in He.
    now apply letter_path_char, He.
Qed.

Lemma bare_paths_exclude_urls_witness :
  let query := lit "see notes.txt and http://www.x.com/a.pdf" in
  url_like (lit "notes.txt") = false /\
  forallb path_char (lit "notes.txt") = true.
Proof.
  intros query.
  apply (bare_paths_exclude_urls query (lit "notes.txt")).
  - reflexivity.
  - vm_compute. auto.
Defined.

End ExtractFacts.

(* ================================================================= *)
(** ** Memory names *)

Module NameFacts.
Import ToolsFacts RequoteFacts.

Lemma replace_unsafe_safe name :
  forallb (fun c => negb (unsafe_char c)) (replace_unsafe name) = true.
Proof.
  unfold replace_unsafe. induction name as [|c name IH]; simpl; auto.
  rewrite IH, andb_true_r. destruct (unsafe_char c) eqn:Hc; auto.
  now rewrite Hc.
Qed.

Lemma collapse_safe (P : ascii -> bool) :
  P "_"%char = true ->
  forall s run, forallb P s = true ->
                forallb P (collapse_underscores run s) = true.
Proof.
  intros Hu. induction s as [|c s IH]; simpl; intros run H; auto.
  apply andb_prop in H. destruct H as [Hc Hs].
  destruct (Ascii.eqb c "_"); [destruct run|]; simpl;
    rewrite ?Hu, ?Hc; simpl; apply IH; auto.
Qed.

Lemma collapse_head_run s :
  leading_underscore (collapse_underscores true s) = false.
Proof.
  induction s as [|c s IH]; simpl; auto.
  destruct (Ascii.eqb c "_") eqn:Hc; auto.
Qed.

Lemma doubled_cons c s :
  doubled (c :: s) = (Ascii.eqb c "_" && leading_underscore s) || doubled s.
Proof. destruct s; simpl; auto. now rewrite andb_false_r. Qed.

Lemma collapse_not_doubled : forall s run,
  doubled (collapse_underscores run s) = false.
Proof.
  induction s as [|c s IH]; intros run; auto.
  cbn [collapse_underscores].
  destruct (Ascii.eqb c "_") eqn:Hc.
  - destruct run; auto.
    rewrite doubled_cons, collapse_head_run, IH. now rewrite andb_false_r.
  - rewrite doubled_cons, Hc, IH. reflexivity.
Qed.

(** Dropping characters in front or at the end keeps a text free of
    doubled underscores. *)
Lemma doubled_app_r a b : doubled (a ++ b) = false -> doubled b = false.
Proof.
  induction a as [|c a IH]; auto. cbn [app]. rewrite doubled_cons.
  intros H. apply orb_false_elim in H. now apply IH.
Qed.

Lemma leading_app a b :
  a <> [] -> leading_underscore (a ++ b) = leading_underscore a.
Proof. destruct a; simpl; congruence. Qed.

Lemma doubled_app_l a b : doubled (a ++ b) = false -> doubled a = false.
Proof.
  induction a as [|c a IH]; auto. cbn [app]. rewrite !doubled_cons.
  intros H. apply orb_false_elim in H. destruct H as [H1 H2].
  rewrite (IH H2), orb_false_r.
  destruct a as [|c' a]; [now rewrite andb_false_r|].
  now rewrite leading_app in H1 by discriminate.
Qed.

Lemma rstrip_prefix p s : exists w, s = rstrip_by p s ++ w.
Proof.
  unfold rstrip_by. destruct (lstrip_suffix p (rev s)) as [w Hw].
  exists (rev w). rewrite <- rev_app_distr, <- Hw. now rewrite rev_involutive.
Qed.

Lemma forallb_app_l {A} (P : A -> bool) a b :
  forallb P (a ++ b) = true -> forallb P a = true.
Proof. rewrite forallb_app. intros H. now apply andb_prop in H. Qed.

Lemma forallb_app_r {A} (P : A -> bool) a b :
  forallb P (a ++ b) = true -> forallb P b = true.
Proof. rewrite forallb_app. intros H. now apply andb_prop in H. Qed.

Lemma strip_by_middle p s : exists a b, s = a ++ strip_by p s ++ b.
Proof.
  unfold strip_by. destruct (lstrip_suffix p s) as [a Ha].
  destruct (rstrip_prefix p (lstrip_by p s)) as [b Hb].
  exists a, b. now rewrite <- Hb.
Qed.

Lemma strip_by_head p s :
  match strip_by p s with
  | c :: _ => p c = false
  | [] => True
  end.
Proof.
  unfold strip_by.
  destruct (rstrip_prefix p (lstrip_by p s)) as [w Hw].
  destruct (rstrip_by p (lstrip_by p s)) as [|c t]; auto.
  destruct (lstrip_stopped p s) as [H|(c' & t' & H & Hc)]; rewrite H in Hw.
  - discriminate.
  - now injection Hw as -> _.
Qed.

Lemma firstn_leading n s :
  leading_underscore s = false -> leading_underscore (firstn n s) = false.
Proof. destruct n, s; simpl; auto. Qed.

Lemma truncated_legal s :
  forallb (fun c => negb (unsafe_char c)) s = true ->
  leading_underscore s = false -> doubled s = false ->
  forall t, t = (if 50 <? length s then firstn 50 s else s) ->
  t <> [] -> legal_name t.
Proof.
  intros Hsafe Hlead Hdbl t -> Hne.
  destruct (50 <? length s) eqn:Hlen.
  - rewrite <- (firstn_skipn 50 s) in Hsafe, Hdbl.
    repeat split; auto.
    + rewrite length_firstn. lia.
    + now apply forallb_app_l in Hsafe.
    + now apply firstn_leading.
    + now apply doubled_app_l in Hdbl.
  - apply Nat.ltb_ge in Hlen. repeat split; auto.
Qed.

(** X3.  A sanitized name is always legal: it is not empty, it has at
    most fifty characters, none of them reserved for the file system,
    it does not begin with an underscore and it holds no two
    underscores in a row.  So the name generated for a single document
    is legal, and a generated name is never empty. *)
Theorem generated_names_legal :
  (forall name, legal_name (sanitize_memory_name name)) /\
  (forall E documents,
      generate_memory_name E documents <> [] /\
      (forall doc, documents = [doc] ->
                   legal_name (generate_memory_name E documents))).
Proof.
  assert (Hsan : forall name, legal_name (sanitize_memory_name name)).
  { intros name. unfold sanitize_memory_name.
    set (s := strip_by (Ascii.eqb "_")
                (collapse_underscores false (replace_unsafe name))).
    assert (Hsafe : forallb (fun c => negb (unsafe_char c)) s = true).
    { destruct (strip_by_middle (Ascii.eqb "_")
                  (collapse_underscores false (replace_unsafe name)))
        as (a & b & Hab).
      pose proof (collapse_safe (fun c => negb (unsafe_char c)) eq_refl
                    (replace_unsafe name) false (replace_unsafe_safe name))
        as H.
      rewrite Hab in H. now apply forallb_app_r, forallb_app_l in H. }
    assert (Hdbl : doubled s = false).
    { destruct (strip_by_middle (Ascii.eqb "_")
                  (collapse_underscores false (replace_unsafe name)))
        as (a & b & Hab).
      pose proof (collapse_not_doubled (replace_unsafe name) false) as H.
      rewrite Hab in H. now apply doubled_app_r, doubled_app_l in H. }
    assert (Hlead : leading_underscore s = false).
    { pose proof (strip_by_head (Ascii.eqb "_")
                    (collapse_underscores false (replace_unsafe name))) as H.
      fold s in H. destruct s as [|c t]; auto;
        try (simpl; now rewrite Ascii.eqb_sym). }
    destruct (truthy (if 50 <? length s then firstn 50 s else s)) eqn:Ht.
    - apply (truncated_legal s Hsafe Hlead Hdbl); auto.
      intros H. rewrite H in Ht. discriminate.
    - repeat split; try reflexivity; try discriminate. simpl. lia. }
  split; [exact Hsan|].
  intros E documents. split.
  - destruct documents as [|d [|d' ds]]; simpl; try discriminate.
    apply Hsan.
  - intros doc ->. apply Hsan.
Qed.

End NameFacts.

(* ================================================================= *)
(** ** Directory references and keyword priority *)

Module DirectoryFacts.
Import ReFacts ToolsFacts IntentFacts.

Lemma quoted_directory_sound q seen s m :
  match_at (cat [one q; Grp 1 (cat [plus (not_chr q); one "/"]); one q])
    seen s = Some m ->
  exists stem, group_text 1 m = stem ++ ["/"%char] /\ stem <> [].
Proof.
  unfold match_at. cbn [cat fold_right rmatch].
  rewrite rmatch_one. cbn [rest consumed caps].
  destruct s as [|x t]; [discriminate|].
  destruct (Ascii.eqb q x); [|discriminate].
  unfold plus at 1. cbn [rmatch rest consumed caps]. intros H.
  apply rep_sound in H. destruct H as (stem & s2 & -> & _ & Hlen & H).
  rewrite rmatch_one in H. cbn [rest consumed caps] in H.
  destruct s2 as [|y s2]; [discriminate|].
  destruct (Ascii.eqb "/" y) eqn:Hy; [|discriminate].
  apply Ascii.eqb_eq in Hy. subst y.
  cbn [rmatch rest consumed caps] in H.
  rewrite rmatch_one in H. cbn [rest consumed caps] in H.
  destruct s2 as [|z s2]; [discriminate|].
  destruct (Ascii.eqb q z); [|discriminate].
  injection H as <-. unfold group_text. cbn [caps group Nat.eqb].
  exists stem. split.
  - replace ("/"%char :: rev stem ++ x :: seen)
      with (("/"%char :: rev stem) ++ x :: seen) by reflexivity.
    rewrite captured_app. simpl. now rewrite rev_involutive.
  - intros ->. simpl in Hlen. lia.
Qed.

Lemma bare_directory_sound seen s m :
  match_at (Grp 1 (cat [opt slash; plus dir_char; Cls slash 1 (Some 1)]))
    seen s = Some m ->
  exists stem c,
    group_text 1 m = stem ++ [c] /\ stem <> [] /\ slash c = true.
Proof.
  unfold match_at. cbn [cat fold_right rmatch].
  unfold opt at 1. cbn [rmatch rest consumed caps]. intros H.
  apply rep_sound in H. destruct H as (lead & s1 & -> & _ & _ & H).
  unfold plus at 1 in H. cbn [rmatch rest consumed caps] in H.
  apply rep_sound in H. destruct H as (stem & s2 & -> & _ & Hlen & H).
  cbn [rmatch rest consumed caps] in H.
  apply rep_sound_bounded in H; [|lia].
  destruct H as (tail & s3 & -> & Htail & Hlen' & H).
  cbn [rmatch rest consumed caps] in H.
  injection H as <-. unfold group_text. cbn [caps group Nat.eqb].
  destruct tail as [|c [|c' tail]]; simpl in Hlen'; try lia.
  simpl in Htail. rewrite andb_true_r in Htail.
  exists (lead ++ stem), c. repeat split; auto.
  - replace (rev [c] ++ rev stem ++ rev lead ++ seen)
      with ((rev [c] ++ rev stem ++ rev lead) ++ seen)
      by (rewrite <- !app_assoc; reflexivity).
    rewrite captured_app, !rev_app_distr, !rev_involutive.
    rewrite <- ?app_assoc. reflexivity.
  - intros H0. apply app_eq_nil in H0. destruct H0 as [_ ->].
    simpl in Hlen. lia.
Qed.

Lemma first_match_In patterns query d :
  first_match patterns query = Some d ->
  exists pattern, In pattern patterns /\ In d (findall pattern query).
Proof.
  induction patterns as [|pattern more IH]; simpl; [discriminate|].
  destruct (findall pattern query) as [|m ms] eqn:Hf.
  - intros H. destruct (IH H) as (p & Hp & Hd). eauto.
  - intros H. injection H as <-. exists pattern. rewrite Hf.
    split; now left.
Qed.

Lemma first_match_hit patterns query pattern :
  In pattern patterns -> findall pattern query <> [] ->
  first_match patterns query <> None.
Proof.
  induction patterns as [|p more IH]; simpl; [tauto|].
  intros [->|Hin] Hne.
  - destruct (findall pattern query); [congruence|discriminate].
  - destruct (findall p query); [auto|discriminate].
Qed.

(** Whatever is returned ends with a slash. *)
Lemma directory_ends_with_slash query d :
  extract_directory_from_query query = Some d ->
  exists stem c, d = stem ++ [c] /\ stem <> [] /\ slash c = true.
Proof.
  unfold extract_directory_from_query. intros H.
  apply first_match_In in H. destruct H as (pattern & Hp & Hd).
  unfold findall in Hd. apply in_map_iff in Hd.
  destruct Hd as (m & <- & Hm). apply scan_In in Hm.
  destruct Hm as (seen' & s' & Hm).
  destruct Hp as [<-|[<-|[<-|[]]]].
  - apply quoted_directory_sound in Hm. destruct Hm as (stem & -> & Hne).
    now exists stem, "/"%char.
  - apply quoted_directory_sound in Hm. destruct Hm as (stem & -> & Hne).
    now exists stem, "/"%char.
  - now apply bare_directory_sound in Hm.
Qed.

Lemma bare_directory_hit pre name c post :
  name <> [] -> forallb dir_char name = true -> slash c = true ->
  findall (Grp 1 (cat [opt slash; plus dir_char; Cls slash 1 (Some 1)]))
    (pre ++ name ++ c :: post) <> [].
Proof.
  intros Hne Hname Hc. unfold findall. intros H. apply map_eq_nil in H.
  revert H. apply scan_hit. unfold match_at. cbn [cat fold_right rmatch].
  unfold opt, plus. cbn [rmatch rest consumed caps].
  apply (rep_complete slash 0 (Some 1) _ [] (name ++ c :: post));
    [reflexivity | simpl; lia | simpl; lia | ].
  cbn [rest consumed caps].
  apply rep_complete;
    [exact Hname | destruct name; [congruence|simpl; lia] | exact I | ].
  cbn [rest consumed caps]. change (c :: post) with ([c] ++ post).
  apply rep_complete;
    [simpl; now rewrite Hc | simpl; lia | simpl; lia | discriminate].
Qed.

(** X4.  A directory reference is always a non-empty name followed by
    a slash or a backslash; and any utterance that holds a bare name
    of word characters, dashes or dots followed by a slash is taken as
    an ingestion request, whatever else it says. *)
Theorem directory_reference_means_ingest :
  (forall query d,
      extract_directory_from_query query = Some d ->
      exists stem c, d = stem ++ [c] /\ stem <> [] /\ slash c = true) /\
  (forall pre name c post,
      name <> [] -> forallb dir_char name = true -> slash c = true ->
      ii_intent (parse_query_intent (pre ++ name ++ c :: post))
      = lit "ingest").
Proof.
  split; [exact directory_ends_with_slash|].
  intros pre name c post Hne Hname Hc.
  unfold parse_query_intent. cbn [ii_intent].
  destruct (extract_directory_from_query (pre ++ name ++ c :: post))
    as [d|] eqn:Hd.
  - destruct (directory_ends_with_slash _ _ Hd) as (stem & c' & -> & Hs & _).
    destruct stem as [|x stem']; [congruence|].
    cbn [truthy_opt truthy app]. now rewrite orb_true_r.
  - exfalso. revert Hd. unfold extract_directory_from_query.
    apply (first_match_hit directory_patterns _
             (Grp 1 (cat [opt slash; plus dir_char; Cls slash 1 (Some 1)]))).
    + right. right. now left.
    + now apply bare_directory_hit.
Qed.

(** *** Keywords *)

Lemma startswith_app a b s :
  startswith (a ++ b) s = true -> startswith a s = true.
Proof.
  revert s. induction a as [|x a IH]; intros s H; auto.
  destruct s as [|y s]; simpl in *; [discriminate|].
  apply andb_prop in H. destruct H as [Hx H]. rewrite Hx. now apply IH.
Qed.

(** A text that holds [a ++ b] holds [a]. *)
Lemma contains_app a b s : contains (a ++ b) s = true -> contains a s = true.
Proof.
  induction s as [|c s IH]; simpl; intros H.
  - rewrite orb_false_r in *. now apply startswith_app in H.
  - apply orb_prop in H. destruct H as [H|H].
    + now rewrite (startswith_app _ _ _ H).
    + rewrite (IH H). now rewrite orb_true_r.
Qed.

Lemma any_in_hit patterns pattern text :
  In pattern patterns -> contains pattern text = true ->
  any_in patterns text = true.
Proof.
  intros Hin Hc. unfold any_in. apply existsb_exists. eauto.
Qed.

(** X5.  The classifier answers one of [ingest], [manage], [search],
    [chat] and never [error]; and since [show] is a management keyword
    checked first, a request that says [show me] is never a search. *)
Theorem classifier_range_and_shadowing query :
  In (ii_intent (parse_query_intent query))
     [lit "ingest"; lit "manage"; lit "search"; lit "chat"] /\
  ii_intent (parse_query_intent query) <> lit "error" /\
  (contains (lit "show me") (lower query) = true ->
   ii_intent (parse_query_intent query) <> lit "search").
Proof.
  unfold parse_query_intent. cbn [ii_intent].
  destruct (_ || _ || _).
  { repeat split; simpl; auto; discriminate. }
  destruct (any_in management_patterns (lower query)) eqn:Hm.
  { repeat split; simpl; auto; discriminate. }
  assert (Hshow : contains (lit "show me") (lower query) = true -> False).
  { intros H. change (lit "show me") with (lit "show" ++ lit " me") in H.
    apply contains_app in H.
    assert (any_in management_patterns (lower query) = true).
    { apply (any_in_hit _ (lit "show")); auto; simpl; auto. }
    congruence. }
  destruct (any_in search_patterns (lower query)).
  - repeat split; simpl; auto; try discriminate;
      try (intros H; now apply Hshow in H).
  - repeat split; simpl; auto; discriminate.
Qed.

End DirectoryFacts.

(* ================================================================= *)
(** ** Routing and the shape of a run *)

Module RunFacts.
Import GraphFacts.

Lemma str_eqb_eq a b : str_eqb a b = true <-> a = b.
Proof.
  unfold str_eqb. destruct (str_eq_dec a b); split; congruence.
Qed.

(** X6.  The router is total on every intent, known or not: the graph
    always finds its next node.  Ingestion, management and error go to
    their own node; every other intent, also an empty or unknown one,
    goes to retrieval. *)
Theorem routing_total state :
  exists n,
    edge query_analyzer state = Ok (Goto n) /\
    (intent state = lit "ingest" -> n = document_ingestor) /\
    (intent state = lit "manage" -> n = memory_manager) /\
    (intent state = lit "error" -> n = error_handler) /\
    (intent state <> lit "ingest" -> intent state <> lit "manage" ->
     intent state <> lit "error" -> n = semantic_retriever).
Proof.
  unfold edge, route_query, routing. cbn [dict_get].
  destruct (str_eqb (intent state) (lit "ingest")) eqn:H1.
  { apply str_eqb_eq in H1. exists document_ingestor. rewrite H1.
    repeat split; auto; try discriminate. congruence. }
  destruct (str_eqb (intent state) (lit "search")) eqn:H2.
  { apply str_eqb_eq in H2. exists semantic_retriever. rewrite H2.
    repeat split; auto; discriminate. }
  destruct (str_eqb (intent state) (lit "chat")) eqn:H3.
  { apply str_eqb_eq in H3. exists semantic_retriever. rewrite H3.
    repeat split; auto; discriminate. }
  destruct (str_eqb (intent state) (lit "manage")) eqn:H4.
  { apply str_eqb_eq in H4. exists memory_manager. rewrite H4.
    repeat split; auto; try discriminate. congruence. }
  destruct (str_eqb (intent state) (lit "error")) eqn:H5.
  { apply str_eqb_eq in H5. exists error_handler. rewrite H5.
    repeat split; auto; try discriminate. congruence. }
  exists semantic_retriever. split; [reflexivity|].
  assert (H1' : intent state <> lit "ingest")
    by (intros H; apply str_eqb_eq in H; congruence).
  assert (H4' : intent state <> lit "manage")
    by (intros H; apply str_eqb_eq in H; congruence).
  assert (H5' : intent state <> lit "error")
    by (intros H; apply str_eqb_eq in H; congruence).
  repeat split; auto; intros; congruence.
Qed.

Lemma ingest_status_range E storage state :
  In (processing_status (ingest_documents_node E storage state))
     [lit "no_documents"; lit "invalid_documents";
      lit "ingestion_complete"; lit "ingestion_error"].
Proof.
  unfold ingest_documents_node.
  destruct (ingest_documents_body E storage state) as [state'|e] eqn:H.
  - unfold ingest_documents_body, bind in H.
    repeat match type of H with
           | context [match ?x with _ => _ end] =>
               lazymatch x with
               | context [match _ with _ => _ end] => fail
               | _ => destruct x
               end
           end;
      try discriminate; injection H as <-; simpl; auto.
  - simpl. auto.
Qed.

Lemma manage_status_range E active storage state :
  In (processing_status (manage_memory_node E active storage state))
     [lit "memory_managed"; lit "management_error"].
Proof.
  unfold manage_memory_node.
  destruct (manage_memory_body E active storage state); simpl; auto.
Qed.

Lemma generate_status_range E h state :
  In (processing_status (snd (generate_response_node E h state)))
     [lit "response_generated"; lit "generation_error"].
Proof.
  unfold generate_response_node.
  destruct (llm_ainvoke E _); simpl; auto.
Qed.

(** X7.  Every run returns a final state before the step limit: it
    starts at the analyzer, executes two nodes, or four on the
    retrieval path, and ends in one of eight statuses; it never ends
    in [initialized], [analyzed], an intermediate retrieval status or
    [error_handled]. *)
Theorem run_shape E storage w state :
  let r := ainvoke E storage w state in
  exists final,
    outcome r = Ok final /\
    hd_error (visited r) = Some (query_analyzer, lit "analyzed") /\
    (length (visited r) = 2 \/ length (visited r) = 4) /\
    last (map snd (visited r)) [] = processing_status final /\
    In (processing_status final)
       [lit "no_documents"; lit "invalid_documents";
        lit "ingestion_complete"; lit "ingestion_error";
        lit "memory_managed"; lit "management_error";
        lit "response_generated"; lit "generation_error"].
Proof.
  intros r. unfold r.
  destruct (route_cases state) as [[_ H]|[[_ H]|[_ H]]].
  - rewrite (ainvoke_ingest _ _ _ _ H). eexists. split; [reflexivity|].
    repeat split; auto.
    assert (Hs : snd (wrap_ingest_documents E storage w
                        (analyze_query_node state))
                 = ingest_documents_node E storage (analyze_query_node state)).
    { unfold wrap_ingest_documents.
      destruct (memory_paths _); [destruct (load_retriever E _ _)|];
        reflexivity. }
    cbn [outcome]. rewrite Hs.
    pose proof (ingest_status_range E storage (analyze_query_node state)) as Hr.
    simpl in Hr. simpl. intuition.
  - rewrite (ainvoke_manage _ _ _ _ H). eexists. split; [reflexivity|].
    repeat split; auto.
    pose proof (manage_status_range E (active_memories w) storage
                  (analyze_query_node state)) as Hr.
    simpl in Hr. simpl. intuition.
  - rewrite (ainvoke_retrieve _ _ _ _ H). eexists. split; [reflexivity|].
    repeat split; auto.
    match goal with
    | |- In (processing_status (snd (generate_response_node ?E ?h ?s))) _ =>
        pose proof (generate_status_range E h s) as Hr
    end.
    simpl in Hr. simpl. intuition.
Qed.

End RunFacts.

(* ================================================================= *)
(** ** Ingestion: outcomes and registration *)

Module IngestionOutcomes.
Import IntentFacts IngestFacts HistoryFacts.

Lemma ingest_file_added E acc doc_path :
  ingest_file E acc doc_path
  = match added_chunks E doc_path with
    | Ok new_chunks =>
        {| enc_chunks := enc_chunks acc ++ new_chunks;
           enc_processed := enc_processed acc + 1;
           enc_failed := enc_failed acc |}
    | Raise _ =>
        {| enc_chunks := enc_chunks acc;
           enc_processed := enc_processed acc;
           enc_failed := enc_failed acc + 1 |}
    end.
Proof. reflexivity. Qed.

Lemma ingest_loop E : forall paths acc,
  let enc := fold_left (ingest_file E) paths acc in
  enc_chunks enc
  = enc_chunks acc
    ++ flat_map (fun p => chunks_or_none (added_chunks E p)) paths /\
  enc_failed enc
  = enc_failed acc
    + length (filter (fun p => raises (added_chunks E p)) paths) /\
  enc_processed enc
  = enc_processed acc
    + length (filter (fun p => negb (raises (added_chunks E p))) paths).
Proof.
  induction paths as [|p paths IH]; intros acc; cbn [fold_left].
  - simpl. rewrite app_nil_r. repeat split; auto; lia.
  - destruct (IH (ingest_file E acc p)) as (Hc & Hf & Hp).
    cbv zeta. rewrite Hc, Hf, Hp. rewrite ingest_file_added.
    cbn [flat_map filter].
    destruct (added_chunks E p) as [cs|e]; cbn [enc_chunks enc_failed
      enc_processed chunks_or_none raises negb length];
      rewrite <- ?app_assoc; repeat split; auto; lia.
Qed.

(** X8.  The loop over the documents tolerates failures: every
    document counts as processed or as failed, never both, and the
    failed ones are those whose reading or adding raises.  Taking a
    failed addition to add nothing, the chunks are those of the
    documents that did not fail, in order. *)
Theorem ingestion_counts E paths :
  let enc := fold_left (ingest_file E) paths fresh_encoder in
  enc_processed enc + enc_failed enc = length paths /\
  enc_failed enc = length (filter (fun p => raises (added_chunks E p)) paths) /\
  enc_chunks enc = flat_map (fun p => chunks_or_none (added_chunks E p)) paths.
Proof.
  destruct (ingest_loop E paths fresh_encoder) as (Hc & Hf & Hp).
  cbv zeta. rewrite Hc, Hf, Hp. cbn [fresh_encoder enc_chunks enc_failed
    enc_processed app Nat.add].
  repeat split.
  rewrite Nat.add_comm.
  apply (ValidateFacts.filter_split_length
           (fun p => raises (added_chunks E p))).
Qed.

Lemma wrap_without_memory E storage w state :
  memory_paths (ingest_documents_node E storage state) = None ->
  wrap_ingest_documents E storage w state
  = (w, ingest_documents_node E storage state).
Proof. intros H. unfold wrap_ingest_documents. now rewrite H. Qed.

(** X9.  Without a valid path nothing is ingested: the request ends
    as [no_documents] when no path was found and as
    [invalid_documents] when every path was rejected, never as
    [ingestion_complete]; no memory is produced and the registry is
    left alone. *)
Theorem no_valid_path_no_ingestion E storage w state :
  request_valid_paths E state = [] -> memory_paths state = None ->
  let state' := ingest_documents_node E storage state in
  (requested_paths E (query state) = [] ->
   processing_status state' = lit "no_documents" /\
   response state' = no_documents_response) /\
  (requested_paths E (query state) <> [] ->
   processing_status state' = lit "invalid_documents" /\
   response state'
   = invalid_documents_response
       (validate_file_paths E (requested_paths E (query state)))) /\
  processing_status state' <> lit "ingestion_complete" /\
  memory_paths state' = None /\
  wrap_ingest_documents E storage w state = (w, state').
Proof.
  unfold request_valid_paths. intros Hvalid Hnone.
  set (state' := ingest_documents_node E storage state).
  assert (Hnode :
    state'
    = if truthy (requested_paths E (query state)) then
        set_status (lit "invalid_documents")
          (set_response
             (invalid_documents_response
                (validate_file_paths E (requested_paths E (query state))))
             state)
      else
        set_status (lit "no_documents")
          (set_response no_documents_response state)).
  { unfold state', ingest_documents_node, ingest_documents_body.
    destruct (truthy (requested_paths E (query state))); cbn [negb]; auto.
    now rewrite Hvalid. }
  assert (Hmem : memory_paths state' = None).
  { rewrite Hnode. now destruct (truthy _). }
  split; [|split; [|split; [|split]]].
  - intros H. rewrite Hnode, H. now split.
  - intros H. rewrite Hnode, (truthy_true _ H). now split.
  - rewrite Hnode. destruct (truthy _); discriminate.
  - exact Hmem.
  - now apply wrap_without_memory.
Qed.

Lemma no_valid_path_no_ingestion_witness :
  let E := Demo.env [] (Demo.answering "unused") in
  let state' := ingest_documents_node E Demo.storage missing_file_request in
  (requested_paths E (query missing_file_request) = [] ->
   processing_status state' = lit "no_documents" /\
   response state' = no_documents_response) /\
  (requested_paths E (query missing_file_request) <> [] ->
   processing_status state' = lit "invalid_documents" /\
   response state'
   = invalid_documents_response
       (validate_file_paths E
          (requested_paths E (query missing_file_request)))) /\
  processing_status state' <> lit "ingestion_complete" /\
  memory_paths state' = None /\
  wrap_ingest_documents E Demo.storage Demo.empty_world missing_file_request
  = (Demo.empty_world, state').
Proof.
  intros E.
  apply (no_valid_path_no_ingestion E Demo.storage Demo.empty_world
           missing_file_request); reflexivity.
Defined.

End IngestionOutcomes.

(* ================================================================= *)
(** ** Ingestion: what gets registered *)

Module RegistrationFacts.
Import IntentFacts IngestFacts HistoryFacts.

Lemma request_chunks_loop E state :
  request_chunks E state
  = enc_chunks (fold_left (ingest_file E) (request_valid_paths E state)
                  {| enc_chunks := []; enc_processed := 0; enc_failed := 0 |}).
Proof. reflexivity. Qed.

(** The node when the documents gave content and the store accepted
    it. *)
Lemma ingest_success_state E storage state size :
  request_valid_paths E state <> [] ->
  encoder_new E = Ok tt ->
  request_chunks E state <> [] ->
  mkdir E storage = Ok tt ->
  build_video E (md_video (produced_memory E storage state))
    (md_index (produced_memory E storage state)) (request_chunks E state)
  = Ok tt ->
  stat_size_mb E (md_video (produced_memory E storage state)) = Ok size ->
  processing_status (ingest_documents_node E storage state)
  = lit "ingestion_complete" /\
  memory_paths (ingest_documents_node E storage state)
  = Some (produced_memory E storage state).
Proof.
  intros Hvalid Henc Hchunks Hmk Hbuild Hstat.
  unfold ingest_documents_node, ingest_documents_body.
  unfold request_valid_paths in Hvalid.
  rewrite (truthy_true _ (valid_needs_paths _ _ Hvalid)).
  rewrite (truthy_true _ Hvalid). cbn [negb].
  rewrite Henc. cbn [bind].
  rewrite request_chunks_loop in Hchunks, Hbuild.
  unfold request_valid_paths in Hchunks, Hbuild.
  rewrite (truthy_true _ Hchunks), Hmk. cbn [bind].
  unfold produced_memory, request_valid_paths in Hbuild, Hstat.
  cbn [md_video md_index] in Hbuild, Hstat.
  rewrite Hbuild. cbn [bind]. rewrite Hstat. cbn [bind].
  split; reflexivity.
Qed.

(** X10.  A successful ingestion produces one memory, named after the
    request, and the wrapper registers its retriever under that name
    without touching any other handle; when the new memory cannot be
    loaded the request still ends as [ingestion_complete], but nothing
    is registered. *)
Theorem successful_ingestion_registers E storage w state size :
  request_valid_paths E state <> [] ->
  encoder_new E = Ok tt ->
  request_chunks E state <> [] ->
  mkdir E storage = Ok tt ->
  build_video E (md_video (produced_memory E storage state))
    (md_index (produced_memory E storage state)) (request_chunks E state)
  = Ok tt ->
  stat_size_mb E (md_video (produced_memory E storage state)) = Ok size ->
  let memory := produced_memory E storage state in
  let w' := fst (wrap_ingest_documents E storage w state) in
  let state' := snd (wrap_ingest_documents E storage w state) in
  processing_status state' = lit "ingestion_complete" /\
  memory_paths state' = Some memory /\
  objects w' = objects w /\ session_data w' = session_data w /\
  match load_retriever E (md_video memory) (md_index memory) with
  | Ok retriever =>
      dict_get (active_memories w') (md_name memory) = Some retriever /\
      forall other,
        other <> md_name memory ->
        dict_get (active_memories w') other
        = dict_get (active_memories w) other
  | Raise _ => active_memories w' = active_memories w
  end.
Proof.
  intros Hvalid Henc Hchunks Hmk Hbuild Hstat.
  destruct (ingest_success_state E storage state size Hvalid Henc Hchunks
              Hmk Hbuild Hstat) as [Hstatus Hmem].
  cbv zeta. unfold wrap_ingest_documents. rewrite Hmem.
  destruct (load_retriever E _ _) as [retriever|e];
    cbn [fst snd objects session_data active_memories set_active_memories];
    repeat split; auto.
  - rewrite dict_get_set. now rewrite str_eqb_refl.
  - intros other Hother. rewrite dict_get_set.
    destruct (str_eqb other _) eqn:He; auto.
    unfold str_eqb in He. destruct (str_eq_dec other _); congruence.
Qed.

Lemma successful_ingestion_registers_witness :
  let memory := produced_memory text_file_env Demo.storage ingest_text_file in
  let w' := fst (wrap_ingest_documents text_file_env Demo.storage
                   Demo.empty_world ingest_text_file) in
  let state' := snd (wrap_ingest_documents text_file_env Demo.storage
                       Demo.empty_world ingest_text_file) in
  processing_status state' = lit "ingestion_complete" /\
  memory_paths state' = Some memory /\
  objects w' = objects Demo.empty_world /\
  session_data w' = session_data Demo.empty_world /\
  match load_retriever text_file_env (md_video memory) (md_index memory) with
  | Ok retriever =>
      dict_get (active_memories w') (md_name memory) = Some retriever /\
      forall other,
        other <> md_name memory ->
        dict_get (active_memories w') other
        = dict_get (active_memories Demo.empty_world) other
  | Raise _ => active_memories w' = active_memories Demo.empty_world
  end.
Proof.
  apply (successful_ingestion_registers text_file_env Demo.storage
           Demo.empty_world ingest_text_file 1%Q).
  - vm_compute. discriminate.
  - reflexivity.
  - vm_compute. discriminate.
  - reflexivity.
  - reflexivity.
  - reflexivity.
Defined.

(** X11.  When the store refuses to build the memory, the request ends
    as [ingestion_error] with the failure in the response and in
    [error_message]; no memory is produced and nothing is registered. *)
Theorem failed_build_reported E storage w state e :
  request_valid_paths E state <> [] ->
  encoder_new E = Ok tt ->
  request_chunks E state <> [] ->
  mkdir E storage = Ok tt ->
  build_video E (md_video (produced_memory E storage state))
    (md_index (produced_memory E storage state)) (request_chunks E state)
  = Raise e ->
  memory_paths state = None ->
  let state' := ingest_documents_node E storage state in
  processing_status state' = lit "ingestion_error" /\
  response state' = lit "❌ Error during document ingestion: " ++ e /\
  error_message state' = Some e /\
  memory_paths state' = None /\
  wrap_ingest_documents E storage w state = (w, state').
Proof.
  intros Hvalid Henc Hchunks Hmk Hbuild Hnone.
  assert (Hnode : ingest_documents_node E storage state
                  = set_error_message e
                      (set_status (lit "ingestion_error")
                         (set_response
                            (lit "❌ Error during document ingestion: " ++ e)
                            state))).
  { unfold ingest_documents_node, ingest_documents_body.
    unfold request_valid_paths in Hvalid.
    rewrite (truthy_true _ (valid_needs_paths _ _ Hvalid)).
    rewrite (truthy_true _ Hvalid). cbn [negb].
    rewrite Henc. cbn [bind].
    rewrite request_chunks_loop in Hchunks, Hbuild.
    unfold request_valid_paths in Hchunks, Hbuild.
    rewrite (truthy_true _ Hchunks), Hmk. cbn [bind].
    unfold produced_memory, request_valid_paths in Hbuild.
    cbn [md_video md_index] in Hbuild.
    rewrite Hbuild. reflexivity. }
  cbv zeta. rewrite Hnode. repeat split; auto.
  unfold wrap_ingest_documents. rewrite Hnode.
  cbn [memory_paths set_error_message set_status set_response].
  now rewrite Hnone.
Qed.

Lemma failed_build_reported_witness :
  let state' :=
    ingest_documents_node refusing_store_env Demo.storage ingest_text_file in
  processing_status state' = lit "ingestion_error" /\
  response state'
  = lit "❌ Error during document ingestion: " ++ lit "disk full" /\
  error_message state' = Some (lit "disk full") /\
  memory_paths state' = None /\
  wrap_ingest_documents refusing_store_env Demo.storage Demo.empty_world
    ingest_text_file
  = (Demo.empty_world, state').
Proof.
  apply (failed_build_reported refusing_store_env Demo.storage
           Demo.empty_world ingest_text_file (lit "disk full")).
  - vm_compute. discriminate.
  - reflexivity.
  - vm_compute. discriminate.
  - reflexivity.
  - reflexivity.
  - reflexivity.
Defined.

End RegistrationFacts.

(* ================================================================= *)
(** ** From retrieval to the prompt *)

Module PromptFacts.
Import RetrievalFacts.




Lemma retrieved_chunks_of active state :
  retrieved_chunks (retrieve_context_node active state)
  = firstn 10 (sort_desc (merged_chunks (query state) active)) /\
  query (retrieve_context_node active state) = query state.
Proof.
  destruct active as [|item active'] eqn:Ha.
  - now split.
  - rewrite retrieve_context_registered by discriminate. now split.
Qed.

Lemma assembled_prompt_cases E active state :
  response_prompt (assemble_context_node E (retrieve_context_node active state))
  = match sort_desc (merged_chunks (query state) active) with
    | [] => no_context_prompt (query state)
    | _ :: _ =>
        context_prompt (query state)
          [join (nl ++ nl)
             (context_blocks E
                (sort_desc (merged_chunks (query state) active)))]
    end.
Proof.
  destruct (retrieved_chunks_of active state) as [Hchunks Hquery].
  unfold assemble_context_node, context_blocks.
  rewrite Hchunks, firstn_firstn. cbn [Nat.min].
  destruct (sort_desc (merged_chunks (query state) active)) as [|c ranked];
    cbn [firstn truthy negb]; unfold response_prompt;
    cbn [processing_status context query set_status set_context truthy negb];
    now rewrite Hquery.
Qed.


End PromptFacts.

(* ================================================================= *)
(** ** Sessions: turns, isolation and the registry *)

Module TurnFacts.
Import GraphFacts HistoryFacts SessionFacts.

Lemma store_length : forall h l v, length (store h l v) = length h.
Proof.
  induction h as [|x h IH]; intros l v; simpl; auto.
  destruct l; simpl; auto.
Qed.

Lemma deref_store_other : forall h l l' v,
  l' <> l -> deref (store h l v) l' = deref h l'.
Proof.
  unfold deref. induction h as [|x h IH]; intros l l' v Hne; simpl; auto.
  destruct l as [|l], l' as [|l']; simpl; auto; try congruence.
Qed.

Lemma deref_app_old h x l : l < length h -> deref (h ++ x) l = deref h l.
Proof. intros H. unfold deref. now rewrite app_nth1. Qed.

Lemma deref_app_new h v : deref (h ++ [v]) (length h) = v.
Proof. unfold deref. rewrite app_nth2 by lia. now rewrite Nat.sub_diag. Qed.

Lemma str_eqb_neq a b : a <> b -> str_eqb a b = false.
Proof. intros H. unfold str_eqb. destruct (str_eq_dec a b); congruence. Qed.

(** The retrieval and assembly nodes read the query and nothing of the
    session. *)
Lemma assembled_messages E active state :
  messages (assemble_context_node E
              (retrieve_context_node active (analyze_query_node state)))
  = messages state.
Proof.
  unfold assemble_context_node.
  destruct (negb (truthy (retrieved_chunks _)));
    unfold retrieve_context_node; destruct (negb (truthy active));
    reflexivity.
Qed.

Lemma assembled_prompt E w l user_input sid :
  response_prompt
    (assemble_context_node E
       (retrieve_context_node (active_memories w)
          (analyze_query_node (initial_state l user_input sid))))
  = turn_prompt E w user_input.
Proof.
  unfold turn_prompt. now rewrite !PromptFacts.assembled_prompt_cases.
Qed.

(** What the generator does to the heap and to the request. *)
Lemma generate_effect E h state :
  messages state < length h ->
  let old := deref h (messages state) in
  let prompt := HumanMessage (response_prompt state) in
  generate_response_node E h state
  = match llm_ainvoke E (old ++ [prompt]) with
    | Ok answer =>
        (store h (messages state) (old ++ [prompt])
         ++ [(old ++ [prompt]) ++ [AIMessage answer]],
         set_status (lit "response_generated")
           (set_messages (length h) (set_response answer state)))
    | Raise e =>
        (store h (messages state) (old ++ [prompt]),
         set_error_message e
           (set_status (lit "generation_error")
              (set_response (lit "❌ Error generating response: " ++ e)
                 state)))
    end.
Proof.
  intros Hl old prompt. unfold generate_response_node.
  rewrite (deref_store_same _ _ _ Hl). fold old. fold prompt.
  destruct (llm_ainvoke E (old ++ [prompt])); auto.
  unfold alloc. now rewrite store_length.
Qed.

Lemma open_session_sound w sid :
  sessions_sound w ->
  sessions_sound (fst (open_session w sid)) /\
  dict_get (session_data (fst (open_session w sid))) sid
  = Some (snd (open_session w sid)).
Proof.
  intros [Hvalid Hinj]. unfold open_session.
  destruct (dict_get (session_data w) sid) as [l|] eqn:Hget.
  - simpl. repeat split; auto.
  - unfold alloc.
    cbn [fst snd session_data objects set_session_data set_objects].
    rewrite dict_get_set, str_eqb_refl. split; [|reflexivity].
    split.
    + intros sid' l'.
      cbn [session_data objects set_session_data set_objects].
      rewrite dict_get_set, length_app. simpl.
      destruct (str_eqb sid' sid).
      * intros H. injection H as <-. lia.
      * intros H. apply Hvalid in H. lia.
    + intros sid1 sid2 l'.
      cbn [session_data objects set_session_data set_objects].
      rewrite !dict_get_set.
      destruct (str_eqb sid1 sid) eqn:H1, (str_eqb sid2 sid) eqn:H2.
      * apply RunFacts.str_eqb_eq in H1, H2. congruence.
      * intros Ha Hb. injection Ha as <-. apply Hvalid in Hb. lia.
      * intros Ha Hb. injection Hb as <-. apply Hvalid in Ha. lia.
      * apply Hinj.
Qed.

(** The world a retrieval request leaves, told through the histories. *)
Lemma retrieval_request_effect E storage w user_input sid :
  sessions_sound w ->
  route_query (analyze_query_node (initial_state 0 user_input sid))
  = lit "semantic_retriever" ->
  let old := history w sid in
  let prompt := HumanMessage (turn_prompt E w user_input) in
  let w' := fst (agent_query E storage w user_input sid) in
  let answer := snd (agent_query E storage w user_input sid) in
  match llm_ainvoke E (old ++ [prompt]) with
  | Ok text =>
      answer = text /\ history w' sid = old ++ [prompt; AIMessage text]
  | Raise e =>
      answer = lit "❌ Error generating response: " ++ e /\
      history w' sid = old ++ [prompt]
  end /\
  (forall sid', sid' <> sid -> history w' sid' = history w sid') /\
  sessions_sound w' /\ active_memories w' = active_memories w.
Proof.
  intros Hsound Hroute old prompt.
  pose proof (open_session_history w sid) as Hopen.
  pose proof (open_session_sound w sid Hsound) as Hsound1.
  unfold agent_query, query_run.
  destruct (open_session w sid) as [w1 l]. cbn [fst snd] in Hopen, Hsound1.
  destruct Hopen as (Hget & Hact & Hhist).
  destruct Hsound1 as [[Hvalid Hinj] _].
  assert (Hr : route_query (analyze_query_node
                              (initial_state l user_input sid))
               = lit "semantic_retriever") by exact Hroute.
  rewrite (ainvoke_retrieve _ _ _ _ Hr). cbn [outcome world_after].
  set (assembled :=
         assemble_context_node E
           (retrieve_context_node (active_memories w1)
              (analyze_query_node (initial_state l user_input sid)))).
  assert (Hm : messages assembled = l) by apply assembled_messages.
  assert (Hl : l < length (objects w1)) by (now apply (Hvalid sid)).
  assert (Hp : response_prompt assembled = turn_prompt E w user_input).
  { unfold assembled. rewrite assembled_prompt. unfold turn_prompt.
    now rewrite Hact. }
  assert (Hold : deref (objects w1) l = old).
  { unfold old. rewrite <- Hhist. unfold history. now rewrite Hget. }
  assert (Hl' : messages assembled < length (objects w1)) by (now rewrite Hm).
  rewrite (generate_effect E (objects w1) assembled Hl').
  rewrite Hm, Hp, Hold. fold prompt.
  destruct (llm_ainvoke E (old ++ [prompt])) as [text|e];
    cbn [fst snd response messages set_status set_messages set_response
         set_error_message].
  - (* the model answered: a fresh list holds the two new turns *)
    repeat split.
    + unfold history.
      cbn [session_data objects set_session_data set_objects].
      rewrite dict_get_set, str_eqb_refl.
      rewrite <- (store_length (objects w1) l (old ++ [prompt])).
      rewrite deref_app_new. now rewrite <- app_assoc.
    + intros sid' Hne. rewrite <- Hhist. unfold history.
      cbn [session_data objects set_session_data set_objects].
      rewrite dict_get_set, (str_eqb_neq _ _ Hne).
      destruct (dict_get (session_data w1) sid') as [l'|] eqn:Hget'; auto.
      rewrite deref_app_old
        by (rewrite store_length; now apply (Hvalid sid')).
      apply deref_store_other. intros ->. apply Hne.
      now apply (Hinj sid' sid l).
    + intros sid' l'.
      cbn [session_data objects set_session_data set_objects].
      rewrite dict_get_set, length_app, store_length. simpl.
      destruct (str_eqb sid' sid).
      * intros H. injection H as <-. lia.
      * intros H. apply Hvalid in H. lia.
    + intros sid1 sid2 l'.
      cbn [session_data objects set_session_data set_objects].
      rewrite !dict_get_set.
      destruct (str_eqb sid1 sid) eqn:H1, (str_eqb sid2 sid) eqn:H2.
      * apply RunFacts.str_eqb_eq in H1, H2. congruence.
      * intros Ha Hb. injection Ha as <-. apply Hvalid in Hb. lia.
      * intros Ha Hb. injection Hb as <-. apply Hvalid in Ha. lia.
      * apply Hinj.
    + exact Hact.
  - (* the call raised: the prompt stays in the session's own list *)
    rewrite ?Hm. repeat split.
    + unfold history.
      cbn [session_data objects set_session_data set_objects].
      rewrite dict_get_set, str_eqb_refl. now apply deref_store_same.
    + intros sid' Hne. rewrite <- Hhist. unfold history.
      cbn [session_data objects set_session_data set_objects].
      rewrite dict_get_set, (str_eqb_neq _ _ Hne).
      destruct (dict_get (session_data w1) sid') as [l'|] eqn:Hget'; auto.
      apply deref_store_other. intros ->. apply Hne.
      now apply (Hinj sid' sid l).
    + intros sid' l'.
      cbn [session_data objects set_session_data set_objects].
      rewrite dict_get_set, store_length.
      destruct (str_eqb sid' sid).
      * intros H. injection H as <-. exact Hl.
      * apply Hvalid.
    + intros sid1 sid2 l'.
      cbn [session_data objects set_session_data set_objects].
      rewrite !dict_get_set.
      destruct (str_eqb sid1 sid) eqn:H1, (str_eqb sid2 sid) eqn:H2.
      * apply RunFacts.str_eqb_eq in H1, H2. congruence.
      * apply RunFacts.str_eqb_eq in H1. subst sid1.
        intros Ha Hb. injection Ha as <-. now apply (Hinj sid sid2 l).
      * apply RunFacts.str_eqb_eq in H2. subst sid2.
        intros Ha Hb. injection Hb as <-. now apply (Hinj sid1 sid l).
      * apply Hinj.
    + exact Hact.
Qed.

End TurnFacts.

(* ================================================================= *)
(** ** Every request: histories grow, sessions stay apart *)

Module SessionInvariants.
Import GraphFacts HistoryFacts SessionFacts TurnFacts.

Lemma empty_world_sound : sessions_sound Demo.empty_world.
Proof. split; intros; discriminate. Qed.

Lemma search_or_chat_routes user_input sid :
  ii_intent (parse_query_intent user_input) = lit "search" \/
  ii_intent (parse_query_intent user_input) = lit "chat" ->
  route_query (analyze_query_node (initial_state 0 user_input sid))
  = lit "semantic_retriever".
Proof.
  intros Hintent.
  destruct (route_cases (initial_state 0 user_input sid))
    as [[H _]|[[H _]|[_ H]]]; auto;
    change (intent (analyze_query_node (initial_state 0 user_input sid)))
      with (ii_intent (parse_query_intent user_input)) in H;
    destruct Hintent as [H'|H']; rewrite H' in H; discriminate.
Qed.

(** X13.  A search or chat request adds exactly one exchange to its
    session: the prompt and the answer of the model, which is also the
    text returned.  The model sees the whole earlier history followed
    by the prompt.  When the call raises only the prompt is added and
    the failure is returned as text. *)
Theorem question_adds_turn E storage w user_input sid :
  sessions_sound w ->
  ii_intent (parse_query_intent user_input) = lit "search" \/
  ii_intent (parse_query_intent user_input) = lit "chat" ->
  let old := history w sid in
  let prompt := HumanMessage (turn_prompt E w user_input) in
  let w' := fst (agent_query E storage w user_input sid) in
  let answer := snd (agent_query E storage w user_input sid) in
  match llm_ainvoke E (old ++ [prompt]) with
  | Ok text =>
      answer = text /\ history w' sid = old ++ [prompt; AIMessage text]
  | Raise e =>
      answer = lit "❌ Error generating response: " ++ e /\
      history w' sid = old ++ [prompt]
  end.
Proof.
  intros Hsound Hintent.
  apply (retrieval_request_effect E storage w user_input sid Hsound
           (search_or_chat_routes user_input sid Hintent)).
Qed.

Lemma question_adds_turn_witness :
  let E := Demo.env [] (Demo.answering "Please add documents.") in
  let user_input := lit "What is machine learning?" in
  let sid := lit "default" in
  let old := history Demo.empty_world sid in
  let prompt := HumanMessage (turn_prompt E Demo.empty_world user_input) in
  let w' := fst (agent_query E Demo.storage Demo.empty_world user_input sid) in
  let answer :=
    snd (agent_query E Demo.storage Demo.empty_world user_input sid) in
  match llm_ainvoke E (old ++ [prompt]) with
  | Ok text =>
      answer = text /\ history w' sid = old ++ [prompt; AIMessage text]
  | Raise e =>
      answer = lit "❌ Error generating response: " ++ e /\
      history w' sid = old ++ [prompt]
  end.
Proof.
  intros E user_input sid.
  apply (question_adds_turn E Demo.storage Demo.empty_world user_input sid).
  - exact empty_world_sound.
  - left. vm_compute. reflexivity.
Defined.

Lemma write_back_sound w wa sid l :
  sessions_sound w -> dict_get (session_data w) sid = Some l ->
  objects wa = objects w -> session_data wa = session_data w ->
  sessions_sound (set_session_data (dict_set (session_data wa) sid l) wa).
Proof.
  intros [Hvalid Hinj] Hget Hobj Hsd.
  assert (Hsame : forall sid',
             dict_get (dict_set (session_data wa) sid l) sid'
             = dict_get (session_data w) sid').
  { intros sid'. rewrite Hsd, dict_get_set.
    destruct (str_eqb sid' sid) eqn:He; auto.
    apply RunFacts.str_eqb_eq in He. now subst. }
  split.
  - intros sid' l'. cbn [session_data objects set_session_data].
    rewrite Hsame, Hobj. apply Hvalid.
  - intros sid1 sid2 l'. cbn [session_data set_session_data].
    rewrite !Hsame. apply Hinj.
Qed.

(** A request outside the retrieval path: the world it leaves. *)
Lemma turnless_request_effect E storage w user_input sid :
  sessions_sound w ->
  route_query (analyze_query_node (initial_state 0 user_input sid))
  <> lit "semantic_retriever" ->
  let w' := fst (agent_query E storage w user_input sid) in
  (forall sid', history w' sid' = history w sid') /\ sessions_sound w'.
Proof.
  intros Hsound Hroute.
  pose proof (open_session_history w sid) as Hopen.
  pose proof (open_session_sound w sid Hsound) as Hsound1.
  unfold agent_query, query_run.
  destruct (open_session w sid) as [w1 l]. cbn [fst snd] in Hopen, Hsound1.
  destruct Hopen as (Hget & _ & Hhist). destruct Hsound1 as [Hs1 _].
  set (state := initial_state l user_input sid).
  destruct (route_cases state) as [[_ H]|[[_ H]|[_ H]]].
  - rewrite (ainvoke_ingest _ _ _ _ H). cbn [outcome world_after fst snd].
    destruct (turnless_node_frame E storage document_ingestor w1
                (analyze_query_node state)) as (Ho & Hs & Hm);
      [left; reflexivity|].
    cbn [run_node] in Ho, Hs, Hm. rewrite Hm.
    split.
    + intros sid'. rewrite <- Hhist. now apply history_write_back.
    + now apply (write_back_sound w1).
  - rewrite (ainvoke_manage _ _ _ _ H). cbn [outcome world_after fst snd].
    rewrite manage_keeps_messages.
    split.
    + intros sid'. rewrite <- Hhist. now apply history_write_back.
    + now apply (write_back_sound w1).
  - exfalso. apply Hroute. exact H.
Qed.

(** X14.  Whatever the request, a session's history only grows, by at
    most two turns; the histories of all other sessions stay as they
    are; and the sessions keep referring to list objects of their own. *)
Theorem histories_append_only E storage w user_input sid :
  sessions_sound w ->
  let w' := fst (agent_query E storage w user_input sid) in
  sessions_sound w' /\
  (forall sid', sid' <> sid -> history w' sid' = history w sid') /\
  exists added,
    history w' sid = history w sid ++ added /\ length added <= 2.
Proof.
  intros Hsound.
  destruct (str_eq_dec
              (route_query
                 (analyze_query_node (initial_state 0 user_input sid)))
              (lit "semantic_retriever")) as [Hroute|Hroute].
  - destruct (retrieval_request_effect E storage w user_input sid Hsound
                Hroute) as (Hturn & Hother & Hs & _).
    cbv zeta in *. repeat split; try apply Hs; auto.
    destruct (llm_ainvoke E _) as [text|e]; destruct Hturn as [_ Hturn];
      eexists; (split; [exact Hturn|simpl; lia]).
  - destruct (turnless_request_effect E storage w user_input sid Hsound
                Hroute) as [Hsame Hs].
    cbv zeta in *. repeat split; try apply Hs; auto.
    exists []. rewrite app_nil_r. split; auto.
Qed.

Lemma histories_append_only_witness :
  let E := Demo.env [] (Demo.answering "Please add documents.") in
  let w' :=
    fst (agent_query E Demo.storage Demo.empty_world
           (lit "What is machine learning?") (lit "default")) in
  sessions_sound w' /\
  (forall sid',
      sid' <> lit "default" ->
      history w' sid' = history Demo.empty_world sid') /\
  exists added,
    history w' (lit "default")
    = history Demo.empty_world (lit "default") ++ added /\
    length added <= 2.
Proof.
  intros E.
  apply (histories_append_only E Demo.storage Demo.empty_world
           (lit "What is machine learning?") (lit "default")).
  exact empty_world_sound.
Defined.

(** X15.  No request removes a memory handle: whatever was registered
    before [query] is registered after it, and a request that is not
    an ingestion leaves the registry exactly as it was. *)
Theorem registry_only_grows E storage w user_input sid :
  let w' := fst (agent_query E storage w user_input sid) in
  (forall name,
      dict_get (active_memories w) name <> None ->
      dict_get (active_memories w') name <> None) /\
  (ii_intent (parse_query_intent user_input) <> lit "ingest" ->
   active_memories w' = active_memories w).
Proof.
  pose proof (open_session_history w sid) as Hopen.
  unfold agent_query, query_run.
  destruct (open_session w sid) as [w1 l]. cbn [fst snd] in Hopen.
  destruct Hopen as (_ & Hact & _).
  set (state := initial_state l user_input sid).
  assert (Hi : intent (analyze_query_node state)
               = ii_intent (parse_query_intent user_input)) by reflexivity.
  destruct (route_cases state) as [[Hin H]|[[_ H]|[_ H]]].
  - rewrite (ainvoke_ingest _ _ _ _ H).
    cbn [outcome world_after fst snd active_memories set_session_data].
    split; [|intros Hne; rewrite Hi in Hin; congruence].
    intros name Hname. rewrite <- Hact in Hname.
    unfold wrap_ingest_documents.
    destruct (memory_paths _) as [paths|]; [|exact Hname].
    destruct (load_retriever E _ _) as [retriever|e]; [|exact Hname].
    cbn [fst active_memories set_active_memories].
    rewrite dict_get_set. now destruct (str_eqb name (md_name paths)).
  - rewrite (ainvoke_manage _ _ _ _ H).
    cbn [outcome world_after fst snd active_memories set_session_data].
    rewrite Hact. split; auto.
  - rewrite (ainvoke_retrieve _ _ _ _ H).
    cbn [outcome world_after fst snd active_memories set_session_data
         set_objects].
    rewrite Hact. split; auto.
Qed.

End SessionInvariants.

(* ================================================================= *)
(** ** Memory management and the error handler *)

Module ManageFacts.

Lemma list_memory_lines E storage : forall active memory_info,
  fold_left (list_memory E storage) active memory_info
  = memory_info
    ++ map (listing_line E storage) (filter (video_exists E storage) active).
Proof.
  induction active as [|item active IH]; intros memory_info;
    cbn [fold_left filter map].
  - now rewrite app_nil_r.
  - rewrite IH. unfold list_memory, video_exists, listing_line.
    destruct (path_exists E _); [|reflexivity].
    cbn [map].
    destruct (stat_size_mb E _); now rewrite <- !app_assoc.
Qed.

(** X16.  A listing request never fails.  Without memories the answer
    is the fixed hint, whatever the storage holds; otherwise the
    listing has, in registry order, one line for each registered
    memory whose video file exists: the name with the size of the file,
    or with [(stats unavailable)] when the size cannot be read.  A
    memory whose file is missing is left out. *)
Theorem listing_never_fails E active storage state :
  asks_listing state = true ->
  let state' := manage_memory_node E active storage state in
  processing_status state' = lit "memory_managed" /\
  error_message state' = error_message state /\
  (active = [] -> response state' = no_stores_response) /\
  (active <> [] ->
   response state'
   = lit "📁 **Active Memory Stores:**" ++ nl
     ++ join nl (map (listing_line E storage)
                   (filter (video_exists E storage) active))).
Proof.
  unfold asks_listing. intros Hlist.
  unfold manage_memory_node, manage_memory_body. rewrite Hlist.
  destruct active as [|item active]; cbn [truthy].
  - repeat split; auto. intros H. congruence.
  - repeat split; auto; try discriminate.
    intros _. now rewrite list_memory_lines.
Qed.

Lemma listing_never_fails_witness :
  let state' :=
    manage_memory_node listing_env three_memories Demo.storage list_request in
  processing_status state' = lit "memory_managed" /\
  error_message state' = error_message list_request /\
  (three_memories = [] -> response state' = no_stores_response) /\
  (three_memories <> [] ->
   response state'
   = lit "📁 **Active Memory Stores:**" ++ nl
     ++ join nl (map (listing_line listing_env Demo.storage)
                   (filter (video_exists listing_env Demo.storage)
                      three_memories))).
Proof.
  apply (listing_never_fails listing_env three_memories Demo.storage
           list_request).
  vm_compute. reflexivity.
Defined.

(** The listing of the scenario: the first memory with its size, the
    second without, the third left out. *)
Lemma listing_scenario :
  response
    (manage_memory_node listing_env three_memories Demo.storage list_request)
  = lit "📁 **Active Memory Stores:**" ++ nl
    ++ lit "• **a**: 1.5 MB" ++ nl
    ++ lit "• **b**: (stats unavailable)".
Proof. vm_compute. reflexivity. Qed.

Lemma split_head_idempotent sep : forall s,
  split_head sep (split_head sep s) = split_head sep s.
Proof.
  induction s as [|c s IH]; simpl; auto.
  destruct (Ascii.eqb c sep) eqn:Hc; simpl; auto.
  now rewrite Hc, IH.
Qed.

Lemma dict_get_In {V} (d : dict V) key v :
  dict_get d key = Some v -> In v (map snd d).
Proof.
  induction d as [|[k w] d IH]; simpl; [discriminate|].
  destruct (str_eqb key k); intros H; [injection H as ->|]; auto.
Qed.

(** X17.  The error handler always ends in [error_handled] and touches
    nothing but the response and the status.  Its explanation only
    depends on the status up to the first colon; unless debug output
    is asked for and an error was captured, the response is one of the
    seven fixed explanations. *)
Theorem error_handler_explains state :
  let state' := handle_errors_node state in
  processing_status state' = lit "error_handled" /\
  messages state' = messages state /\
  error_message state' = error_message state /\
  memory_paths state' = memory_paths state /\
  response (handle_errors_node
              (set_status (split_head ":" (processing_status state)) state))
  = response state' /\
  (truthy_opt (error_message state)
   && contains (lit "debug") (lower (query state)) = false ->
   In (response state') error_explanations).
Proof.
  cbv zeta. unfold handle_errors_node.
  cbn [processing_status messages error_message memory_paths response query
       set_status set_response].
  rewrite split_head_idempotent.
  repeat split.
  intros Hdebug. rewrite Hdebug. unfold error_explanations.
  apply in_or_app.
  destruct (dict_get error_responses _) as [r|] eqn:Hr.
  - left. eapply dict_get_In; eauto.
  - right. now left.
Qed.

End ManageFacts.

(* ================================================================= *)
(** ** The request that [ingest_documents] builds *)

Module ConvenienceFacts.
Import ReFacts ToolsFacts IntentFacts RequoteFacts RequoteTheorems.

Lemma startswith_app_r n s t :
  startswith n s = true -> startswith n (s ++ t) = true.
Proof.
  revert s. induction n as [|x n IH]; intros s H; auto.
  destruct s as [|y s]; simpl in *; [discriminate|].
  apply andb_prop in H. destruct H as [Hx H]. rewrite Hx. now apply IH.
Qed.

Lemma contains_app_r n s t :
  contains n s = true -> contains n (s ++ t) = true.
Proof.
  induction s as [|c s IH]; intros H.
  - cbn [contains] in H. rewrite orb_false_r in H.
    destruct n; [|discriminate]. destruct t; reflexivity.
  - cbn [contains] in H. cbn [app contains].
    apply orb_prop in H. destruct H as [H|H].
    + apply (startswith_app_r _ _ t) in H. cbn [app] in H. now rewrite H.
    + rewrite (IH H). apply orb_true_r.
Qed.

(** A stretch without the quote is passed over. *)
Lemma scan_quoted_prefix q : forall pre seen s,
  forallb (not_chr q) pre = true ->
  scan (quoted_pattern q) 0 seen (pre ++ s)
  = scan (quoted_pattern q) 0 (rev pre ++ seen) s.
Proof.
  induction pre as [|c pre IH]; intros seen s H; auto.
  simpl in H. apply andb_prop in H. destruct H as [Hc Hpre].
  cbn [app]. rewrite scan_miss by (apply quoted_miss; now apply not_chr_true).
  rewrite IH by exact Hpre. cbn [rev]. now rewrite <- app_assoc.
Qed.

Lemma ingest_request_captures paths :
  Forall plain_path paths ->
  forall x, In x (quoted_captures (ingest_request paths)) <-> In x paths.
Proof.
  intros Hp x. unfold quoted_captures, quoted_patterns, ingest_request.
  cbn [flat_map]. rewrite app_nil_r, in_app_iff.
  rewrite <- requote_dquote.
  assert (Hd : findall (quoted_pattern dquote)
                 (lit "Please ingest these documents: "
                  ++ requote dquote paths) = paths).
  { unfold findall. rewrite scan_quoted_prefix by reflexivity.
    apply findall_requote; try reflexivity; try discriminate.
    eapply Forall_impl; [|exact Hp]. intros p.
    apply plain_quotable. now left. }
  assert (Hs : findall (quoted_pattern squote)
                 (lit "Please ingest these documents: "
                  ++ requote dquote paths) = []).
  { unfold findall. rewrite scan_quoted_none; auto.
    rewrite forallb_app. apply andb_true_intro. split; [reflexivity|].
    apply forallb_requote; try reflexivity.
    eapply Forall_impl; [|exact Hp]. intros p.
    apply plain_avoids. now right. }
  rewrite Hd, Hs. simpl. tauto.
Qed.

(** X18.  The request built from a list of paths is always classified
    as an ingestion; and when the paths are plain, the paths extracted
    from it are exactly the given ones, without the blanks around
    them. *)
Theorem ingest_request_carries_paths paths :
  ii_intent (parse_query_intent (ingest_request paths)) = lit "ingest" /\
  (Forall plain_path paths ->
   forall x,
     In x (extract_document_paths (ingest_request paths))
     <-> In x (map strip paths)).
Proof.
  split.
  - unfold parse_query_intent. cbn [ii_intent].
    assert (Hk : any_in ingestion_patterns (lower (ingest_request paths))
                 = true).
    { unfold any_in. apply existsb_exists. exists (lit "ingest").
      split; [now left|].
      unfold ingest_request, lower. rewrite map_app.
      apply contains_app_r. reflexivity. }
    now rewrite Hk.
  - intros Hp x.
    destruct paths as [|p0 paths0] eqn:Hshape.
    { vm_compute. tauto. }
    rewrite <- Hshape in *.
    assert (Hne : paths <> []) by (subst paths; discriminate).
    clear Hshape p0 paths0.
    pose proof (ingest_request_captures paths Hp) as Hfind.
    unfold extract_document_paths.
    fold (quoted_captures (ingest_request paths)).
    assert (Hfound : quoted_captures (ingest_request paths) <> []).
    { destruct paths as [|p paths']; [congruence|].
      intros H. destruct (Hfind p) as [_ Hin]. rewrite H in Hin.
      apply Hin. now left. }
    rewrite (truthy_true _ Hfound).
    assert (Hdotted : forall g,
               In g (quoted_captures (ingest_request paths)) -> dotted g).
    { intros g Hg. apply Hfind in Hg. rewrite Forall_forall in Hp.
      now destruct (Hp g Hg). }
    rewrite clean_dotted by exact Hdotted.
    unfold list_set. rewrite nodup_In, !in_map_iff.
    split; intros (g & Hg & Hin); exists g; (split; [exact Hg|]).
    + destruct (Hfind g) as [Hto _]. exact (Hto Hin).
    + destruct (Hfind g) as [_ Hfrom]. exact (Hfrom Hin).
Qed.

End ConvenienceFacts.

(* ================================================================= *)
(** ** Loading the persisted memories *)

Module LoadFacts.
Import HistoryFacts.

Lemma dict_get_keys {V} (d : dict V) name :
  In name (map fst d) <-> dict_get d name <> None.
Proof.
  induction d as [|[k v] d IH]; simpl.
  - split; [tauto|congruence].
  - destruct (str_eqb name k) eqn:He.
    + apply RunFacts.str_eqb_eq in He. subst. split; [discriminate|auto].
    + rewrite <- IH. split; [|tauto].
      intros [H|H]; auto. subst.
      now rewrite str_eqb_refl in He.
Qed.

Lemma dict_set_keys {V} (d : dict V) key v name :
  In name (map fst (dict_set d key v)) <-> name = key \/ In name (map fst d).
Proof.
  rewrite !dict_get_keys, dict_get_set.
  destruct (str_eqb name key) eqn:He.
  - apply RunFacts.str_eqb_eq in He. split; [auto|discriminate].
  - split; [auto|]. intros [H|H]; auto. subst.
    now rewrite str_eqb_refl in He.
Qed.

(** Two dicts with the same keys keep the same keys under the same
    assignment. *)
Lemma dict_set_same_keys {V W} : forall (d1 : dict V) (d2 : dict W) key v w,
  map fst d1 = map fst d2 ->
  map fst (dict_set d1 key v) = map fst (dict_set d2 key w).
Proof.
  induction d1 as [|[k1 v1] d1 IH]; intros [|[k2 v2] d2] key v w H;
    simpl in *; try discriminate; auto.
  injection H as -> H.
  destruct (str_eqb key k2); simpl; f_equal; auto.
Qed.

Lemma load_memory_step E storage active loaded video_file :
  load_memory E storage (active, loaded) video_file
  = if loads E storage video_file then
      match
        load_retriever E video_file
          (path_join E storage (path_stem E video_file ++ lit "_index.json"))
      with
      | Ok retriever =>
          (dict_set active (path_stem E video_file) retriever,
           dict_set loaded (path_stem E video_file) video_file)
      | Raise _ => (active, loaded)
      end
    else (active, loaded).
Proof.
  unfold load_memory, loads.
  destruct (path_exists E _); simpl; auto.
  now destruct (load_retriever E _ _).
Qed.

Lemma load_loop E storage : forall video_files active loaded,
  let result :=
    fold_left (load_memory E storage) video_files (active, loaded) in
  (forall name,
      In name (map fst (fst result)) <->
      In name (map fst active) \/ discovered E storage video_files name) /\
  (map fst active = map fst loaded ->
   map fst (fst result) = map fst (snd result)).
Proof.
  induction video_files as [|video video_files IH]; intros active loaded.
  - simpl. split; auto. intros name. split; auto.
    intros [H|(v & [] & _)]; auto.
  - cbn [fold_left]. rewrite load_memory_step.
    destruct (loads E storage video) eqn:Hloads.
    + destruct (load_retriever E video _) as [retriever|e] eqn:Hload.
      * destruct (IH (dict_set active (path_stem E video) retriever)
                    (dict_set loaded (path_stem E video) video))
          as [Hkeys Hsame].
        cbv zeta in *. split.
        -- intros name. rewrite Hkeys, dict_set_keys. split.
           ++ intros [[->|H]|(v & Hv & Hl & Hs)]; auto.
              ** right. exists video. repeat split; auto. now left.
              ** right. exists v. repeat split; auto. now right.
           ++ intros [H|(v & [<-|Hv] & Hl & Hs)]; auto.
              right. exists v. auto.
        -- intros H. apply Hsame. now apply dict_set_same_keys.
      * unfold loads in Hloads. rewrite Hload in Hloads.
        simpl in Hloads. rewrite andb_false_r in Hloads. discriminate.
    + destruct (IH active loaded) as [Hkeys Hsame].
      cbv zeta in *. split; auto.
      intros name. rewrite Hkeys. split.
      * intros [H|(v & Hv & Hl & Hs)]; auto.
        right. exists v. repeat split; auto. now right.
      * intros [H|(v & [<-|Hv] & Hl & Hs)]; auto.
        -- congruence.
        -- right. exists v. auto.
Qed.

Lemma load_existing_listed E storage w video_files :
  glob_mp4 E storage = Ok video_files ->
  load_existing_memories E storage w
  = (set_active_memories
       (fst (fold_left (load_memory E storage) video_files
               (active_memories w, []))) w,
     snd (fold_left (load_memory E storage) video_files
            (active_memories w, []))).
Proof.
  intros Hlist. unfold load_existing_memories. rewrite Hlist.
  now destruct (fold_left _ _ _).
Qed.

Lemma load_existing_unlisted E storage w e :
  glob_mp4 E storage = Raise e -> load_existing_memories E storage w = (w, []).
Proof. intros Hlist. unfold load_existing_memories. now rewrite Hlist. Qed.

(** X19.  Loading the persisted memories keeps every handle that was
    registered and adds the stem of every listed video file whose
    index exists and whose retriever loads: a video that has no index
    or fails to load is skipped without stopping the others, and a
    failing listing changes nothing.  Sessions are not touched. *)
Theorem load_keeps_and_discovers E storage w :
  let w' := fst (load_existing_memories E storage w) in
  objects w' = objects w /\ session_data w' = session_data w /\
  match glob_mp4 E storage with
  | Ok video_files =>
      forall name,
        In name (list_memories w') <->
        In name (list_memories w) \/ discovered E storage video_files name
  | Raise _ => w' = w
  end.
Proof.
  unfold list_memories.
  destruct (glob_mp4 E storage) as [video_files|e] eqn:Hlist.
  - rewrite (load_existing_listed _ _ _ _ Hlist).
    cbn [fst objects session_data active_memories set_active_memories].
    split; [reflexivity|]. split; [reflexivity|].
    now destruct (load_loop E storage video_files (active_memories w) []).
  - rewrite (load_existing_unlisted _ _ _ _ Hlist). now repeat split.
Qed.

(** X20.  A reload forgets every handle and registers what is found in
    the storage directory: afterwards the registered names are exactly
    the stems of the listed video files that load, they are the keys
    of the returned dict, in the same order, and nothing is registered
    when the listing fails. *)
Theorem reload_registers_found E storage w :
  let w' := fst (reload_memories E storage w) in
  let loaded := snd (reload_memories E storage w) in
  list_memories w' = map fst loaded /\
  match glob_mp4 E storage with
  | Ok video_files =>
      forall name,
        In name (list_memories w') <-> discovered E storage video_files name
  | Raise _ => list_memories w' = [] /\ loaded = []
  end.
Proof.
  unfold reload_memories, list_memories.
  destruct (glob_mp4 E storage) as [video_files|e] eqn:Hlist.
  - rewrite (load_existing_listed _ _ _ _ Hlist).
    cbn [fst snd active_memories set_active_memories].
    destruct (load_loop E storage video_files [] []) as [Hkeys Hsame].
    split; [now apply Hsame|].
    intros name. destruct (Hkeys name) as [Hto Hfrom]. split.
    + intros H. destruct (Hto H) as [[]|Hd]. exact Hd.
    + intros H. apply Hfrom. now right.
  - rewrite (load_existing_unlisted _ _ _ _ Hlist). now repeat split.
Qed.

End LoadFacts.

(* ================================================================= *)
(** ** Choosing the model provider *)

Module SetupFacts.

Lemma truthy_false {A} (l : list A) : truthy l = false <-> l = [].
Proof. destruct l; simpl; split; congruence. Qed.

Lemma available_first config first more :
  get_available_providers config = first :: more ->
  In first supported_providers /\ get_api_key config first <> [].
Proof.
  unfold get_available_providers, validate_api_keys, get_api_key,
    supported_providers.
  cbn [filter snd map fst].
  destruct (OPENAI_API_KEY config) as [|c1 k1] eqn:H1;
    destruct (ANTHROPIC_API_KEY config) as [|c2 k2] eqn:H2;
    destruct (GOOGLE_API_KEY config) as [|c3 k3] eqn:H3;
    cbn [truthy map fst filter snd]; intros H; try discriminate;
    injection H as <- _; (split; [simpl; auto|vm_compute; discriminate]).
Qed.

Lemma no_provider_available config :
  get_available_providers config = [] <->
  OPENAI_API_KEY config = [] /\ ANTHROPIC_API_KEY config = [] /\
  GOOGLE_API_KEY config = [].
Proof.
  unfold get_available_providers, validate_api_keys.
  cbn [filter snd map fst].
  destruct (OPENAI_API_KEY config), (ANTHROPIC_API_KEY config),
    (GOOGLE_API_KEY config); cbn [truthy map fst filter snd];
    split; try discriminate; auto; intros (H1 & H2 & H3); discriminate.
Qed.

Lemma get_api_key_empty config provider :
  OPENAI_API_KEY config = [] -> ANTHROPIC_API_KEY config = [] ->
  GOOGLE_API_KEY config = [] -> get_api_key config provider = [].
Proof.
  intros H1 H2 H3. unfold get_api_key. rewrite H1, H2, H3. simpl.
  repeat destruct (str_eqb provider _); reflexivity.
Qed.

Lemma initialize_supported key provider model client :
  initialize_llm key provider model = Ok client ->
  In provider supported_providers.
Proof.
  unfold initialize_llm, supported_providers.
  destruct (str_eqb provider (lit "openai")) eqn:H1.
  { apply RunFacts.str_eqb_eq in H1. subst. simpl. auto. }
  destruct (str_eqb provider (lit "anthropic")) eqn:H2.
  { apply RunFacts.str_eqb_eq in H2. subst. simpl. auto. }
  destruct (str_eqb provider (lit "google")) eqn:H3.
  { apply RunFacts.str_eqb_eq in H3. subst. simpl. auto. }
  discriminate.
Qed.

(** X21.  The agent is only built with a supported provider and a
    non-empty key, and it keeps the model name it was given or the
    default one, also when it falls back to another provider.  The key
    selection fails exactly when no key is passed and none of the
    three provider keys is configured. *)
Theorem llm_setup_sound config provider_arg key_arg model_arg :
  (forall setup client,
      setup_llm config provider_arg key_arg model_arg = Ok (setup, client) ->
      api_key setup <> [] /\
      In (llm_provider setup) supported_providers /\
      model_name setup = or_else model_arg (DEFAULT_MODEL_NAME config)) /\
  (choose_llm config provider_arg key_arg model_arg = Raise no_keys_message
   <-> or_else key_arg [] = [] /\
       OPENAI_API_KEY config = [] /\ ANTHROPIC_API_KEY config = [] /\
       GOOGLE_API_KEY config = []).
Proof.
  split.
  - intros setup client. unfold setup_llm, bind.
    destruct (choose_llm config provider_arg key_arg model_arg)
      as [chosen|e] eqn:Hc; [|discriminate].
    destruct (initialize_llm _ _ _) as [made|e] eqn:Hi; [|discriminate].
    intros H. injection H as <- <-.
    split; [|split; [now apply initialize_supported in Hi|]].
    + unfold choose_llm in Hc.
      destruct (truthy (or_else key_arg _)) eqn:Hk; cbn [negb] in Hc.
      * injection Hc as <-. cbn [api_key]. intros H.
        apply truthy_false in H. congruence.
      * destruct (get_available_providers config) as [|first more] eqn:Ha;
          [discriminate|].
        injection Hc as <-. cbn [api_key].
        now destruct (available_first config first more Ha).
    + unfold choose_llm in Hc.
      destruct (negb (truthy _)); [destruct (get_available_providers config)|];
        try discriminate; now injection Hc as <-.
  - unfold choose_llm. split.
    + destruct (truthy (or_else key_arg _)) eqn:Hk; cbn [negb];
        [discriminate|].
      destruct (get_available_providers config) as [|first more] eqn:Ha;
        [|discriminate].
      intros _. apply no_provider_available in Ha.
      destruct Ha as (H1 & H2 & H3). repeat split; auto.
      apply truthy_false in Hk.
      destruct key_arg as [[|c k]|]; simpl in *; auto; discriminate.
    + intros (Hk & H1 & H2 & H3).
      assert (Hnone : or_else key_arg
                        (get_api_key config
                           (or_else provider_arg
                              (DEFAULT_LLM_PROVIDER config))) = []).
      { rewrite (get_api_key_empty config _ H1 H2 H3).
        destruct key_arg as [[|c k]|]; simpl in *; auto. }
      rewrite Hnone. cbn [truthy negb].
      assert (Ha : get_available_providers config = [])
        by (now apply no_provider_available).
      now rewrite Ha.
Qed.

End SetupFacts.

(* ================================================================= *)
(** ** Statistics and help *)

Module StatisticsFacts.

Lemma total_size_raises E : forall video_files total,
  raises (total_size E video_files total)
  = existsb (fun video_file => raises (stat_size_mb E video_file))
      video_files.
Proof.
  induction video_files as [|video_file more IH]; intros total; auto.
  cbn [total_size existsb]. unfold bind.
  destruct (stat_size_mb E video_file); cbn [raises orb]; auto.
Qed.

(** X22.  A management request ends as [memory_managed] or as
    [management_error], and it fails only in one way: it asks for
    statistics and not for a listing, some memory is registered, and
    the storage directory exists but its listing or the size of one of
    its video files cannot be read.  A request for statistics that
    also says [show] or [list] gets the listing; a request that names
    neither gets the help text; and the statistics count the
    registered memories, whatever the storage holds. *)
Theorem management_fails_only_on_sizes E active storage state :
  let state' := manage_memory_node E active storage state in
  (processing_status state' = lit "management_error" <->
   asks_listing state = false /\ asks_statistics state = true /\
   active <> [] /\ sizes_fail E storage = true) /\
  (processing_status state' = lit "management_error" \/
   processing_status state' = lit "memory_managed") /\
  (asks_listing state = false -> asks_statistics state = false ->
   response state' = help_response) /\
  (asks_listing state = false -> asks_statistics state = true ->
   active <> [] -> sizes_fail E storage = false ->
   exists total_size_mb,
     response state'
     = statistics_response E storage (length active) total_size_mb) /\
  messages state' = messages state /\
  memory_paths state' = memory_paths state.
Proof.
  unfold manage_memory_node, manage_memory_body, asks_listing,
    asks_statistics, sizes_fail.
  destruct (contains (lit "list") (lower (query state))
            || contains (lit "show") (lower (query state))) eqn:Hlist.
  { destruct (truthy active);
      cbn [processing_status set_status set_response response messages
           memory_paths];
      repeat split; try discriminate; auto;
      intros H; try (destruct H as (H & _)); discriminate. }
  destruct (contains (lit "stats") (lower (query state))
            || contains (lit "statistics") (lower (query state))) eqn:Hstats.
  2:{ cbn [processing_status set_status set_response response messages
           memory_paths].
      repeat split; try discriminate; auto.
      intros (_ & H & _). discriminate. }
  destruct active as [|item active]; cbn [truthy].
  { cbn [processing_status set_status set_response response messages
         memory_paths].
    repeat split; try discriminate; auto; try congruence.
    intros (_ & _ & H & _). congruence. }
  unfold bind.
  destruct (path_exists E storage); cbn [andb].
  2:{ cbn [processing_status set_status set_response response messages
           memory_paths].
      repeat split; try discriminate; auto.
      - intros (_ & _ & _ & H). discriminate.
      - intros _ _ _ _. eexists. reflexivity. }
  destruct (glob_mp4 E storage) as [video_files|e].
  2:{ cbn [processing_status set_status set_response set_error_message
           response messages memory_paths].
      repeat split; try discriminate; auto. }
  pose proof (total_size_raises E video_files 0%Q) as Hsum.
  destruct (total_size E video_files 0%Q) as [total|e];
    cbn [raises] in Hsum; rewrite <- Hsum;
    cbn [processing_status set_status set_response set_error_message
         response messages memory_paths];
    repeat split; try discriminate; auto.
  - intros (_ & _ & _ & H). discriminate.
  - intros _ _ _ _. eexists. reflexivity.
Qed.

End StatisticsFacts.

(* ================================================================= *)
(** ** Sizes for display *)

Module SizeFacts.

Lemma below_1024 (n : Z) (d : positive) :
  Qlt_bool (n # d) 1024 = (n <? 1024 * Z.pos d)%Z.
Proof.
  unfold Qlt_bool, Qle_bool. cbn [Qnum Qden].
  rewrite Z.mul_1_r.
  destruct (Z.leb_spec (1024 * Z.pos d) n), (Z.ltb_spec n (1024 * Z.pos d));
    auto; lia.
Qed.

Lemma shrink (n : Z) (d : positive) :
  ((n # d) / 1024)%Q = (n # (d * 1024)).
Proof.
  unfold Qdiv, Qmult, Qinv. cbn [Qnum Qden]. now rewrite Z.mul_1_r.
Qed.

(** The nearest integer is within one half, and between the integers
    around the quotient. *)
Lemma nearest_near (a d : Z) :
  (0 < d)%Z ->
  (Z.abs (a - nearest a d * d) * 2 <= d)%Z /\
  (a / d <= nearest a d <= a / d + 1)%Z /\
  (a mod d = 0 -> nearest a d = a / d)%Z.
Proof.
  intros Hd. unfold nearest.
  pose proof (Z.div_mod a d ltac:(lia)) as Ha.
  pose proof (Z.mod_pos_bound a d Hd) as Hr.
  destruct (Z.ltb_spec (2 * (a mod d)) d);
    [|destruct (Z.ltb_spec d (2 * (a mod d)));
      [|destruct (Z.even (a / d))]];
    repeat split; try lia.
Qed.

(** What [.1f] prints for a non-negative value [n / d]. *)
Lemma fmt_tenth_near (n : Z) (d : positive) :
  (0 <= n)%Z ->
  exists t,
    fmt_tenth (n # d) = tenths_text t /\
    (Z.abs (10 * n - t * Z.pos d) * 2 <= Z.pos d)%Z /\
    (forall m, (m * Z.pos d <= 10 * n)%Z -> (m <= t)%Z) /\
    (forall m, (10 * n < m * Z.pos d)%Z -> (t <= m)%Z).
Proof.
  intros Hn. exists (nearest (10 * n) (Z.pos d)).
  destruct (nearest_near (10 * n) (Z.pos d) ltac:(lia)) as (Hnear & Hq & _).
  unfold fmt_tenth. cbn [Qnum Qden].
  destruct (Z.ltb_spec n 0); [lia|]. rewrite Z.abs_eq by lia.
  split; [reflexivity|]. split; [exact Hnear|]. split.
  - intros m Hm.
    assert (m <= 10 * n / Z.pos d)%Z
      by (apply Z.div_le_lower_bound; lia).
    lia.
  - intros m Hm.
    assert (10 * n / Z.pos d < m)%Z
      by (apply Z.div_lt_upper_bound; lia).
    lia.
Qed.

(** X23.  For a size below 2^53 bytes the text is a number with one
    decimal and the largest unit that the size fills, up to TB.  The
    number is the tenth nearest to the size divided by 1024 to the rank
    of the unit; it is at least 1.0 unless the unit is B, and at most
    1024.0 unless the unit is TB: rounding can turn a size just below
    the next unit into 1024.0. *)
Theorem file_size_unit (size_bytes : Z) :
  (0 <= size_bytes < 2 ^ 53)%Z ->
  exists k t,
    (k <= 4)%nat /\
    format_file_size size_bytes
    = tenths_text t ++ lit " " ++ nth k (size_units ++ [lit "TB"]) [] /\
    (Z.abs (10 * size_bytes - t * 1024 ^ Z.of_nat k) * 2
     <= 1024 ^ Z.of_nat k)%Z /\
    ((0 < k)%nat -> (1024 ^ Z.of_nat k <= size_bytes)%Z /\ (10 <= t)%Z) /\
    ((k < 4)%nat ->
     (size_bytes < 1024 ^ Z.of_nat (S k))%Z /\ (t <= 10240)%Z).
Proof.
  intros Hsize.
  unfold format_file_size, size_units, inject_Z.
  cbn [map format_size].
  rewrite below_1024.
  destruct (Z.ltb_spec size_bytes (1024 * 1)) as [H0|H0].
  { destruct (fmt_tenth_near size_bytes 1 ltac:(lia))
      as (t & Htext & Hnear & Hlow & Hhigh).
    exists 0%nat, t. rewrite Htext.
    change (1024 ^ Z.of_nat 0)%Z with 1%Z.
    change (1024 ^ Z.of_nat 1)%Z with 1024%Z.
    repeat split; auto; try lia. }
  rewrite shrink, below_1024.
  destruct (Z.ltb_spec size_bytes (1024 * Z.pos (1 * 1024))) as [H1|H1].
  { destruct (fmt_tenth_near size_bytes (1 * 1024) ltac:(lia))
      as (t & Htext & Hnear & Hlow & Hhigh).
    exists 1%nat, t. rewrite Htext.
    change (1024 ^ Z.of_nat 1)%Z with (Z.pos (1 * 1024)).
    change (1024 ^ Z.of_nat 2)%Z with (1024 * Z.pos (1 * 1024))%Z.
    repeat split; auto; try lia;
      first [apply Hlow; lia | apply Hhigh; lia]. }
  rewrite shrink, below_1024.
  destruct (Z.ltb_spec size_bytes (1024 * Z.pos (1 * 1024 * 1024)))
    as [H2|H2].
  { destruct (fmt_tenth_near size_bytes (1 * 1024 * 1024) ltac:(lia))
      as (t & Htext & Hnear & Hlow & Hhigh).
    exists 2%nat, t. rewrite Htext.
    change (1024 ^ Z.of_nat 2)%Z with (Z.pos (1 * 1024 * 1024)).
    change (1024 ^ Z.of_nat 3)%Z with (1024 * Z.pos (1 * 1024 * 1024))%Z.
    repeat split; auto; try lia;
      first [apply Hlow; lia | apply Hhigh; lia]. }
  rewrite shrink, below_1024.
  destruct (Z.ltb_spec size_bytes (1024 * Z.pos (1 * 1024 * 1024 * 1024)))
    as [H3|H3].
  { destruct (fmt_tenth_near size_bytes (1 * 1024 * 1024 * 1024) ltac:(lia))
      as (t & Htext & Hnear & Hlow & Hhigh).
    exists 3%nat, t. rewrite Htext.
    change (1024 ^ Z.of_nat 3)%Z with (Z.pos (1 * 1024 * 1024 * 1024)).
    change (1024 ^ Z.of_nat 4)%Z
      with (1024 * Z.pos (1 * 1024 * 1024 * 1024))%Z.
    repeat split; auto; try lia;
      first [apply Hlow; lia | apply Hhigh; lia]. }
  rewrite shrink.
  destruct (fmt_tenth_near size_bytes (1 * 1024 * 1024 * 1024 * 1024)
              ltac:(lia))
    as (t & Htext & Hnear & Hlow & Hhigh).
  exists 4%nat, t. rewrite Htext.
  change (1024 ^ Z.of_nat 4)%Z with (Z.pos (1 * 1024 * 1024 * 1024 * 1024)).
  repeat split; auto; try lia; apply Hlow; lia.
Qed.

Lemma file_size_unit_witness :
  exists k t,
    (k <= 4)%nat /\
    format_file_size 5242880
    = tenths_text t ++ lit " " ++ nth k (size_units ++ [lit "TB"]) [] /\
    (Z.abs (10 * 5242880 - t * 1024 ^ Z.of_nat k) * 2
     <= 1024 ^ Z.of_nat k)%Z /\
    ((0 < k)%nat -> (1024 ^ Z.of_nat k <= 5242880)%Z /\ (10 <= t)%Z) /\
    ((k < 4)%nat ->
     (5242880 < 1024 ^ Z.of_nat (S k))%Z /\ (t <= 10240)%Z).
Proof.
  apply (file_size_unit 5242880). split; [lia | reflexivity].
Defined.

(** Some sizes: a plain one, the two directions of a tie, and the size
    just below one MB, which is shown as 1024.0 KB. *)
Lemma file_size_examples :
  format_file_size 0 = lit "0.0 B" /\
  format_file_size 5242880 = lit "5.0 MB" /\
  format_file_size 1280 = lit "1.2 KB" /\
  format_file_size 1792 = lit "1.8 KB" /\
  format_file_size 1048575 = lit "1024.0 KB" /\
  format_file_size 1048576 = lit "1.0 MB" /\
  format_file_size (2 ^ 50) = lit "1024.0 TB".
Proof. vm_compute. repeat split. Qed.

End SizeFacts.
